(** * EventHub: a priority-ordered publish/subscribe dispatcher

    A shallow embedding of the [EventHub] class (registration, removal,
    dispatch and error routing) together with the properties of its listener
    registry and of its dispatch algorithm.

    Conventions of the embedding:
    - a listener record is a JavaScript object, compared by identity in the
      one-shot removal ([l !== listener]); the embedding gives every record
      the allocation stamp [l_id] it received from [addListener];
    - a handler is a function reference, compared by identity in [off]; the
      embedding names handlers by a number;
    - priorities are integers (the data model of the specification); the
      non-integral values of a JavaScript number are not modelled;
    - [events] is a JavaScript [Map]: an insertion-ordered association list
      with unique keys;
    - what a handler does when it is called belongs to the client: it is a
      parameter [body] of the dispatch functions, which gives the calls the
      handler makes on the dispatcher before it returns a value, returns a
      promise or throws;
    - [emit] and the two fan-outs are [async] functions.  A fan-out runs
      until it awaits the promise a handler returned (in asynchronous mode
      only); it is then parked in the world with the rest of its snapshot,
      and goes on when the promise is fulfilled or rejected.  Between two
      such moments the client may call the dispatcher again;
    - [handleError] calls [emit], which calls the fan-outs, which call
      [handleError]: the embedding of [emit] takes the depth it may nest
      to, and yields [None] beyond it.  The exhaustion of the call stack,
      which ends such a nesting on an engine, is not modelled;
    - [handleError] converts the error to a string when it builds the
      message to print, before [log] tests the debug switch.  A symbol and
      an object without a prototype cannot be converted: the conversion
      throws a [TypeError] inside the [catch] block, which ends the fan-out
      and rejects its promise, and with it the promise of [emit].  An
      object with a [toString] method of its own is not modelled;
    - [Instance] and [decoratorEventHub] work on constructor functions and
      not on a dispatcher: module [Singleton] has the constructors of a
      realm, with the chain along which their properties are inherited. *)

From Stdlib Require Import List ZArith String Bool Arith Lia Sorted.

Import ListNotations.

Set Implicit Arguments.

(* ================================================================== *)
(** * JavaScript [Map] with string keys *)

Module JsMap.

Section WithValue.

Variable V : Type.

Definition t := list (string * V).

Definition empty : t := [].

Fixpoint get (k : string) (m : t) : option V :=
  match m with
  | [] => None
  | (k', v) :: m' => if String.eqb k k' then Some v else get k m'
  end.

Definition has (k : string) (m : t) : bool :=
  match get k m with Some _ => true | None => false end.

(** [Map.prototype.set]: an existing key keeps its position, a new key
    goes last. *)
Fixpoint set (k : string) (v : V) (m : t) : t :=
  match m with
  | [] => [(k, v)]
  | (k', v') :: m' =>
      if String.eqb k k' then (k', v) :: m' else (k', v') :: set k v m'
  end.

Definition delete (k : string) (m : t) : t :=
  filter (fun kv => negb (String.eqb k (fst kv))) m.

Definition keys (m : t) : list string := map fst m.

Definition values (m : t) : list V := map snd m.

End WithValue.

End JsMap.

(* ================================================================== *)
(** * Data model *)

(** A handler reference. *)
Definition Handler := nat.

(** JavaScript values that reach the dispatcher: bound contexts, emitted
    arguments and thrown errors.  [VThis] is the dispatcher itself, [VObj]
    an ordinary object, [VBare] an object without a prototype
    ([Object.create(null)]), [VTypeError] the error that the engine throws
    when a value cannot be converted. *)
Inductive Val : Type :=
| VUndefined
| VNull
| VBool (b : bool)
| VNum (n : Z)
| VStr (s : string)
| VFun (h : Handler)
| VObj (o : nat)
| VThis
| VSymbol (s : nat)
| VBare (o : nat)
| VTypeError.

(** JavaScript truthiness, as used by [listener.context || this]. *)
Definition truthy (v : Val) : bool :=
  match v with
  | VUndefined | VNull => false
  | VBool b => b
  | VNum n => negb (Z.eqb n 0)
  | VStr s => negb (String.eqb s EmptyString)
  | VFun _ | VObj _ | VThis | VSymbol _ | VBare _ | VTypeError => true
  end.

(** The values that a template literal can convert to a string: all but
    the symbols and the objects that have no [toString] to inherit. *)
Definition stringifiable (v : Val) : bool :=
  match v with
  | VSymbol _ | VBare _ => false
  | _ => true
  end.

(** [interface Listener], with the identity of the record. *)
Record Listener : Type := mkListener {
  l_id : nat;
  handler : Handler;
  once : bool;
  priority : Z;
  context : Val
}.

(** [l === listener] on listener records. *)
Definition same_listener (a b : Listener) : bool := Nat.eqb (l_id a) (l_id b).

(** [interface EventHubOptions]. *)
Record EventHubOptions : Type := mkOptions {
  opt_maxListeners : option Z;
  opt_wildcard : option bool;
  opt_enableAsync : option bool;
  opt_debug : option bool;
  opt_namespace : option string
}.

Definition default_options : EventHubOptions := mkOptions None None None None None.

(** The fields of [class EventHub]. *)
Record Hub : Type := mkHub {
  events : JsMap.t (list Listener);
  wildcardListeners : list Listener;
  maxListeners : Z;
  wildcardEnabled : bool;
  asyncEnabled : bool;
  debugMode : bool;
  namespace : option string
}.

Inductive LogLevel : Type := LLog | LWarn | LError.

(** The two messages the dispatcher prints. *)
Inductive Message : Type :=
| MaxListenersExceededWarning (limit : Z)
| UnhandledError (event : string) (error : Val).

Record ConsoleLine : Type := mkLine {
  line_level : LogLevel;
  line_namespace : option string;
  line_message : Message
}.

(** Which of the two fan-outs of an [emit] a listener is called from. *)
Inductive FanOut : Type := Wildcard | Specific.

Definition FanOut_eqb (a b : FanOut) : bool :=
  match a, b with
  | Wildcard, Wildcard | Specific, Specific => true
  | _, _ => false
  end.

(** One call of a handler by the dispatcher: the [emit] call it belongs to,
    the fan-out, the record, the receiver and the argument list. *)
Record Invocation : Type := mkInvocation {
  iv_emit : nat;
  iv_kind : FanOut;
  iv_listener : Listener;
  iv_this : Val;
  iv_args : list Val
}.

(** A fan-out suspended at [await result]: the record whose awaitable is
    awaited and the part of the snapshot still to visit. *)
Record Task : Type := mkTask {
  t_emit : nat;
  t_kind : FanOut;
  t_event : string;
  t_args : list Val;
  t_current : Listener;
  t_rest : list Listener
}.

(** The start of a fan-out: the copy of the listener sequence it iterates. *)
Record FanOutStart : Type := mkStart {
  fs_emit : nat;
  fs_kind : FanOut;
  fs_snapshot : list Listener
}.

(** A fan-out ended by an exception that left its [catch] block: the
    error its promise is rejected with, and the part of the snapshot that
    it never visits. *)
Record Failure : Type := mkFailure {
  fl_emit : nat;
  fl_kind : FanOut;
  fl_error : Val;
  fl_rest : list Listener
}.

(** The dispatcher and what surrounds it: the allocation counter of listener
    records, the console, the suspended fan-outs, and the history of the
    [emit] calls (the call number [k] is the [k]-th entry), of the fan-outs
    started, of the handler calls and of the fan-outs that failed. *)
Record World : Type := mkWorld {
  hub : Hub;
  next_id : nat;
  console : list ConsoleLine;
  parked : list Task;
  emitted : list (string * list Val);
  started : list FanOutStart;
  trace : list Invocation;
  failed : list Failure
}.

Definition with_hub (f : Hub -> Hub) (w : World) : World :=
  mkWorld (f (hub w)) (next_id w) (console w) (parked w) (emitted w)
          (started w) (trace w) (failed w).

Definition set_events (ev : JsMap.t (list Listener)) (h : Hub) : Hub :=
  mkHub ev (wildcardListeners h) (maxListeners h) (wildcardEnabled h)
        (asyncEnabled h) (debugMode h) (namespace h).

Definition set_wildcardListeners (ls : list Listener) (h : Hub) : Hub :=
  mkHub (events h) ls (maxListeners h) (wildcardEnabled h)
        (asyncEnabled h) (debugMode h) (namespace h).

Definition set_maxListeners (n : Z) (h : Hub) : Hub :=
  mkHub (events h) (wildcardListeners h) n (wildcardEnabled h)
        (asyncEnabled h) (debugMode h) (namespace h).

Definition orElse {A : Type} (o : option A) (d : A) : A :=
  match o with Some a => a | None => d end.

(** [constructor(options)]. *)
Definition construct (options : EventHubOptions) : World :=
  mkWorld
    (mkHub (JsMap.empty _) []
           (orElse (opt_maxListeners options) 10%Z)
           (orElse (opt_wildcard options) true)
           (orElse (opt_enableAsync options) true)
           (orElse (opt_debug options) false)
           (opt_namespace options))
    0 [] [] [] [] [] [].

(* ================================================================== *)
(** * The registry operations *)

Definition wildcard_token : string := "*".

(** [reset()]. *)
Definition reset (w : World) : World :=
  with_hub (fun h => set_wildcardListeners [] (set_events (JsMap.empty _) h)) w.

(** [hasEvent(event)]. *)
Definition hasEvent (event : string) (w : World) : bool :=
  if String.eqb event wildcard_token && wildcardEnabled (hub w)
  then negb (Nat.eqb (List.length (wildcardListeners (hub w))) 0)
  else JsMap.has event (events (hub w)).

(** [listenerCount(event)]. *)
Definition listenerCount (event : string) (w : World) : nat :=
  if String.eqb event wildcard_token && wildcardEnabled (hub w)
  then List.length (wildcardListeners (hub w))
  else match JsMap.get event (events (hub w)) with
       | Some listeners => List.length listeners
       | None => 0
       end.

(** [eventNames()]. *)
Definition eventNames (w : World) : list string := JsMap.keys (events (hub w)).

(** [log(message, level)]: prints only in debug mode. *)
Definition log (message : Message) (level : LogLevel) (w : World) : World :=
  if debugMode (hub w)
  then mkWorld (hub w) (next_id w)
               (console w ++ [mkLine level (namespace (hub w)) message])
               (parked w) (emitted w) (started w) (trace w) (failed w)
  else w.

(** [getTotalListenerCount()]. *)
Definition getTotalListenerCount (w : World) : nat :=
  fold_left (fun count listeners => count + List.length listeners)
            (JsMap.values (events (hub w)))
            (List.length (wildcardListeners (hub w))).

(** [Array.prototype.findIndex]; [None] stands for [-1]. *)
Fixpoint findIndex {A : Type} (p : A -> bool) (l : list A) : option nat :=
  match l with
  | [] => None
  | x :: l' =>
      if p x then Some 0
      else match findIndex p l' with
           | Some i => Some (S i)
           | None => None
           end
  end.

(** [insertListenerByPriority(listeners, newListener)]: the array after the
    [push] or the [splice(index, 0, newListener)]. *)
Definition insertListenerByPriority
    (listeners : list Listener) (newListener : Listener) : list Listener :=
  match findIndex (fun l => Z.ltb (priority l) (priority newListener)) listeners with
  | None => listeners ++ [newListener]
  | Some index => firstn index listeners ++ newListener :: skipn index listeners
  end.

(** The allocation of a listener record. *)
Definition alloc (w : World) : World :=
  mkWorld (hub w) (S (next_id w)) (console w) (parked w) (emitted w)
          (started w) (trace w) (failed w).

(** [addListener(event, handler, once, context, priority)]. *)
Definition addListener (event : string) (handler : Handler) (once : bool)
    (context : Val) (priority : Z) (w : World) : World :=
  if String.eqb event wildcard_token && negb (wildcardEnabled (hub w)) then w
  else
    let currentCount := getTotalListenerCount w in
    let w1 :=
      if Z.geb (Z.of_nat currentCount) (maxListeners (hub w))
      then log (MaxListenersExceededWarning (maxListeners (hub w))) LWarn w
      else w in
    let listener := mkListener (next_id w1) handler once priority context in
    let w2 := alloc w1 in
    if String.eqb event wildcard_token
    then with_hub (fun h =>
           set_wildcardListeners
             (insertListenerByPriority (wildcardListeners h) listener) h) w2
    else with_hub (fun h =>
           let ev := if JsMap.has event (events h) then events h
                     else JsMap.set event [] (events h) in
           let listeners := orElse (JsMap.get event ev) [] in
           set_events
             (JsMap.set event (insertListenerByPriority listeners listener) ev)
             h) w2.

(** [on(event, handler, context?, priority = 0)]. *)
Definition on (event : string) (handler : Handler) (context : Val)
    (priority : option Z) (w : World) : World :=
  addListener event handler false context (orElse priority 0%Z) w.

(** [once(event, handler, context?, priority = 0)]. *)
Definition once_ (event : string) (handler : Handler) (context : Val)
    (priority : option Z) (w : World) : World :=
  addListener event handler true context (orElse priority 0%Z) w.

(** The listeners that [off] keeps: [listener.handler !== handler]. *)
Definition other_handler (h : Handler) (l : Listener) : bool :=
  negb (Nat.eqb (handler l) h).

(** [off(event?, handler?)]. *)
Definition off (event : option string) (handler : option Handler)
    (w : World) : World :=
  match event with
  | None => reset w
  | Some event =>
      if String.eqb event wildcard_token && wildcardEnabled (hub w)
      then match handler with
           | Some h =>
               with_hub (fun hb =>
                 set_wildcardListeners
                   (filter (other_handler h) (wildcardListeners hb)) hb) w
           | None => with_hub (set_wildcardListeners []) w
           end
      else match handler with
           | Some h =>
               match JsMap.get event (events (hub w)) with
               | Some listeners =>
                   with_hub (fun hb =>
                     set_events
                       (JsMap.set event (filter (other_handler h) listeners)
                                  (events hb)) hb) w
               | None => w
               end
           | None =>
               with_hub (fun hb =>
                 set_events (JsMap.delete event (events hb)) hb) w
           end
  end.

(** [setMaxListeners(n)]. *)
Definition setMaxListeners (n : Z) (w : World) : World :=
  with_hub (set_maxListeners n) w.

(** The options object that [createNamespace(namespace)] passes to the
    constructor: the current limit and switches of the dispatcher, and the
    namespace. *)
Definition namespace_options (ns : string) (w : World) : EventHubOptions :=
  mkOptions (Some (maxListeners (hub w))) (Some (wildcardEnabled (hub w)))
            (Some (asyncEnabled (hub w))) (Some (debugMode (hub w)))
            (Some ns).

(** [createNamespace(namespace)]: a new dispatcher. *)
Definition createNamespace (ns : string) (w : World) : World :=
  construct (namespace_options ns w).

(* ================================================================== *)
(** * Dispatch *)

(** What a call of a handler yields: a value that is not a promise, a
    promise, or an exception. *)
Inductive Outcome : Type :=
| Return
| ReturnPromise
| Throw (error : Val).

(** How an awaited promise settles. *)
Inductive Settlement : Type :=
| Fulfilled
| Rejected (error : Val).

(** How a call of [handleError] ends: it returns, or it throws. *)
Inductive Completion : Type :=
| Returns (w : World)
| Throws (error : Val) (w : World).

(** The world in which the call ended. *)
Definition world_of (c : Completion) : World :=
  match c with
  | Returns w | Throws _ w => w
  end.

(** The calls a client can make on the dispatcher. *)
Inductive Cmd : Type :=
| COn (event : string) (h : Handler) (context : Val) (priority : option Z)
| COnce (event : string) (h : Handler) (context : Val) (priority : option Z)
| COff (event : option string) (h : option Handler)
| CEmit (event : string) (args : list Val)
| CReset
| CSetMaxListeners (n : Z).

(** The calls that return at once ([emit] is the other one). *)
Definition apply_cmd (c : Cmd) (w : World) : World :=
  match c with
  | COn event h ctx p => on event h ctx p w
  | COnce event h ctx p => once_ event h ctx p w
  | COff event h => off event h w
  | CEmit _ _ => w
  | CReset => reset w
  | CSetMaxListeners n => setMaxListeners n w
  end.

(** The synchronous part of a handler: the calls it makes on the dispatcher,
    in order, and how it ends. *)
Record Script : Type := mkScript {
  calls : list Cmd;
  outcome : Outcome
}.

(** [listener.context || this]. *)
Definition receiver (l : Listener) : Val :=
  if truthy (context l) then context l else VThis.

(** The argument list a handler is called with: [(event, ...args)] in the
    wildcard fan-out, [(...args)] in the specific one. *)
Definition handler_args (kind : FanOut) (event : string) (args : list Val)
  : list Val :=
  match kind with
  | Wildcard => VStr event :: args
  | Specific => args
  end.

Definition error_event : string := "error".

(** The call of [listener]'s handler by the fan-out [kind] of the [emit]
    call [k]. *)
Definition invocation (k : nat) (kind : FanOut) (event : string)
    (args : list Val) (listener : Listener) : Invocation :=
  mkInvocation k kind listener (receiver listener)
               (handler_args kind event args).

Definition record_call (iv : Invocation) (w : World) : World :=
  mkWorld (hub w) (next_id w) (console w) (parked w) (emitted w) (started w)
          (trace w ++ [iv]) (failed w).

Definition record_start (fs : FanOutStart) (w : World) : World :=
  mkWorld (hub w) (next_id w) (console w) (parked w) (emitted w)
          (started w ++ [fs]) (trace w) (failed w).

Definition record_emit (event : string) (args : list Val) (w : World) : World :=
  mkWorld (hub w) (next_id w) (console w) (parked w)
          (emitted w ++ [(event, args)]) (started w) (trace w) (failed w).

Definition park (t : Task) (w : World) : World :=
  mkWorld (hub w) (next_id w) (console w) (parked w ++ [t]) (emitted w)
          (started w) (trace w) (failed w).

Definition unpark (i : nat) (w : World) : World :=
  mkWorld (hub w) (next_id w) (console w)
          (firstn i (parked w) ++ skipn (S i) (parked w)) (emitted w)
          (started w) (trace w) (failed w).

(** The promise of a fan-out is rejected. *)
Definition fail (f : Failure) (w : World) : World :=
  mkWorld (hub w) (next_id w) (console w) (parked w) (emitted w)
          (started w) (trace w) (failed w ++ [f]).

(** The removal of a one-shot record after its call:
    [filter((l) => l !== listener)] on the live sequence. *)
Definition removeOnce (kind : FanOut) (event : string) (listener : Listener)
    (w : World) : World :=
  if once listener then
    match kind with
    | Wildcard =>
        with_hub (fun h =>
          set_wildcardListeners
            (filter (fun l => negb (same_listener l listener))
                    (wildcardListeners h)) h) w
    | Specific =>
        with_hub (fun h =>
          let currentListeners := orElse (JsMap.get event (events h)) [] in
          set_events
            (JsMap.set event
               (filter (fun l => negb (same_listener l listener))
                       currentListeners)
               (events h)) h) w
    end
  else w.

Section Dispatch.

(** The client's handlers: the script a handler runs when it is called in
    a given world with a receiver and arguments. *)
Variable body : Handler -> World -> Val -> list Val -> Script.

Section OneLevel.

(** [this.emit], for the calls made from inside a dispatch. *)
Variable emit_rec : string -> list Val -> World -> option World.

Definition run_cmd (c : Cmd) (w : World) : option World :=
  match c with
  | CEmit event args => emit_rec event args w
  | _ => Some (apply_cmd c w)
  end.

Fixpoint run_calls (cs : list Cmd) (w : World) : option World :=
  match cs with
  | [] => Some w
  | c :: cs' =>
      match run_cmd c w with
      | Some w1 => run_calls cs' w1
      | None => None
      end
  end.

(** [listener.handler.call(listener.context || this, ...)]. *)
Definition call_handler (k : nat) (kind : FanOut) (event : string)
    (args : list Val) (listener : Listener) (w : World)
  : option (World * Outcome) :=
  let w1 := record_call (invocation k kind event args listener) w in
  let script := body (handler listener) w1 (receiver listener)
                     (handler_args kind event args) in
  match run_calls (calls script) w1 with
  | Some w2 => Some (w2, outcome script)
  | None => None
  end.

(** [handleError(error, event, handler)].  The promise of the nested
    [emit] has a [catch] handler, so that nothing it does comes back as an
    exception; the message for [log] is built from the error, which throws
    when the error cannot be converted to a string. *)
Definition handleError (error : Val) (event : string) (h : Handler)
    (w : World) : option Completion :=
  if JsMap.has error_event (events (hub w))
  then match emit_rec error_event [error; VStr event; VFun h] w with
       | Some w1 => Some (Returns w1)
       | None => None
       end
  else if stringifiable error
       then Some (Returns (log (UnhandledError event error) LError w))
       else Some (Throws VTypeError w).

(** The [for] loop of a fan-out over the rest of its snapshot.  The body
    of the [try] block is the call, the [await] and the one-shot
    removal; the [catch] block is [handleError], and what [handleError]
    throws ends the fan-out.  At an [await] the fan-out is parked. *)
Fixpoint fanout (k : nat) (kind : FanOut) (event : string)
    (args : list Val) (snapshot : list Listener) (w : World)
  : option World :=
  match snapshot with
  | [] => Some w
  | listener :: rest =>
      match call_handler k kind event args listener w with
      | None => None
      | Some (w1, Throw error) =>
          match handleError error event (handler listener) w1 with
          | Some (Returns w2) => fanout k kind event args rest w2
          | Some (Throws error' w2) =>
              Some (fail (mkFailure k kind error' rest) w2)
          | None => None
          end
      | Some (w1, ReturnPromise) =>
          if asyncEnabled (hub w1)
          then Some (park (mkTask k kind event args listener rest) w1)
          else fanout k kind event args rest
                      (removeOnce kind event listener w1)
      | Some (w1, Return) =>
          fanout k kind event args rest (removeOnce kind event listener w1)
      end
  end.

(** A parked fan-out goes on when the promise it awaits settles. *)
Definition resume (t : Task) (s : Settlement) (w : World) : option World :=
  match s with
  | Fulfilled =>
      fanout (t_emit t) (t_kind t) (t_event t) (t_args t) (t_rest t)
             (removeOnce (t_kind t) (t_event t) (t_current t) w)
  | Rejected error =>
      match handleError error (t_event t) (handler (t_current t)) w with
      | Some (Returns w1) =>
          fanout (t_emit t) (t_kind t) (t_event t) (t_args t) (t_rest t) w1
      | Some (Throws error' w1) =>
          Some (fail (mkFailure (t_emit t) (t_kind t) error' (t_rest t)) w1)
      | None => None
      end
  end.

(** [processWildcardListeners(event, ...args)], up to its first [await]. *)
Definition processWildcardListeners (k : nat) (event : string)
    (args : list Val) (w : World) : option World :=
  if Nat.eqb (List.length (wildcardListeners (hub w))) 0 then Some w
  else
    let listeners := wildcardListeners (hub w) in
    fanout k Wildcard event args listeners
           (record_start (mkStart k Wildcard listeners) w).

(** [processSpecificListeners(event, ...args)], up to its first [await]. *)
Definition processSpecificListeners (k : nat) (event : string)
    (args : list Val) (w : World) : option World :=
  match JsMap.get event (events (hub w)) with
  | None => Some w
  | Some listeners =>
      fanout k Specific event args listeners
             (record_start (mkStart k Specific listeners) w)
  end.

(** [emit(event, ...args)], up to its first [await]: both fan-outs are
    started, the wildcard one first, and the specific one also when the
    promise of the wildcard one is already rejected. *)
Definition emit_body (event : string) (args : list Val) (w : World)
  : option World :=
  let k := List.length (emitted w) in
  let w0 := record_emit event args w in
  match (if wildcardEnabled (hub w0)
         then processWildcardListeners k event args w0
         else Some w0) with
  | Some w1 => processSpecificListeners k event args w1
  | None => None
  end.

End OneLevel.

(** [emit], with a bound on the depth of the dispatches nested in it
    ([None]: the bound is exceeded). *)
Fixpoint emit (fuel : nat) (event : string) (args : list Val) (w : World)
  : option World :=
  match fuel with
  | 0 => None
  | S fuel' => emit_body (emit fuel') event args w
  end.

(** What happens to a dispatcher: a client calls it, or a promise awaited
    by a parked fan-out settles. *)
Inductive Action : Type :=
| Call (c : Cmd)
| Settle (i : nat) (s : Settlement).

Definition step (fuel : nat) (a : Action) (w : World) : option World :=
  match a with
  | Call c => run_cmd (emit fuel) c w
  | Settle i s =>
      match nth_error (parked w) i with
      | Some t => resume (emit fuel) t s (unpark i w)
      | None => None
      end
  end.

Fixpoint steps (fuel : nat) (acts : list Action) (w : World) : option World :=
  match acts with
  | [] => Some w
  | a :: acts' =>
      match step fuel a w with
      | Some w1 => steps fuel acts' w1
      | None => None
      end
  end.

(** The worlds a dispatcher built with [options] can be in. *)
Inductive reachable (options : EventHubOptions) : World -> Prop :=
| reachable_construct : reachable options (construct options)
| reachable_step w fuel a w' :
    reachable options w -> step fuel a w = Some w' -> reachable options w'.

End Dispatch.

(** The promise an [emit] call returned. *)
Inductive PromiseState : Type :=
| Pending
| Resolved (v : bool)
| RejectedWith (error : Val).

(** The promise of the [emit] call [k]: [emit] awaits the promises of its
    two fan-outs (with [Promise.all], or one after the other in synchronous
    mode, where they are settled already).  It is rejected as soon as one of
    them is, with the error of the first that failed; it is pending while
    one of the fan-outs is parked; then [emit] returns [true]. *)
Definition emitPromise (k : nat) (w : World) : PromiseState :=
  match find (fun f => Nat.eqb (fl_emit f) k) (failed w) with
  | Some f => RejectedWith (fl_error f)
  | None =>
      if existsb (fun t => Nat.eqb (t_emit t) k) (parked w) then Pending
      else Resolved true
  end.

Definition same_fanout (k : nat) (kind : FanOut) (k' : nat) (kind' : FanOut)
  : bool :=
  Nat.eqb k' k && FanOut_eqb kind' kind.

(** The listeners one fan-out has called so far, in order. *)
Definition invoked (k : nat) (kind : FanOut) (tr : list Invocation)
  : list Listener :=
  map iv_listener
      (filter (fun iv => same_fanout k kind (iv_emit iv) (iv_kind iv)) tr).

(** The listeners a parked fan-out has still to call. *)
Definition waiting (k : nat) (kind : FanOut) (ts : list Task) : list Listener :=
  flat_map t_rest
      (filter (fun t => same_fanout k kind (t_emit t) (t_kind t)) ts).

(** The listeners that a fan-out which failed never calls. *)
Definition abandoned (k : nat) (kind : FanOut) (fs : list Failure)
  : list Listener :=
  flat_map fl_rest
      (filter (fun f => same_fanout k kind (fl_emit f) (fl_kind f)) fs).

(* ================================================================== *)
(** * The shared instance and the class decorator *)

(** [Instance(Fn)] and [decoratorEventHub(target)] read and define
    properties of constructor functions.  A constructor is named by the
    number it has in the realm, in the order of the class declarations; an
    object is named by the constructor it was created with and by its
    allocation stamp.  A property that [Instance] or the decorator reads is
    looked up on the constructor, then on the constructor it extends, and so
    on: [class B extends A] makes [A] the prototype of [B], and
    [A.prototype] the prototype of [B.prototype]. *)
Module Singleton.

Record Obj : Type := mkObj {
  obj_class : nat;
  obj_id : nat
}.

(** A constructor function: the constructor it extends, its own
    [_instance] property and the own [eventHub] property of its
    [prototype] object. *)
Record Constructor : Type := mkConstructor {
  extends_ : option nat;
  own_instance : option Obj;
  own_eventHub : option Obj
}.

Record Realm : Type := mkRealm {
  constructors : list Constructor;
  next_obj : nat
}.

(** [class EventHub] is the first constructor of the realm. *)
Definition EventHub_ : nat := 0.

(** The lookup of a property along the chain of the constructors, the
    chain being no longer than [depth]. *)
Fixpoint lookup (own : Constructor -> option Obj) (cs : list Constructor)
    (depth c : nat) : option Obj :=
  match depth with
  | 0 => None
  | S d =>
      match nth_error cs c with
      | None => None
      | Some k =>
          match own k with
          | Some v => Some v
          | None =>
              match extends_ k with
              | Some s => lookup own cs d s
              | None => None
              end
          end
      end
  end.

(** [Fn._instance]. *)
Definition get_instance (Fn : nat) (r : Realm) : option Obj :=
  lookup own_instance (constructors r) (List.length (constructors r)) Fn.

(** [target.prototype.eventHub]. *)
Definition get_eventHub (target : nat) (r : Realm) : option Obj :=
  lookup own_eventHub (constructors r) (List.length (constructors r)) target.

Fixpoint update (c : nat) (f : Constructor -> Constructor)
    (cs : list Constructor) : list Constructor :=
  match cs, c with
  | [], _ => []
  | k :: cs', 0 => f k :: cs'
  | k :: cs', S c' => k :: update c' f cs'
  end.

(** [new Fn()]: a new object. *)
Definition new (Fn : nat) (r : Realm) : Obj * Realm :=
  (mkObj Fn (next_obj r), mkRealm (constructors r) (S (next_obj r))).

Definition put_instance (o : Obj) (k : Constructor) : Constructor :=
  mkConstructor (extends_ k) (Some o) (own_eventHub k).

Definition put_eventHub (o : Obj) (k : Constructor) : Constructor :=
  mkConstructor (extends_ k) (own_instance k) (Some o).

(** [Object.defineProperty(Fn, '_instance', { value: o })]. *)
Definition define_instance (Fn : nat) (o : Obj) (r : Realm) : Realm :=
  mkRealm (update Fn (put_instance o) (constructors r)) (next_obj r).

(** [target.prototype.eventHub = o]. *)
Definition assign_eventHub (target : nat) (o : Obj) (r : Realm) : Realm :=
  mkRealm (update target (put_eventHub o) (constructors r)) (next_obj r).

(** [static Instance(Fn)]: the value it returns and the realm it leaves;
    [None] when [Fn] is no constructor (a [TypeError]). *)
Definition Instance (Fn : nat) (r : Realm) : option (option Obj * Realm) :=
  if Nat.ltb Fn (List.length (constructors r)) then
    let r1 :=
      match get_instance Fn r with
      | Some _ => r
      | None => let (o, r0) := new Fn r in define_instance Fn o r0
      end in
    Some (get_instance Fn r1, r1)
  else None.

(** [decoratorEventHub(target)]: the realm it leaves (it returns
    [target]). *)
Definition decoratorEventHub (target : nat) (r : Realm) : option Realm :=
  if Nat.ltb target (List.length (constructors r)) then
    Some match get_eventHub target r with
         | Some _ => r
         | None => let (o, r0) := new EventHub_ r in assign_eventHub target o r0
         end
  else None.

(** The realm before the module is loaded holds [class EventHub]; the
    module then evaluates [eventHub = EventHub.Instance(EventHub)]. *)
Definition declared : Realm := mkRealm [mkConstructor None None None] 0.

Definition loaded : Realm :=
  match Instance EventHub_ declared with
  | Some (_, r) => r
  | None => declared
  end.

Definition eventHub : option Obj :=
  match Instance EventHub_ declared with
  | Some (o, _) => o
  | None => None
  end.

(** What happens to the realm afterwards: a class is declared (it may
    extend a constructor that exists), [Instance] is called, a class is
    decorated. *)
Inductive RealmAction : Type :=
| NewClass (parent : option nat)
| CallInstance (Fn : nat)
| Decorate (target : nat).

Definition declare (parent : option nat) (r : Realm) : option Realm :=
  let r1 := mkRealm (constructors r ++ [mkConstructor parent None None])
                    (next_obj r) in
  match parent with
  | Some p => if Nat.ltb p (List.length (constructors r)) then Some r1 else None
  | None => Some r1
  end.

Definition realm_step (a : RealmAction) (r : Realm) : option Realm :=
  match a with
  | NewClass parent => declare parent r
  | CallInstance Fn =>
      match Instance Fn r with
      | Some (_, r1) => Some r1
      | None => None
      end
  | Decorate target => decoratorEventHub target r
  end.

Inductive realm_reachable : Realm -> Prop :=
| realm_loaded : realm_reachable loaded
| realm_next r a r' :
    realm_reachable r -> realm_step a r = Some r' -> realm_reachable r'.

Fixpoint realm_steps (acts : list RealmAction) (r : Realm) : option Realm :=
  match acts with
  | [] => Some r
  | a :: acts' =>
      match realm_step a r with
      | Some r1 => realm_steps acts' r1
      | None => None
      end
  end.

(** [descends cs c a]: the constructor [c] is [a] or extends, directly or
    not, the constructor [a]. *)
Inductive descends (cs : list Constructor) : nat -> nat -> Prop :=
| descends_self c k : nth_error cs c = Some k -> descends cs c c
| descends_extends c k s a :
    nth_error cs c = Some k -> extends_ k = Some s -> descends cs s a ->
    descends cs c a.

(** A constructor extends a constructor declared before it. *)
Definition well_formed (cs : list Constructor) : Prop :=
  forall c k s, nth_error cs c = Some k -> extends_ k = Some s -> s < c.

(** What holds of the realm once the module is loaded: [EventHub] is
    there with its shared instance, which every constructor that descends
    from it finds. *)
Definition shared (r : Realm) : Prop :=
  well_formed (constructors r) /\
  0 < List.length (constructors r) /\
  forall c, descends (constructors r) c EventHub_ ->
            get_instance c r = Some (mkObj EventHub_ 0).

End Singleton.

(* ================================================================== *)
(** * The vocabulary of the properties *)

(** [before a b]: [a] has the higher priority, or the same priority and was
    registered first. *)
Definition before (a b : Listener) : Prop :=
  (priority b < priority a)%Z \/
  (priority a = priority b /\ l_id a < l_id b).

(** A listener sequence in a world whose allocation counter is [n]: sorted
    by descending priority, records of equal priority in registration
    order, every record already allocated. *)
Definition seq_ok (n : nat) (ls : list Listener) : Prop :=
  StronglySorted before ls /\ Forall (fun l => l_id l < n) ls.

(** Every listener sequence is in order, the wildcard token is never a key
    of [events], and the wildcard list is empty when wildcard support is
    off. *)
Definition registry_ok (w : World) : Prop :=
  seq_ok (next_id w) (wildcardListeners (hub w)) /\
  Forall (seq_ok (next_id w)) (JsMap.values (events (hub w))) /\
  JsMap.has wildcard_token (events (hub w)) = false /\
  (wildcardEnabled (hub w) = false -> wildcardListeners (hub w) = []).

(** A parked fan-out of a named event is never one of the wildcard token. *)
Definition task_ok (t : Task) : Prop :=
  t_kind t = Specific -> t_event t <> wildcard_token.

Definition world_ok (w : World) : Prop :=
  registry_ok w /\ Forall task_ok (parked w).

(** A world that is in order and has the property [P]. *)
Definition kept (P : World -> Prop) (w : World) : Prop := world_ok w /\ P w.

(** The switches of the dispatcher ([maxListeners] has a setter and is not
    one of them). *)
Definition switches (w : World) : bool * bool * bool * option string :=
  (wildcardEnabled (hub w), asyncEnabled (hub w), debugMode (hub w),
   namespace (hub w)).

(** The listener sequence that [on], [off] and [listenerCount] address for
    an event name: the wildcard list for the wildcard token when wildcard
    support is on, the entry of [events] otherwise. *)
Definition sequence_of (event : string) (w : World) : list Listener :=
  if String.eqb event wildcard_token && wildcardEnabled (hub w)
  then wildcardListeners (hub w)
  else orElse (JsMap.get event (events (hub w))) [].

(** Every listener sequence of the registry is sorted by [before]. *)
Definition registry_sorted (w : World) : Prop :=
  StronglySorted before (wildcardListeners (hub w)) /\
  forall e ls, JsMap.get e (events (hub w)) = Some ls ->
               StronglySorted before ls.

(** The calls that delete the key of [event]: [off(event)], [off()] and
    [reset()]. *)
Definition removes_key (event : string) (c : Cmd) : bool :=
  match c with
  | COff (Some e) None => String.eqb e event
  | COff None _ => true
  | CReset => true
  | _ => false
  end.

(** An event name that [off] and the queries look up in [events]: any name
    but the wildcard token of a dispatcher with wildcard support. *)
Definition named_event (event : string) (w : World) : Prop :=
  String.eqb event wildcard_token && wildcardEnabled (hub w) = false.

Definition tag_iv (k : nat) (kind : FanOut) (iv : Invocation) : bool :=
  same_fanout k kind (iv_emit iv) (iv_kind iv).

Definition tag_task (k : nat) (kind : FanOut) (t : Task) : bool :=
  same_fanout k kind (t_emit t) (t_kind t).

Definition tag_failure (k : nat) (kind : FanOut) (f : Failure) : bool :=
  same_fanout k kind (fl_emit f) (fl_kind f).

(** What a piece of a run adds to the five histories. *)
Record Delta : Type := mkDelta {
  d_emitted : list (string * list Val);
  d_started : list FanOutStart;
  d_trace : list Invocation;
  d_parked : list Task;
  d_failed : list Failure
}.

Definition d_nil : Delta := mkDelta [] [] [] [] [].

Definition d_app (a b : Delta) : Delta :=
  mkDelta (d_emitted a ++ d_emitted b) (d_started a ++ d_started b)
          (d_trace a ++ d_trace b) (d_parked a ++ d_parked b)
          (d_failed a ++ d_failed b).

Definition extends (w : World) (d : Delta) (w' : World) : Prop :=
  emitted w' = emitted w ++ d_emitted d /\
  started w' = started w ++ d_started d /\
  trace w' = trace w ++ d_trace d /\
  parked w' = parked w ++ d_parked d /\
  failed w' = failed w ++ d_failed d.

(** A handler call made with the arguments of the [emit] call it belongs
    to: the receiver is [context || this], and the event name comes first
    for a wildcard listener only. *)
Definition iv_ok (call : option (string * list Val)) (iv : Invocation) : Prop :=
  exists e a,
    call = Some (e, a) /\
    iv_this iv = receiver (iv_listener iv) /\
    iv_args iv = handler_args (iv_kind iv) e a.

(** The part of an addition that belongs to the [emit] calls numbered from
    [n] on is complete: each fan-out started has called a prefix of its
    snapshot, and the rest waits in a parked task or was abandoned when the
    fan-out failed; a fan-out is parked at most once at a time, and not
    when it has failed; each snapshot is sorted; every call and every
    parked task carries the event and arguments of its [emit]. *)
Definition nested_ok (n : nat) (d : Delta) : Prop :=
  (forall fs, In fs (d_started d) -> n <= fs_emit fs ->
     invoked (fs_emit fs) (fs_kind fs) (d_trace d) ++
     waiting (fs_emit fs) (fs_kind fs) (d_parked d) ++
     abandoned (fs_emit fs) (fs_kind fs) (d_failed d) = fs_snapshot fs /\
     StronglySorted before (fs_snapshot fs)) /\
  (forall t, In t (d_parked d) -> n <= t_emit t ->
     nth_error (d_emitted d) (t_emit t - n) = Some (t_event t, t_args t)) /\
  (forall iv, In iv (d_trace d) -> n <= iv_emit iv ->
     iv_ok (nth_error (d_emitted d) (iv_emit iv - n)) iv) /\
  (forall k kind, n <= k ->
     List.length (filter (tag_task k kind) (d_parked d)) +
     List.length (filter (tag_failure k kind) (d_failed d)) <= 1).

Definition in_range (n : nat) (d : Delta) (k : nat) : Prop :=
  n <= k < n + List.length (d_emitted d).

(** What an [emit] call adds when the calls already made number [n]. *)
Definition closed (n : nat) (d : Delta) : Prop :=
  Forall (fun iv => in_range n d (iv_emit iv)) (d_trace d) /\
  Forall (fun t => in_range n d (t_emit t)) (d_parked d) /\
  Forall (fun fs => in_range n d (fs_emit fs)) (d_started d) /\
  Forall (fun f => in_range n d (fl_emit f)) (d_failed d) /\
  nested_ok n d.

(** The entries of a history that belong to the [emit] call [k]. *)
Definition of_call (A : Type) (id : A -> nat) (k : nat) (l : list A) : list A :=
  filter (fun x => Nat.eqb (id x) k) l.

(** What a piece of the [emit] call [k] adds: fan-out starts, handler calls,
    parked tasks and failures of its own, and what the [emit] calls nested
    in it add. *)
Record delta_ok (k n : nat) (d : Delta) (mystarts : list FanOutStart)
    (mine : list Invocation) (mytasks : list Task)
    (myfails : list Failure) : Prop := mk_delta_ok {
  dk_lt : k < n;
  dk_trace :
    Forall (fun iv => iv_emit iv = k \/ in_range n d (iv_emit iv)) (d_trace d);
  dk_parked :
    Forall (fun t => t_emit t = k \/ in_range n d (t_emit t)) (d_parked d);
  dk_started :
    Forall (fun fs => fs_emit fs = k \/ in_range n d (fs_emit fs)) (d_started d);
  dk_failed :
    Forall (fun f => fl_emit f = k \/ in_range n d (fl_emit f)) (d_failed d);
  dk_mine : of_call iv_emit k (d_trace d) = mine;
  dk_mytasks : of_call t_emit k (d_parked d) = mytasks;
  dk_mystarts : of_call fs_emit k (d_started d) = mystarts;
  dk_myfails : of_call fl_emit k (d_failed d) = myfails;
  dk_nested : nested_ok n d
}.

(** The five histories of a world. *)
Definition history (w : World) :=
  (emitted w, started w, trace w, parked w, failed w).

(** A piece of the [emit] call [k], from one world to another. *)
Definition piece (k : nat) (w w' : World) (mystarts : list FanOutStart)
    (mine : list Invocation) (mytasks : list Task)
    (myfails : list Failure) : Prop :=
  world_ok w' /\
  exists d, extends w d w' /\
            delta_ok k (List.length (emitted w)) d mystarts mine mytasks
                     myfails.

(** The handler calls and the halt of a fan-out over [ls]: it has called
    [done], a prefix of [ls], and is through with [ls] unless it is parked
    at the last record it called, with the rest of [ls] to go, or has
    failed, with the rest of [ls] abandoned. *)
Definition progress (k : nat) (kind : FanOut) (event : string)
    (args : list Val) (ls done : list Listener) (mytasks : list Task)
    (myfails : list Failure) : Prop :=
  (done = ls /\ mytasks = [] /\ myfails = []) \/
  (exists d l rest,
     done = d ++ [l] /\ ls = done ++ rest /\
     mytasks = [mkTask k kind event args l rest] /\ myfails = []) \/
  (exists rest error,
     ls = done ++ rest /\
     mytasks = [] /\ myfails = [mkFailure k kind error rest]).

(** What a fan-out of the [emit] call [k] leaves: nothing when there is
    no listener sequence to iterate, else the start with its sorted
    snapshot and the progress made on it. *)
Definition fan_ok (k : nat) (kind : FanOut) (e : string) (a : list Val)
    (mystarts : list FanOutStart) (done : list Listener)
    (mytasks : list Task) (myfails : list Failure) : Prop :=
  (mystarts = [] /\ done = [] /\ mytasks = [] /\ myfails = []) \/
  (exists ls, mystarts = [mkStart k kind ls] /\ StronglySorted before ls /\
              progress k kind e a ls done mytasks myfails).

Definition own_ok (k : nat) (e : string) (a : list Val)
    (mystarts : list FanOutStart) (mine : list Invocation)
    (mytasks : list Task) (myfails : list Failure) : Prop :=
  (forall fs, In fs mystarts ->
     invoked k (fs_kind fs) mine ++ waiting k (fs_kind fs) mytasks ++
     abandoned k (fs_kind fs) myfails =
       fs_snapshot fs /\
     StronglySorted before (fs_snapshot fs)) /\
  (forall t, In t mytasks -> t_event t = e /\ t_args t = a) /\
  (forall iv, In iv mine -> iv_ok (Some (e, a)) iv) /\
  (forall kind,
     List.length (filter (tag_task k kind) mytasks) +
     List.length (filter (tag_failure k kind) myfails) <= 1).

Definition whole (w : World) : Delta :=
  mkDelta (emitted w) (started w) (trace w) (parked w) (failed w).

(** At every moment: each fan-out ever started has called a prefix of its
    sorted snapshot, and the rest of the snapshot waits in its parked task
    or was abandoned when it failed; each handler call was made with the
    receiver and the arguments that its [emit] call determines. *)
Definition history_ok (w : World) : Prop := closed 0 (whole w).

(** Handlers that do not call [emit] themselves. *)
Definition no_reentry (body : Handler -> World -> Val -> list Val -> Script)
  : Prop :=
  forall h w this args c,
    In c (calls (body h w this args)) -> forall e a, c <> CEmit e a.

(** The arguments of an error dispatch, as a listener of the error event
    and as a wildcard listener receive them. *)
Definition error_report (args : list Val) : Prop :=
  exists err ev h,
    args = [err; VStr ev; VFun h] \/
    args = [VStr error_event; err; VStr ev; VFun h].

(** Handlers that do not throw when they are told of an error. *)
Definition calm (body : Handler -> World -> Val -> list Val -> Script) : Prop :=
  forall h w this args err,
    error_report args -> outcome (body h w this args) <> Throw err.

(** The nested error dispatch returns, or there is none because the
    handlers are being told of an error. *)
Definition errors_settle
    (emit_rec : string -> list Val -> World -> option World)
    (kind : FanOut) (e : string) (a : list Val) : Prop :=
  error_report (handler_args kind e a) \/
  forall err ev h w,
    exists w', emit_rec error_event [err; VStr ev; VFun h] w = Some w'.

(** A call of [on] or [once] that passes the wildcard gate of
    [addListener]. *)
Definition registers (w : World) (c : Cmd) : bool :=
  match c with
  | COn e _ _ _ | COnce e _ _ _ =>
      negb (String.eqb e wildcard_token && negb (wildcardEnabled (hub w)))
  | _ => false
  end.

(** The calls of a client that return at once, made one after the other. *)
Definition run_client (cs : list Cmd) (w : World) : World :=
  fold_left (fun w0 c => apply_cmd c w0) cs w.

(** The line that [addListener] prints at the limit. *)
Definition warning_line (w : World) : ConsoleLine :=
  mkLine LWarn (namespace (hub w))
         (MaxListenersExceededWarning (maxListeners (hub w))).

(** What a dispatcher may print: nothing unless it is in debug mode, and
    every line under its namespace. *)
Definition printed_by (w : World) (lines : list ConsoleLine) : Prop :=
  (debugMode (hub w) = false -> lines = []) /\
  Forall (fun line => line_namespace line = namespace (hub w)) lines.

(** The listener sequence that a fan-out of [emit(e)] copies, read in the
    world in which [emit] is called: the wildcard list, when it is not
    empty, for the wildcard fan-out; the sequence of [e] for the specific
    fan-out, when there is no wildcard listener to run before the copy is
    taken. *)
Definition copied_at_call (kind : FanOut) (e : string) (w : World)
    (ls : list Listener) : Prop :=
  match kind with
  | Wildcard => wildcardListeners (hub w) = ls /\ ls <> []
  | Specific =>
      wildcardListeners (hub w) = [] /\
      JsMap.get e (events (hub w)) = Some ls
  end.

(** A world that has the fan-out starts of [w] and maybe more. *)
Definition started_grows (w w' : World) : Prop :=
  exists d, started w' = started w ++ d.

(** Handlers that make no call on the dispatcher and do not throw. *)
Definition quiet (body : Handler -> World -> Val -> list Val -> Script)
  : Prop :=
  forall h w this args,
    calls (body h w this args) = [] /\
    forall err, outcome (body h w this args) <> Throw err.

(** The one-shot removals of a fan-out that has called the records [ls]. *)
Definition prune (kind : FanOut) (event : string) (ls : list Listener)
    (w : World) : World :=
  fold_left (fun w0 l => removeOnce kind event l w0) ls w.

(** The records of a sequence are distinct objects. *)
Definition distinct_records (ls : list Listener) : Prop :=
  NoDup (map l_id ls).

Definition records_distinct (w : World) : Prop :=
  distinct_records (wildcardListeners (hub w)) /\
  Forall distinct_records (JsMap.values (events (hub w))).

(** The records that the one-shot removals of the calls of [ls] leave. *)
Definition survives (ls : list Listener) (x : Listener) : bool :=
  negb (existsb (fun l => once l && same_listener x l) ls).

(** The name under which the sequence that a fan-out iterates is
    registered. *)
Definition fanout_name (kind : FanOut) (e : string) : string :=
  match kind with
  | Wildcard => wildcard_token
  | Specific => e
  end.

(** The record [l] has been allocated and is not in the sequence of
    [name]. *)
Definition gone (name : string) (l : Listener) (w : World) : Prop :=
  l_id l < next_id w /\ ~ In l (sequence_of name w).

(** A handler that returns a value, and not a promise, whenever it is
    called. *)
Definition returns_value
    (body : Handler -> World -> Val -> list Val -> Script) (h : Handler)
  : Prop :=
  forall w this args, outcome (body h w this args) = Return.

(** The allocation counter has reached [n]. *)
Definition allocated (n : nat) (w : World) : Prop := n <= next_id w.

(** Handlers that throw only values that can be converted to a string. *)
Definition throws_printable
    (body : Handler -> World -> Val -> list Val -> Script) : Prop :=
  forall h w this args error,
    outcome (body h w this args) = Throw error -> stringifiable error = true.

(** A promise that is rejected is rejected with a value that can be
    converted to a string. *)
Definition rejects_printable (a : Action) : Prop :=
  match a with
  | Settle _ (Rejected error) => stringifiable error = true
  | _ => True
  end.

(** Every handler call, parked task and failure on record belongs to an
    [emit] call that was made. *)
Definition recorded (w : World) : Prop :=
  Forall (fun iv => iv_emit iv < List.length (emitted w)) (trace w) /\
  Forall (fun t => t_emit t < List.length (emitted w)) (parked w) /\
  Forall (fun f => fl_emit f < List.length (emitted w)) (failed w).

(** ** The handlers and the worlds of the examples *)

Module Demo.

Local Open Scope string_scope.
Local Open Scope Z_scope.

Definition plain : Handler := 1%nat.

Definition thrower : Handler := 2%nat.

Definition awaiter : Handler := 3%nat.

Definition watcher : Handler := 4%nat.

Definition boom : Val := VStr "boom".

(** [thrower] throws unless it is called with three arguments or more,
    [awaiter] returns a promise, the other handlers return at once. *)
Definition demo (h : Handler) (w : World) (this : Val) (args : list Val)
  : Script :=
  if Nat.eqb h thrower then
    match args with
    | _ :: _ :: _ :: _ => mkScript [] Return
    | _ => mkScript [] (Throw boom)
    end
  else if Nat.eqb h awaiter then mkScript [] ReturnPromise
  else mkScript [] Return.

Definition r_plain : Listener := mkListener 0 plain false 1 VUndefined.

Definition r_thrower : Listener := mkListener 1 thrower false 10 (VObj 1).

Definition r_awaiter : Listener := mkListener 2 awaiter false 5 VNull.

Definition r_watcher : Listener := mkListener 3 watcher false 0 (VNum 0).

Definition script : list Action :=
  [ Call (COn "x" plain VUndefined (Some 1));
    Call (COn "x" thrower (VObj 1) (Some 10));
    Call (COn "x" awaiter VNull (Some 5));
    Call (COn "*" watcher (VNum 0) None);
    Call (CEmit "x" [VNum 7]);
    Settle 0 (Rejected boom) ].

Definition demo_world : World :=
  Eval vm_compute in
    orElse (steps demo 2 script (construct default_options))
           (construct default_options).

Definition demo_start : FanOutStart :=
  mkStart 0 Specific [r_thrower; r_awaiter; r_plain].

(** The world after one more registration at the priority 5. *)
Definition demo_next : World :=
  Eval vm_compute in on "x" watcher VUndefined (Some 5) demo_world.

(** The call of the wildcard listener in that run. *)
Definition watcher_call : Invocation :=
  mkInvocation 0 Wildcard r_watcher VThis [VStr "x"; VNum 7].

Definition once_world : World :=
  once_ "*" thrower VUndefined None
    (once_ "x" thrower VUndefined None (construct default_options)).

Definition debug_options : EventHubOptions :=
  mkOptions None None None (Some true) None.

Definition stale_world : World :=
  on "x" thrower VUndefined None
    (on "*" watcher VUndefined None
       (off (Some "error") (Some plain)
          (on "error" plain VUndefined None (construct debug_options)))).

Definition small_options : EventHubOptions :=
  mkOptions (Some 1) None None None None.

Definition full_world : World :=
  on "x" plain VUndefined None (construct small_options).

Definition no_wildcard : EventHubOptions :=
  mkOptions None (Some false) None None None.

(** A dispatcher with wildcard support and one wildcard listener. *)
Definition star_world : World :=
  on "*" watcher VUndefined None (construct default_options).

(** [thrower] throws a symbol, the other handlers return at once. *)
Definition symbolic (h : Handler) (w : World) (this : Val) (args : list Val)
  : Script :=
  if Nat.eqb h thrower then mkScript [] (Throw (VSymbol 0))
  else mkScript [] Return.

Definition r_first : Listener := mkListener 0 thrower false 1 VUndefined.

Definition r_second : Listener := mkListener 1 plain false 0 VUndefined.

(** Two listeners of the event x, the first of which throws a symbol. *)
Definition symbol_world : World :=
  on "x" plain VUndefined None
     (on "x" thrower VUndefined (Some 1) (construct default_options)).

Definition plain_world : World :=
  Eval vm_compute in
    orElse (steps demo 2
              [ Call (COn "*" watcher VUndefined None);
                Call (COnce "x" plain VUndefined None);
                Call (CEmit "*" [VNum 1]) ]
              (construct no_wildcard))
           (construct no_wildcard).

End Demo.

(** ** More handlers and worlds for the examples *)

Module Scenes.

Import Demo.
Local Open Scope string_scope.
Local Open Scope Z_scope.

(** Handlers that return at once and call nothing. *)
Definition returns (h : Handler) (w : World) (this : Val) (args : list Val)
  : Script :=
  mkScript [] Return.

(** The four registrations of the run of [Demo.script]. *)
Definition ready_world : World :=
  Eval vm_compute in
    orElse (steps demo 2 (firstn 4 script) (construct default_options))
           (construct default_options).

(** The same run after [emit], with the specific fan-out parked at the
    promise of [awaiter]. *)
Definition waiting_world : World :=
  Eval vm_compute in
    orElse (steps demo 2 (firstn 5 script) (construct default_options))
           (construct default_options).

Definition sync_options : EventHubOptions :=
  mkOptions None None (Some false) None None.

(** A dispatcher in synchronous mode whose second listener returns a
    promise. *)
Definition sync_script : list Action :=
  [ Call (COn "x" plain VUndefined None);
    Call (COnce "x" awaiter VUndefined (Some 5));
    Call (COn "*" watcher VUndefined None);
    Call (CEmit "x" [VNum 7]) ].

Definition sync_world : World :=
  Eval vm_compute in
    orElse (steps demo 2 sync_script (construct sync_options))
           (construct sync_options).

Definition verbose_options : EventHubOptions :=
  mkOptions (Some 1) None None (Some true) (Some "app").

Definition three_registrations : list Cmd :=
  [ COn "x" plain VUndefined None;
    COnce "*" watcher VUndefined None;
    COn "y" plain VUndefined (Some 3) ].

(** A dispatcher in debug mode whose limit was raised to 3, and a child
    of it with a failing listener. *)
Definition parent_world : World :=
  setMaxListeners 3 (construct verbose_options).

Definition child_script : list Action :=
  [ Call (COn "x" thrower VUndefined None);
    Call (CEmit "x" [VNum 7]) ].

Definition child_world : World :=
  Eval vm_compute in
    orElse (steps demo 2 child_script (createNamespace "child" parent_world))
           (createNamespace "child" parent_world).

(** One-shot and lasting listeners of the same event. *)
Definition mixed_script : list Action :=
  [ Call (COnce "x" plain VUndefined None);
    Call (COn "x" watcher VUndefined (Some 2));
    Call (COnce "*" watcher VUndefined None);
    Call (COn "y" plain VUndefined None) ].

Definition mixed_world : World :=
  Eval vm_compute in
    orElse (steps returns 1 mixed_script (construct default_options))
           (construct default_options).

Definition mixed_after : World :=
  Eval vm_compute in
    orElse (emit returns 1 "x" [VNum 7] mixed_world) mixed_world.

(** A one-shot listener between a listener that throws and one that
    returns a promise. *)
Definition busy_script : list Action :=
  [ Call (COnce "x" watcher VUndefined (Some 5));
    Call (COn "x" thrower VUndefined (Some 10));
    Call (COn "x" awaiter VUndefined (Some 1)) ].

Definition busy_world : World :=
  Eval vm_compute in
    orElse (steps demo 1 busy_script (construct default_options))
           (construct default_options).

Definition busy_after : World :=
  Eval vm_compute in
    orElse (emit demo 1 "x" [VNum 7] busy_world) busy_world.

Definition one_shot_record : Listener :=
  mkListener 0 watcher true 5 VUndefined.

(** A dispatcher with one listener of the error event. *)
Definition error_record : Listener := mkListener 0 plain false 0 VUndefined.

Definition doomed_world : World :=
  on "error" plain VUndefined None (construct default_options).

(** The realm after [class Sub extends EventHub], [class Deep extends
    Sub] and [class Other] were declared. *)
Definition family_script : list Singleton.RealmAction :=
  [ Singleton.NewClass (Some 0%nat);
    Singleton.NewClass (Some 1%nat);
    Singleton.NewClass None ].

Definition family : Singleton.Realm :=
  Eval vm_compute in
    orElse (Singleton.realm_steps family_script Singleton.loaded)
           Singleton.loaded.

(** The object that [Instance(Other)] creates, and the realm it leaves. *)
Definition other_instance : Singleton.Obj := Singleton.mkObj 3 1.

Definition family_with_other : Singleton.Realm :=
  Eval vm_compute in
    orElse (Singleton.realm_steps [Singleton.CallInstance 3%nat] family)
           family.

(** The realm after [Sub] was decorated. *)
Definition family_decorated : Singleton.Realm :=
  Eval vm_compute in
    orElse (Singleton.realm_steps [Singleton.Decorate 1%nat] family) family.

End Scenes.

(* ================================================================== *)
(** * Facts about the JavaScript [Map] *)

Module JsMapFacts.
Import JsMap.
Section WithValue.
Variable V : Type.
Implicit Types (m : t V) (k : string).

Lemma get_set_same k v m : get k (set k v m) = Some v.
Proof.
  induction m as [|[k' v'] m IH]; simpl.
  - now rewrite String.eqb_refl.
  - destruct (String.eqb k k') eqn:E; simpl; rewrite E; auto.
Qed.

Lemma get_set_other k k' v m : k' <> k -> get k' (set k v m) = get k' m.
Proof.
  intros Hne. induction m as [|[k0 v0] m IH]; simpl.
  - destruct (String.eqb k' k) eqn:E; auto.
    apply String.eqb_eq in E. contradiction.
  - destruct (String.eqb k k0) eqn:E; simpl.
    + apply String.eqb_eq in E. subst k0.
      apply String.eqb_neq in Hne. now rewrite Hne.
    + now rewrite IH.
Qed.

Lemma get_delete_same k m : get k (delete k m) = None.
Proof.
  induction m as [|[k0 v0] m IH]; simpl; auto.
  destruct (String.eqb k k0) eqn:E; simpl; auto.
  now rewrite E.
Qed.

Lemma get_delete_other k k' m : k' <> k -> get k' (delete k m) = get k' m.
Proof.
  intros Hne. induction m as [|[k0 v0] m IH]; simpl; auto.
  destruct (String.eqb k k0) eqn:E; simpl.
  - apply String.eqb_eq in E. subst k0.
    destruct (String.eqb k' k) eqn:E'; auto.
    apply String.eqb_eq in E'. contradiction.
  - now rewrite IH.
Qed.

Lemma has_set_same k v m : has k (set k v m) = true.
Proof. unfold has. now rewrite get_set_same. Qed.

Lemma has_set_other k k' v m : k' <> k -> has k' (set k v m) = has k' m.
Proof. intros. unfold has. now rewrite get_set_other. Qed.

Lemma has_delete_same k m : has k (delete k m) = false.
Proof. unfold has. now rewrite get_delete_same. Qed.

Lemma has_delete_other k k' m :
  k' <> k -> has k' (delete k m) = has k' m.
Proof. intros. unfold has. now rewrite get_delete_other. Qed.

Lemma has_keys k m : has k m = true <-> In k (keys m).
Proof.
  unfold has. induction m as [|[k0 v0] m IH]; simpl.
  - split; [discriminate | tauto].
  - destruct (String.eqb k k0) eqn:E.
    + apply String.eqb_eq in E. subst. tauto.
    + rewrite IH. apply String.eqb_neq in E. split; [tauto|].
      intros [H|H]; [congruence | exact H].
Qed.

Lemma get_in k v m : get k m = Some v -> In (k, v) m.
Proof.
  induction m as [|[k0 v0] m IH]; simpl; [discriminate|].
  destruct (String.eqb k k0) eqn:E.
  - apply String.eqb_eq in E. intros [= ->]. subst. now left.
  - auto.
Qed.

Lemma in_values_set v0 k v m :
  In v0 (values (set k v m)) -> v0 = v \/ In v0 (values m).
Proof.
  unfold values. induction m as [|[k1 v1] m IH]; simpl.
  - intros [H|[]]; auto.
  - destruct (String.eqb k k1); simpl.
    + intros [H|H]; auto.
    + intros [H|H]; auto. destruct (IH H); auto.
Qed.

Lemma in_values_delete v0 k m :
  In v0 (values (delete k m)) -> In v0 (values m).
Proof.
  unfold values, delete. rewrite !in_map_iff.
  intros [kv [E H]]. apply filter_In in H. exists kv. tauto.
Qed.

End WithValue.
End JsMapFacts.

(* ================================================================== *)
(** * The order of a listener sequence *)

Lemma before_trans a b c : before a b -> before b c -> before a c.
Proof. unfold before. intros [H|[H H']] [G|[G G']]; lia. Qed.

Lemma before_irrefl a : ~ before a a.
Proof. unfold before. lia. Qed.

Lemma StronglySorted_filter (A : Type) (R : A -> A -> Prop) (p : A -> bool) l :
  StronglySorted R l -> StronglySorted R (filter p l).
Proof.
  induction 1 as [|a l Hs IH Hf]; simpl; [constructor|].
  destruct (p a); auto. constructor; auto.
  rewrite Forall_forall in *. intros x Hx. apply filter_In in Hx. apply Hf, Hx.
Qed.

Lemma seq_ok_nil n : seq_ok n [].
Proof. split; constructor. Qed.

Lemma seq_ok_mono n m ls : n <= m -> seq_ok n ls -> seq_ok m ls.
Proof.
  intros Hle [Hs Hf]. split; auto.
  eapply Forall_impl; [|exact Hf]. simpl. intros. lia.
Qed.

Lemma seq_ok_filter n p ls : seq_ok n ls -> seq_ok n (filter p ls).
Proof.
  intros [Hs Hf]. split.
  - now apply StronglySorted_filter.
  - rewrite Forall_forall in *. intros x Hx. apply filter_In in Hx.
    apply Hf, Hx.
Qed.

(** The loop that [findIndex] and [splice] amount to. *)
Lemma insert_nil new : insertListenerByPriority [] new = [new].
Proof. reflexivity. Qed.

Lemma insert_cons x r new :
  insertListenerByPriority (x :: r) new =
  if Z.ltb (priority x) (priority new) then new :: x :: r
  else x :: insertListenerByPriority r new.
Proof.
  unfold insertListenerByPriority. simpl.
  destruct (Z.ltb (priority x) (priority new)); [reflexivity|].
  destruct (findIndex _ r); reflexivity.
Qed.

Lemma in_insert y ls new :
  In y (insertListenerByPriority ls new) <-> y = new \/ In y ls.
Proof.
  induction ls as [|x r IH].
  - rewrite insert_nil. simpl. intuition.
  - rewrite insert_cons. destruct (Z.ltb (priority x) (priority new)); simpl.
    + intuition.
    + rewrite IH. intuition.
Qed.

Lemma length_insert ls new :
  List.length (insertListenerByPriority ls new) = S (List.length ls).
Proof.
  induction ls as [|x r IH].
  - reflexivity.
  - rewrite insert_cons. destruct (Z.ltb (priority x) (priority new)); simpl;
      [reflexivity | now rewrite IH].
Qed.

Lemma sorted_insert ls new :
  StronglySorted before ls ->
  Forall (fun l => l_id l < l_id new) ls ->
  StronglySorted before (insertListenerByPriority ls new).
Proof.
  induction 1 as [|x r Hs IH Hf]; intros Hid.
  - rewrite insert_nil. repeat constructor.
  - rewrite insert_cons. inversion Hid as [|? ? Hx Hr]; subst.
    destruct (Z.ltb (priority x) (priority new)) eqn:E.
    + apply Z.ltb_lt in E. constructor; [now constructor|].
      constructor; [left; exact E|].
      rewrite Forall_forall in *. intros y Hy.
      specialize (Hf y Hy). unfold before in *. lia.
    + apply Z.ltb_ge in E. constructor; [now apply IH|].
      rewrite Forall_forall in *. intros y Hy.
      apply in_insert in Hy. destruct Hy as [->|Hy]; [|now apply Hf].
      unfold before. lia.
Qed.

Lemma seq_ok_insert n ls new :
  seq_ok n ls -> l_id new = n -> seq_ok (S n) (insertListenerByPriority ls new).
Proof.
  intros [Hs Hf] Hn. split.
  - apply sorted_insert; auto.
    eapply Forall_impl; [|exact Hf]. simpl. intros. lia.
  - rewrite Forall_forall in *. intros y Hy. apply in_insert in Hy.
    destruct Hy as [->|Hy]; [lia|]. specialize (Hf y Hy). simpl in Hf. lia.
Qed.

(** * The invariant of the registry *)

Lemma Forall_values_set (P : list Listener -> Prop) k v m :
  Forall P (JsMap.values m) -> P v -> Forall P (JsMap.values (JsMap.set k v m)).
Proof.
  rewrite !Forall_forall. intros H Hv x Hx.
  apply JsMapFacts.in_values_set in Hx. destruct Hx as [->|Hx]; auto.
Qed.

Lemma Forall_values_delete (P : list Listener -> Prop) k m :
  Forall P (JsMap.values m) -> Forall P (JsMap.values (JsMap.delete k m)).
Proof.
  rewrite !Forall_forall. intros H x Hx.
  apply JsMapFacts.in_values_delete in Hx. auto.
Qed.

Lemma Forall_values_get (P : list Listener -> Prop) k v m :
  Forall P (JsMap.values m) -> JsMap.get k m = Some v -> P v.
Proof.
  rewrite Forall_forall. intros H Hg. apply H.
  apply JsMapFacts.get_in in Hg. unfold JsMap.values.
  apply in_map_iff. exists (k, v). auto.
Qed.

Lemma Forall_seq_ok_mono n m vs :
  n <= m -> Forall (seq_ok n) vs -> Forall (seq_ok m) vs.
Proof.
  intros Hle H. eapply Forall_impl; [|exact H].
  intros ls. now apply seq_ok_mono.
Qed.

Lemma eqb_token_false event :
  String.eqb event wildcard_token = false -> event <> wildcard_token.
Proof. apply String.eqb_neq. Qed.

Lemma registry_ok_construct options : registry_ok (construct options).
Proof.
  unfold registry_ok, construct; simpl.
  split; [apply seq_ok_nil|]. split; [constructor|]. split; reflexivity.
Qed.

Lemma registry_ok_log m lvl w : registry_ok w -> registry_ok (log m lvl w).
Proof. unfold log. destruct (debugMode (hub w)); auto. Qed.

Lemma registry_ok_reset w : registry_ok w -> registry_ok (reset w).
Proof.
  intros _. unfold registry_ok, reset; simpl.
  split; [apply seq_ok_nil|]. split; [constructor|]. split; reflexivity.
Qed.

Ltac split_registry :=
  unfold registry_ok; simpl; split; [|split; [|split]].

Lemma registry_ok_addListener event h o ctx p w :
  registry_ok w -> registry_ok (addListener event h o ctx p w).
Proof.
  intros Hok. unfold addListener.
  destruct (String.eqb event wildcard_token && negb (wildcardEnabled (hub w)))
    eqn:Egate; [exact Hok|].
  set (w1 := if Z.geb _ _ then _ else w).
  assert (Hok1 : registry_ok w1).
  { subst w1. destruct (Z.geb _ _); auto using registry_ok_log. }
  assert (Hen : wildcardEnabled (hub w1) = wildcardEnabled (hub w)).
  { subst w1. destruct (Z.geb _ _); auto. unfold log.
    destruct (debugMode (hub w)); auto. }
  clearbody w1. destruct Hok1 as (Hw & Hev & Hstar & Hoff).
  destruct (String.eqb event wildcard_token) eqn:Etok.
  - split_registry; auto.
    + now apply seq_ok_insert.
    + eapply Forall_seq_ok_mono; [|exact Hev]. lia.
    + intros Hd. rewrite Hen in Hd. rewrite Hd in Egate. discriminate.
  - apply eqb_token_false in Etok. split_registry.
    + eapply seq_ok_mono; [|exact Hw]. lia.
    + destruct (JsMap.has event (events (hub w1))) eqn:Ehas.
      * apply Forall_values_set.
        { eapply Forall_seq_ok_mono; [|exact Hev]. lia. }
        apply seq_ok_insert; auto.
        unfold JsMap.has in Ehas.
        destruct (JsMap.get event (events (hub w1))) eqn:Eg; [|discriminate].
        simpl. eapply Forall_values_get; eauto.
      * apply Forall_values_set.
        { apply Forall_values_set; [|apply seq_ok_nil].
          eapply Forall_seq_ok_mono; [|exact Hev]. lia. }
        rewrite JsMapFacts.get_set_same. simpl.
        apply seq_ok_insert; auto using seq_ok_nil.
    + destruct (JsMap.has event (events (hub w1)));
        rewrite ?JsMapFacts.has_set_other; auto.
    + exact Hoff.
Qed.

Lemma registry_ok_off event h w : registry_ok w -> registry_ok (off event h w).
Proof.
  intros Hok. unfold off. destruct event as [event|];
    [|now apply registry_ok_reset].
  destruct Hok as (Hw & Hev & Hstar & Hoff).
  destruct (String.eqb event wildcard_token && wildcardEnabled (hub w))
    eqn:Egate.
  - destruct h as [h|]; split_registry; auto.
    + now apply seq_ok_filter.
    + intros Hd. rewrite (Hoff Hd). reflexivity.
    + apply seq_ok_nil.
  - destruct h as [h|].
    + destruct (JsMap.get event (events (hub w))) eqn:Eg;
        [|split_registry; auto].
      assert (event <> wildcard_token).
      { intros ->. unfold JsMap.has in Hstar. now rewrite Eg in Hstar. }
      split_registry; auto.
      * apply Forall_values_set; auto. apply seq_ok_filter.
        eapply Forall_values_get; eauto.
      * rewrite JsMapFacts.has_set_other; auto.
    + split_registry; auto.
      * now apply Forall_values_delete.
      * destruct (String.eqb wildcard_token event) eqn:E.
        { apply String.eqb_eq in E. subst. apply JsMapFacts.has_delete_same. }
        { apply String.eqb_neq in E. rewrite JsMapFacts.has_delete_other; auto. }
Qed.

Lemma registry_ok_apply_cmd c w : registry_ok w -> registry_ok (apply_cmd c w).
Proof.
  destruct c; simpl; intros H; auto using registry_ok_off, registry_ok_reset.
  - now apply registry_ok_addListener.
  - now apply registry_ok_addListener.
Qed.

Lemma registry_ok_removeOnce kind event l w :
  (kind = Specific -> event <> wildcard_token) ->
  registry_ok w -> registry_ok (removeOnce kind event l w).
Proof.
  intros Hne (Hw & Hev & Hstar & Hoff). unfold removeOnce.
  destruct (once l); [|split_registry; auto].
  destruct kind; split_registry; auto.
  - now apply seq_ok_filter.
  - intros Hd. rewrite (Hoff Hd). reflexivity.
  - apply Forall_values_set; auto. apply seq_ok_filter.
    destruct (JsMap.get event (events (hub w))) eqn:Eg; simpl.
    + eapply Forall_values_get; eauto.
    + apply seq_ok_nil.
  - rewrite JsMapFacts.has_set_other; auto.
    intros E. symmetry in E. revert E. now apply Hne.
Qed.

Lemma world_ok_construct options : world_ok (construct options).
Proof. split; [apply registry_ok_construct | constructor]. Qed.

Lemma parked_log m lvl w : parked (log m lvl w) = parked w.
Proof. unfold log. now destruct (debugMode (hub w)). Qed.

Lemma parked_addListener event h o ctx p w :
  parked (addListener event h o ctx p w) = parked w.
Proof.
  unfold addListener.
  destruct (String.eqb event wildcard_token && negb (wildcardEnabled (hub w)));
    [reflexivity|].
  destruct (String.eqb event wildcard_token); simpl;
    destruct (Z.geb _ _); simpl; now rewrite ?parked_log.
Qed.

Lemma parked_off event h w : parked (off event h w) = parked w.
Proof.
  unfold off. destruct event as [event|]; [|reflexivity].
  destruct (String.eqb event wildcard_token && wildcardEnabled (hub w));
    destruct h; try reflexivity.
  now destruct (JsMap.get event (events (hub w))).
Qed.

Lemma parked_apply_cmd c w : parked (apply_cmd c w) = parked w.
Proof.
  destruct c; simpl; auto using parked_off; apply parked_addListener.
Qed.

Lemma parked_removeOnce kind event l w :
  parked (removeOnce kind event l w) = parked w.
Proof. unfold removeOnce. destruct (once l); [destruct kind|]; reflexivity. Qed.

Lemma world_ok_apply_cmd c w : world_ok w -> world_ok (apply_cmd c w).
Proof.
  intros [H1 H2]. split; [now apply registry_ok_apply_cmd|].
  now rewrite parked_apply_cmd.
Qed.

Lemma world_ok_log m lvl w : world_ok w -> world_ok (log m lvl w).
Proof.
  intros [H1 H2]. split; [now apply registry_ok_log | now rewrite parked_log].
Qed.

Lemma world_ok_removeOnce kind event l w :
  (kind = Specific -> event <> wildcard_token) ->
  world_ok w -> world_ok (removeOnce kind event l w).
Proof.
  intros Hne [H1 H2]. split; [now apply registry_ok_removeOnce|].
  now rewrite parked_removeOnce.
Qed.

Lemma world_ok_park t w : task_ok t -> world_ok w -> world_ok (park t w).
Proof.
  intros Ht [H1 H2]. split; [exact H1|]. simpl.
  apply Forall_app. split; auto.
Qed.

Lemma world_ok_fail f w : world_ok w -> world_ok (fail f w).
Proof. intros H. exact H. Qed.

Lemma Forall_remove_nth (A : Type) (P : A -> Prop) i (l : list A) :
  Forall P l -> Forall P (firstn i l ++ skipn (S i) l).
Proof.
  intros H. apply Forall_app. split.
  - rewrite Forall_forall in *. intros x Hx. apply H.
    eapply In_nth_error in Hx. destruct Hx as [n Hn].
    rewrite <- (firstn_skipn i l). apply in_or_app. left.
    eapply nth_error_In; eauto.
  - rewrite Forall_forall in *. intros x Hx. apply H.
    rewrite <- (firstn_skipn (S i) l). apply in_or_app. now right.
Qed.

Lemma world_ok_unpark i w : world_ok w -> world_ok (unpark i w).
Proof.
  intros [H1 H2]. split; [exact H1|]. simpl. now apply Forall_remove_nth.
Qed.

(** [handleError] throws only the [TypeError] of the conversion of the
    error to a string, in the world it was called in, and only when the
    registry has no key of the error event. *)
Lemma handleError_throws emit_rec error event h w error' w' :
  handleError emit_rec error event h w = Some (Throws error' w') ->
  error' = VTypeError /\ w' = w /\
  JsMap.has error_event (events (hub w)) = false /\
  stringifiable error = false.
Proof.
  unfold handleError. intros He.
  destruct (JsMap.has error_event (events (hub w))).
  - destruct (emit_rec _ _ _); discriminate.
  - destruct (stringifiable error); [discriminate|].
    now injection He as <- <-.
Qed.

Lemma run_cmd_cases emit_rec c w :
  (exists e a, c = CEmit e a /\ run_cmd emit_rec c w = emit_rec e a w) \/
  run_cmd emit_rec c w = Some (apply_cmd c w).
Proof. destruct c; simpl; eauto. Qed.

(* ================================================================== *)
(** * Properties kept by a dispatch *)

(** A property of the world that the elementary moves of a dispatch keep is
    kept by [emit], by the resumption of a parked fan-out and by every step
    of the dispatcher. *)
Section Preservation.

Variable body : Handler -> World -> Val -> list Val -> Script.

Variable P : World -> Prop.

Hypothesis P_script_cmd : forall h w0 this args c w,
  In c (calls (body h w0 this args)) -> world_ok w -> P w ->
  P (apply_cmd c w).

Hypothesis P_log : forall m lvl w, world_ok w -> P w -> P (log m lvl w).

Hypothesis P_removeOnce : forall kind event l w,
  (kind = Specific -> event <> wildcard_token) -> world_ok w -> P w ->
  P (removeOnce kind event l w).

Hypothesis P_record_call : forall iv w, P w -> P (record_call iv w).

Hypothesis P_record_start : forall fs w, P w -> P (record_start fs w).

Hypothesis P_record_emit : forall e a w, P w -> P (record_emit e a w).

Hypothesis P_park : forall t w,
  asyncEnabled (hub w) = true -> P w -> P (park t w).

Hypothesis P_fail : forall f w,
  fl_error f = VTypeError ->
  JsMap.has error_event (events (hub w)) = false ->
  P w -> P (fail f w).

Section OneLevel.

Variable emit_rec : string -> list Val -> World -> option World.

Hypothesis emit_rec_kept : forall e a w w',
  kept P w -> emit_rec e a w = Some w' -> kept P w'.

Lemma run_calls_kept h w0 this args cs w w' :
  incl cs (calls (body h w0 this args)) ->
  kept P w -> run_calls emit_rec cs w = Some w' -> kept P w'.
Proof.
  revert w. induction cs as [|c cs IH]; simpl; intros w Hin Hk Hrun.
  - now injection Hrun as <-.
  - destruct (run_cmd emit_rec c w) as [w1|] eqn:Ec; [|discriminate].
    apply (IH w1); auto.
    + intros x Hx. apply Hin. now right.
    + destruct Hk as [Hok HP].
      destruct (run_cmd_cases emit_rec c w) as [(e & a & -> & E)|E];
        rewrite E in Ec.
      * eapply emit_rec_kept; eauto. split; auto.
      * injection Ec as <-. split; [now apply world_ok_apply_cmd|].
        eapply P_script_cmd; eauto. apply Hin. now left.
Qed.

Lemma call_handler_kept k kind event args l w w' o :
  kept P w -> call_handler body emit_rec k kind event args l w = Some (w', o) ->
  kept P w'.
Proof.
  unfold call_handler. intros Hk Hc.
  destruct (run_calls _ _ _) as [w2|] eqn:Er; [|discriminate].
  injection Hc as <- _.
  eapply run_calls_kept; [apply incl_refl| |exact Er].
  destruct Hk as [[H1 H2] HP]. split; [split|]; auto.
Qed.

Lemma handleError_kept error event h w c :
  kept P w -> handleError emit_rec error event h w = Some c ->
  kept P (world_of c).
Proof.
  unfold handleError. intros Hk He.
  destruct (JsMap.has error_event (events (hub w))).
  - destruct (emit_rec _ _ _) as [w1|] eqn:Ee; [|discriminate].
    injection He as <-. eapply emit_rec_kept; eauto.
  - destruct (stringifiable error); injection He as <-; [|exact Hk].
    destruct Hk. split; [now apply world_ok_log | now apply P_log].
Qed.

Lemma fail_kept error event h w error' w' rest k kind :
  handleError emit_rec error event h w = Some (Throws error' w') ->
  kept P w' -> kept P (fail (mkFailure k kind error' rest) w').
Proof.
  intros He [Hok HP]. apply handleError_throws in He.
  destruct He as (-> & -> & Hhas & _).
  split; [now apply world_ok_fail | now apply P_fail].
Qed.

Lemma fanout_kept k kind event args ls w w' :
  (kind = Specific -> event <> wildcard_token) ->
  kept P w -> fanout body emit_rec k kind event args ls w = Some w' ->
  kept P w'.
Proof.
  intros Hne. revert w.
  induction ls as [|l rest IH]; simpl; intros w Hk Hf.
  - now injection Hf as <-.
  - destruct (call_handler _ _ _ _ _ _ _ _) as [[w1 o]|] eqn:Ec;
      [|discriminate].
    apply call_handler_kept in Ec; auto.
    assert (Hrm : kept P (removeOnce kind event l w1)).
    { destruct Ec. split;
        [now apply world_ok_removeOnce | now apply P_removeOnce]. }
    destruct o as [| |error].
    + exact (IH _ Hrm Hf).
    + destruct (asyncEnabled (hub w1)) eqn:Easync; [|exact (IH _ Hrm Hf)].
      injection Hf as <-. destruct Ec as [Hok HP]. split;
        [apply world_ok_park; [exact Hne | exact Hok] | now apply P_park].
    + destruct (handleError _ _ _ _ _) as [c|] eqn:Eh; [|discriminate].
      pose proof (handleError_kept _ _ _ Ec Eh) as Hk2.
      destruct c as [w2|error' w2]; simpl in Hk2; [exact (IH _ Hk2 Hf)|].
      injection Hf as <-. eapply fail_kept; eauto.
Qed.

Lemma resume_kept t s w w' :
  task_ok t -> kept P w -> resume body emit_rec t s w = Some w' -> kept P w'.
Proof.
  unfold resume. intros Ht Hk Hr. destruct s as [|error].
  - eapply fanout_kept; [exact Ht| |exact Hr].
    destruct Hk. split;
      [now apply world_ok_removeOnce | now apply P_removeOnce].
  - destruct (handleError _ _ _ _ _) as [c|] eqn:Eh; [|discriminate].
    pose proof (handleError_kept _ _ _ Hk Eh) as Hk1.
    destruct c as [w1|error' w1]; simpl in Hk1.
    + eapply fanout_kept; [exact Ht| |exact Hr]. exact Hk1.
    + injection Hr as <-. eapply fail_kept; eauto.
Qed.

Lemma emit_body_kept event args w w' :
  kept P w -> emit_body body emit_rec event args w = Some w' -> kept P w'.
Proof.
  unfold emit_body. intros Hk He. cbv zeta in He.
  set (k := List.length (emitted w)) in *.
  assert (Hk0 : kept P (record_emit event args w)).
  { destruct Hk as [[H1 H2] HP]. split; [split|]; auto. }
  set (w0 := record_emit event args w) in *. clearbody w0.
  destruct (if wildcardEnabled (hub w0) then _ else Some w0)
    as [w1|] eqn:Ew; [|discriminate].
  assert (Hk1 : kept P w1).
  { destruct (wildcardEnabled (hub w0)); [|now injection Ew as <-].
    unfold processWildcardListeners in Ew.
    destruct (Nat.eqb (List.length (wildcardListeners (hub w0))) 0);
      [now injection Ew as <-|].
    eapply fanout_kept; [| |exact Ew]; [intros H; discriminate H|].
    destruct Hk0 as [[H1 H2] HP]. split; [split|]; auto. }
  unfold processSpecificListeners in He.
  destruct (JsMap.get event (events (hub w1))) as [ls|] eqn:Eg;
    [|now injection He as <-].
  eapply fanout_kept; [| |exact He].
  - intros _ ->. destruct Hk1 as [[(_ & _ & Hstar & _) _] _].
    unfold JsMap.has in Hstar. now rewrite Eg in Hstar.
  - destruct Hk1 as [[H1 H2] HP]. split; [split|]; auto.
Qed.

End OneLevel.

Lemma emit_kept fuel : forall event args w w',
  kept P w -> emit body fuel event args w = Some w' -> kept P w'.
Proof.
  induction fuel as [|fuel IH]; simpl; intros event args w w' Hk He.
  - discriminate.
  - eapply emit_body_kept; eauto.
Qed.

(** A step of the dispatcher: the property must also be kept by the calls
    of a client outside any handler and by the removal of a parked
    fan-out from the list. *)
Hypothesis P_client_cmd : forall c w, world_ok w -> P w -> P (apply_cmd c w).

Hypothesis P_unpark : forall i w, P w -> P (unpark i w).

Lemma step_kept fuel a w w' :
  kept P w -> step body fuel a w = Some w' -> kept P w'.
Proof.
  intros Hk Hs. destruct a as [c|i s]; simpl in Hs.
  - destruct (run_cmd_cases (emit body fuel) c w) as [(e & a & -> & E)|E];
      rewrite E in Hs.
    + eapply emit_kept; eauto.
    + injection Hs as <-. destruct Hk. split;
        [now apply world_ok_apply_cmd | now apply P_client_cmd].
  - destruct (nth_error (parked w) i) as [t|] eqn:En; [|discriminate].
    eapply resume_kept; [apply emit_kept| | |exact Hs].
    + destruct Hk as [[_ Hp] _]. rewrite Forall_forall in Hp.
      apply Hp. eapply nth_error_In; eauto.
    + destruct Hk. split; [now apply world_ok_unpark | now apply P_unpark].
Qed.

Variable options : EventHubOptions.

Hypothesis P_construct : P (construct options).

Lemma reachable_kept w : reachable body options w -> kept P w.
Proof.
  induction 1 as [|w fuel a w' Hr IH Hs].
  - split; [apply world_ok_construct | apply P_construct].
  - eapply step_kept; eauto.
Qed.

End Preservation.

(* ================================================================== *)
(** * The configuration is fixed at construction *)

Lemma switches_log m lvl w : switches (log m lvl w) = switches w.
Proof. unfold log. now destruct (debugMode (hub w)). Qed.

Lemma switches_addListener event h o ctx p w :
  switches (addListener event h o ctx p w) = switches w.
Proof.
  unfold addListener.
  destruct (String.eqb event wildcard_token && negb (wildcardEnabled (hub w)));
    [reflexivity|].
  set (w1 := if Z.geb _ _ then _ else w).
  assert (Hh : hub w1 = hub w).
  { subst w1. destruct (Z.geb _ _); auto. unfold log.
    destruct (debugMode (hub w)); auto. }
  clearbody w1.
  destruct (String.eqb event wildcard_token); unfold switches; simpl;
    now rewrite Hh.
Qed.

Lemma switches_off event h w : switches (off event h w) = switches w.
Proof.
  unfold off. destruct event as [event|]; [|reflexivity].
  destruct (String.eqb event wildcard_token && wildcardEnabled (hub w));
    destruct h; try reflexivity.
  now destruct (JsMap.get event (events (hub w))).
Qed.

Lemma switches_apply_cmd c w : switches (apply_cmd c w) = switches w.
Proof.
  destruct c; simpl; auto using switches_off; apply switches_addListener.
Qed.

Lemma switches_removeOnce kind event l w :
  switches (removeOnce kind event l w) = switches w.
Proof. unfold removeOnce. destruct (once l); [destruct kind|]; reflexivity. Qed.

Lemma reachable_world_ok body options w :
  reachable body options w -> world_ok w.
Proof.
  intros H.
  apply (@reachable_kept body (fun _ => True)) in H; [exact (proj1 H)|..]; auto.
Qed.

Lemma reachable_switches body options w :
  reachable body options w -> switches w = switches (construct options).
Proof.
  intros H.
  apply (@reachable_kept body
           (fun w => switches w = switches (construct options))) in H;
    [exact (proj2 H)|..]; intros;
    rewrite ?switches_apply_cmd, ?switches_log, ?switches_removeOnce;
    try assumption; reflexivity.
Qed.

(* ================================================================== *)
(** * Registration and removal *)

Lemma listenerCount_sequence event w :
  listenerCount event w = List.length (sequence_of event w).
Proof.
  unfold listenerCount, sequence_of.
  destruct (String.eqb event wildcard_token && wildcardEnabled (hub w)); auto.
  now destruct (JsMap.get event (events (hub w))).
Qed.

(** [addListener] past the wildcard gate, whatever the listener count. *)
Lemma addListener_sequence event h o ctx p w :
  String.eqb event wildcard_token && negb (wildcardEnabled (hub w)) = false ->
  sequence_of event (addListener event h o ctx p w) =
  insertListenerByPriority (sequence_of event w)
                           (mkListener (next_id w) h o p ctx).
Proof.
  intros Hgate. unfold addListener. rewrite Hgate.
  set (w1 := if Z.geb _ _ then _ else w).
  assert (Hh : hub w1 = hub w /\ next_id w1 = next_id w).
  { subst w1. destruct (Z.geb _ _); auto. unfold log.
    destruct (debugMode (hub w)); auto. }
  clearbody w1. destruct Hh as [Hh Hn]. rewrite Hn.
  unfold sequence_of.
  destruct (String.eqb event wildcard_token) eqn:Etok; simpl in *.
  - rewrite Hh. destruct (wildcardEnabled (hub w)); [reflexivity|discriminate].
  - rewrite Hh.
    destruct (JsMap.has event (events (hub w))) eqn:Ehas.
    + now rewrite JsMapFacts.get_set_same.
    + rewrite !JsMapFacts.get_set_same. simpl.
      unfold JsMap.has in Ehas.
      now destruct (JsMap.get event (events (hub w))).
Qed.

Lemma addListener_gate event h o ctx p w :
  String.eqb event wildcard_token && negb (wildcardEnabled (hub w)) = true ->
  addListener event h o ctx p w = w.
Proof. intros Hgate. unfold addListener. now rewrite Hgate. Qed.

(** The registry after a registration does not depend on the limit. *)
Lemma addListener_any_limit n event h o ctx p w :
  let w1 := addListener event h o ctx p w in
  let w2 := addListener event h o ctx p (setMaxListeners n w) in
  events (hub w2) = events (hub w1) /\
  wildcardListeners (hub w2) = wildcardListeners (hub w1) /\
  next_id w2 = next_id w1.
Proof.
  unfold addListener, setMaxListeners, getTotalListenerCount, log. simpl.
  destruct (String.eqb event wildcard_token && negb (wildcardEnabled (hub w)));
    [simpl; auto|].
  destruct (Z.geb _ n); destruct (Z.geb _ (maxListeners (hub w)));
    destruct (debugMode (hub w));
    destruct (String.eqb event wildcard_token); simpl; auto.
Qed.

(** C7: the listener limit is advisory.  When the total listener count is
    at or above [maxListeners], a registration with [on] or [once] leaves
    the registry that it leaves under any other limit; unless it is the
    wildcard registration on a dispatcher whose wildcard support is off
    (the no-op of [wildcard_disabled_noop]), it inserts its record at the
    place its priority gives it, and [listenerCount] counts one more
    listener. *)
Theorem max_listeners_never_blocks :
  forall (one_shot : bool) event h ctx p w,
    (maxListeners (hub w) <= Z.of_nat (getTotalListenerCount w))%Z ->
    let register := if one_shot then once_ else on in
    let w' := register event h ctx p w in
    let record := mkListener (next_id w) h one_shot (orElse p 0%Z) ctx in
    (forall n,
       events (hub (register event h ctx p (setMaxListeners n w))) =
         events (hub w') /\
       wildcardListeners (hub (register event h ctx p (setMaxListeners n w))) =
         wildcardListeners (hub w')) /\
    (String.eqb event wildcard_token && negb (wildcardEnabled (hub w)) = false ->
     sequence_of event w' =
       insertListenerByPriority (sequence_of event w) record /\
     In record (sequence_of event w') /\
     listenerCount event w' = S (listenerCount event w)).
Proof.
  intros one_shot event h ctx p w _ register w' record. split.
  - intros n. subst w' register.
    destruct (addListener_any_limit n event h one_shot ctx (orElse p 0%Z) w)
      as (H1 & H2 & _).
    destruct one_shot; unfold once_, on; auto.
  - intros Hgate.
    assert (Hseq : sequence_of event w' =
                   insertListenerByPriority (sequence_of event w) record).
    { subst w' register record. destruct one_shot; unfold once_, on;
        now apply addListener_sequence. }
    split; [exact Hseq|]. split.
    + rewrite Hseq. apply in_insert. now left.
    + rewrite !listenerCount_sequence, Hseq. apply length_insert.
Qed.

(** C9: [off(e, h)] keeps, in their order, exactly the records of the
    sequence of [e] whose handler is not [h]; the sequence of every other
    event name is unchanged, and so are the wildcard list (unless [e] is
    the wildcard token of a dispatcher with wildcard support, whose sequence
    it is) and the named events (when it is). *)
Theorem off_removes_exactly_handler :
  forall e h w,
    let w' := off (Some e) (Some h) w in
    sequence_of e w' =
      filter (fun l => negb (Nat.eqb (handler l) h)) (sequence_of e w) /\
    (forall e', e' <> e ->
       JsMap.get e' (events (hub w')) = JsMap.get e' (events (hub w))) /\
    (String.eqb e wildcard_token && wildcardEnabled (hub w) = false ->
       wildcardListeners (hub w') = wildcardListeners (hub w)) /\
    (String.eqb e wildcard_token && wildcardEnabled (hub w) = true ->
       events (hub w') = events (hub w)).
Proof.
  intros e h w w'. subst w'. unfold off, sequence_of.
  destruct (String.eqb e wildcard_token && wildcardEnabled (hub w)) eqn:Egate;
    simpl.
  - rewrite Egate. repeat split; auto; discriminate.
  - destruct (JsMap.get e (events (hub w))) as [ls|] eqn:Eg; simpl.
    + rewrite Egate, JsMapFacts.get_set_same. simpl.
      repeat split; auto; try discriminate.
      intros e' Hne. now apply JsMapFacts.get_set_other.
    + rewrite Egate, Eg. simpl. repeat split; auto; discriminate.
Qed.

(** C8: on a dispatcher built with wildcard support off, [on('*', h)] and
    [once('*', h)] change nothing at all, and [hasEvent('*')] is false. *)
Theorem wildcard_disabled_noop :
  forall body options w,
    opt_wildcard options = Some false ->
    reachable body options w ->
    hasEvent wildcard_token w = false /\
    forall h ctx p,
      on wildcard_token h ctx p w = w /\ once_ wildcard_token h ctx p w = w.
Proof.
  intros body options w Hopt Hr.
  assert (Hen : wildcardEnabled (hub w) = false).
  { apply reachable_switches in Hr. unfold switches, construct in Hr.
    simpl in Hr. rewrite Hopt in Hr. simpl in Hr. congruence. }
  apply reachable_world_ok in Hr. destruct Hr as [(_ & _ & Hstar & _) _].
  split.
  - unfold hasEvent. rewrite Hen, andb_false_r. exact Hstar.
  - intros h ctx p. unfold on, once_.
    split; apply addListener_gate; now rewrite Hen.
Qed.

Lemma registry_ok_sorted w : registry_ok w -> registry_sorted w.
Proof.
  intros ([Hw _] & Hev & _). split; [exact Hw|].
  intros e ls Hg. eapply (Forall_values_get _ _ Hev) in Hg. exact (proj1 Hg).
Qed.

(** C3: in every world a dispatcher can reach, every listener sequence (the
    one of each named event and the wildcard list) is sorted by descending
    priority with records of equal priority in registration order, and it
    stays so after every step: a call of [on], [once], [off], [emit] (with
    its one-shot removals and the calls its handlers make), [reset] or
    [setMaxListeners], or the resumption of a parked fan-out. *)
Theorem registry_sorted_invariant :
  forall body options w,
    reachable body options w ->
    registry_sorted w /\
    forall fuel a w', step body fuel a w = Some w' -> registry_sorted w'.
Proof.
  intros body options w Hr. split.
  - apply registry_ok_sorted. now apply reachable_world_ok in Hr as [H _].
  - intros fuel a w' Hs. apply registry_ok_sorted.
    assert (Hr' : reachable body options w') by (econstructor; eauto).
    now apply reachable_world_ok in Hr' as [H _].
Qed.

(* ================================================================== *)
(** * The keys of the registry *)

Lemma has_log e m lvl w :
  JsMap.has e (events (hub (log m lvl w))) = JsMap.has e (events (hub w)).
Proof. unfold log. now destruct (debugMode (hub w)). Qed.

Lemma has_addListener e event h o ctx p w :
  JsMap.has e (events (hub w)) = true ->
  JsMap.has e (events (hub (addListener event h o ctx p w))) = true.
Proof.
  intros Hhas. unfold addListener.
  destruct (String.eqb event wildcard_token && negb (wildcardEnabled (hub w)));
    [exact Hhas|].
  set (w1 := if Z.geb _ _ then _ else w).
  assert (Hh : hub w1 = hub w).
  { subst w1. destruct (Z.geb _ _); auto. unfold log.
    destruct (debugMode (hub w)); auto. }
  clearbody w1.
  destruct (String.eqb event wildcard_token); simpl; rewrite Hh; auto.
  destruct (String.eqb e event) eqn:E.
  - apply String.eqb_eq in E. subst. apply JsMapFacts.has_set_same.
  - apply String.eqb_neq in E. rewrite JsMapFacts.has_set_other; auto.
    destruct (JsMap.has event (events (hub w))); auto.
    rewrite JsMapFacts.has_set_other; auto.
Qed.

Lemma has_set_kept e event (v : list Listener) m :
  JsMap.has e m = true -> JsMap.has e (JsMap.set event v m) = true.
Proof.
  intros H. destruct (String.eqb e event) eqn:E.
  - apply String.eqb_eq in E. subst. apply JsMapFacts.has_set_same.
  - apply String.eqb_neq in E. now rewrite JsMapFacts.has_set_other.
Qed.

Lemma has_apply_cmd e c w :
  removes_key e c = false ->
  JsMap.has e (events (hub w)) = true ->
  JsMap.has e (events (hub (apply_cmd c w))) = true.
Proof.
  intros Hc Hhas. destruct c as [ev h ctx p|ev h ctx p|ev h|ev a| |n];
    simpl in *; auto using has_addListener; try discriminate.
  - unfold on. now apply has_addListener.
  - unfold once_. now apply has_addListener.
  - unfold off. destruct ev as [ev|]; [|discriminate].
    destruct (String.eqb ev wildcard_token && wildcardEnabled (hub w));
      [now destruct h|].
    destruct h as [h|].
    + destruct (JsMap.get ev (events (hub w))); simpl; auto.
      now apply has_set_kept.
    + simpl. apply String.eqb_neq in Hc.
      rewrite JsMapFacts.has_delete_other; auto.
Qed.

Lemma has_removeOnce e kind event l w :
  JsMap.has e (events (hub w)) = true ->
  JsMap.has e (events (hub (removeOnce kind event l w))) = true.
Proof.
  intros H. unfold removeOnce. destruct (once l); auto.
  destruct kind; simpl; auto. now apply has_set_kept.
Qed.

Lemma key_named e w :
  registry_ok w -> JsMap.has e (events (hub w)) = true -> named_event e w.
Proof.
  intros (_ & _ & Hstar & _) Hhas. unfold named_event.
  destruct (String.eqb e wildcard_token) eqn:E; [|reflexivity].
  apply String.eqb_eq in E. subst e. congruence.
Qed.

Lemma named_event_apply_cmd e c w :
  named_event e w -> named_event e (apply_cmd c w).
Proof.
  unfold named_event. pose proof (switches_apply_cmd c w) as H.
  unfold switches in H. injection H as H _ _ _. now rewrite H.
Qed.

Lemma hasEvent_named e w :
  named_event e w -> hasEvent e w = JsMap.has e (events (hub w)).
Proof. unfold named_event, hasEvent. now intros ->. Qed.

(** C6, as the code has it: the key of a named event outlives its
    listeners, and the wildcard token has no key.  In every world a
    dispatcher can reach, for every event name [e] but the wildcard token
    of a dispatcher with wildcard support: when [off(e, h)] removes the
    last records of [e], and when the one-shot removal of a dispatch does,
    the key of [e] remains: [hasEvent(e)] is still true and [eventNames()]
    still lists [e] while [listenerCount(e)] is 0; a key survives every
    call but [off(e)], [off()] and [reset()], which delete it, and every
    dispatch whose handlers make none of these three calls.  With wildcard
    support the listeners of the wildcard token are in the wildcard list
    and not under a key: [eventNames()] never lists the token, and when
    [off('*', h)] removes the last of them [hasEvent('*')] is false. *)
Theorem emptied_event_key_remains :
  forall body options w e,
    reachable body options w ->
    (named_event e w ->
     (forall h,
        0 < listenerCount e w ->
        Forall (fun l => handler l = h) (sequence_of e w) ->
        let w' := off (Some e) (Some h) w in
        hasEvent e w' = true /\ In e (eventNames w') /\
        listenerCount e w' = 0) /\
     (forall l,
        sequence_of e w = [l] -> once l = true ->
        let w' := removeOnce Specific e l w in
        hasEvent e w' = true /\ In e (eventNames w') /\
        listenerCount e w' = 0) /\
     (forall c,
        hasEvent e w = true ->
        hasEvent e (apply_cmd c w) = negb (removes_key e c)) /\
     (forall fuel event args w',
        (forall h w0 this a c,
           In c (calls (body h w0 this a)) -> removes_key e c = false) ->
        hasEvent e w = true ->
        emit body fuel event args w = Some w' ->
        hasEvent e w' = true)) /\
    (wildcardEnabled (hub w) = true ->
     ~ In wildcard_token (eventNames w) /\
     forall h,
       Forall (fun l => handler l = h) (wildcardListeners (hub w)) ->
       let w' := off (Some wildcard_token) (Some h) w in
       listenerCount wildcard_token w' = 0 /\
       hasEvent wildcard_token w' = false /\
       ~ In wildcard_token (eventNames w')).
Proof.
  intros body options w e Hr.
  pose proof (reachable_switches Hr) as Hsw.
  apply reachable_world_ok in Hr.
  assert (Hfilter : forall h ls,
            Forall (fun l => handler l = h) ls ->
            filter (other_handler h) ls = []).
  { intros h ls Hall. induction Hall as [|l ls Hl _ IH]; simpl; auto.
    unfold other_handler at 1. rewrite Hl, Nat.eqb_refl. exact IH. }
  split.
  - intros Hn. pose proof Hn as Hn'. unfold named_event in Hn'.
    split; [|split; [|split]].
    + intros h Hpos Hall w'. subst w'.
      unfold listenerCount in Hpos. unfold sequence_of in Hall.
      rewrite Hn' in Hpos, Hall.
      destruct (JsMap.get e (events (hub w))) as [ls|] eqn:Hg; [|lia].
      simpl in Hall.
      unfold hasEvent, eventNames, listenerCount, off. rewrite Hn', Hg. simpl.
      rewrite Hn'. rewrite <- JsMapFacts.has_keys.
      rewrite JsMapFacts.has_set_same, JsMapFacts.get_set_same.
      repeat split; auto. now rewrite (Hfilter h ls Hall).
    + intros l Hseq Honce w'. subst w'.
      unfold sequence_of in Hseq. rewrite Hn' in Hseq.
      destruct (JsMap.get e (events (hub w))) as [ls|] eqn:Hg;
        simpl in Hseq; [subst ls|discriminate].
      unfold hasEvent, eventNames, listenerCount, removeOnce.
      rewrite Honce. simpl. rewrite Hn'. rewrite <- JsMapFacts.has_keys.
      rewrite JsMapFacts.has_set_same, JsMapFacts.get_set_same, Hg. simpl.
      unfold same_listener. rewrite Nat.eqb_refl. simpl. auto.
    + intros c Hhas.
      rewrite (hasEvent_named (named_event_apply_cmd c Hn)).
      rewrite (hasEvent_named Hn) in Hhas.
      destruct (removes_key e c) eqn:Hc; simpl.
      * destruct c as [ev h ctx p|ev h ctx p|ev h|ev a| |n]; simpl in Hc;
          try discriminate.
        { destruct ev as [ev|]; [|reflexivity].
          destruct h; [discriminate|]. apply String.eqb_eq in Hc. subst ev.
          simpl. unfold off. rewrite Hn'. simpl.
          apply JsMapFacts.has_delete_same. }
        { reflexivity. }
      * now apply has_apply_cmd.
    + intros fuel event args w' Hbody Hhas He.
      rewrite (hasEvent_named Hn) in Hhas.
      assert (Hr' : kept (fun w0 => JsMap.has e (events (hub w0)) = true /\
                                  switches w0 = switches w) w').
      { eapply (@emit_kept body
                  (fun w0 => JsMap.has e (events (hub w0)) = true /\
                             switches w0 = switches w));
          [| | | | | | | | |exact He]; try (intros; assumption).
        - intros h w0 this a c w1 Hin _ [H1 H2]. split.
          + rewrite has_apply_cmd; eauto.
          + now rewrite switches_apply_cmd.
        - intros m lvl w1 _ [H1 H2]. split;
            [now rewrite has_log | now rewrite switches_log].
        - intros kind ev l w1 Hne _ [H1 H2]. split;
            [now apply has_removeOnce | now rewrite switches_removeOnce].
        - split; auto. }
      destruct Hr' as [_ [H1 H2]]. unfold hasEvent.
      unfold switches in H2. injection H2 as H2 _ _ _.
      now rewrite H2, Hn'.
  - intros Hen. destruct Hr as [(_ & _ & Hstar & _) _].
    assert (Hnot : ~ In wildcard_token (eventNames w)).
    { intros Hin. apply JsMapFacts.has_keys in Hin. congruence. }
    split; [exact Hnot|]. intros h Hall w'. subst w'.
    unfold listenerCount, hasEvent, eventNames, off.
    rewrite String.eqb_refl, Hen. simpl. rewrite Hen. simpl.
    rewrite (Hfilter h _ Hall). simpl. repeat split; auto.
Qed.

(* ================================================================== *)
(** * The history of a dispatch *)

Lemma same_fanout_true k kind k' kind' :
  same_fanout k kind k' kind' = true <-> k' = k /\ kind' = kind.
Proof.
  unfold same_fanout. rewrite andb_true_iff, Nat.eqb_eq.
  destruct kind, kind'; simpl; intuition discriminate.
Qed.

Lemma same_fanout_other k kind k' kind' :
  k' <> k -> same_fanout k kind k' kind' = false.
Proof.
  intros H. unfold same_fanout. apply Nat.eqb_neq in H. now rewrite H.
Qed.

Lemma invoked_app k kind tr1 tr2 :
  invoked k kind (tr1 ++ tr2) = invoked k kind tr1 ++ invoked k kind tr2.
Proof. unfold invoked. now rewrite filter_app, map_app. Qed.

Lemma waiting_app k kind ts1 ts2 :
  waiting k kind (ts1 ++ ts2) = waiting k kind ts1 ++ waiting k kind ts2.
Proof. unfold waiting. now rewrite filter_app, flat_map_app. Qed.

Lemma abandoned_app k kind fs1 fs2 :
  abandoned k kind (fs1 ++ fs2) =
  abandoned k kind fs1 ++ abandoned k kind fs2.
Proof. unfold abandoned. now rewrite filter_app, flat_map_app. Qed.

Lemma filter_none (A : Type) (p : A -> bool) l :
  (forall x, In x l -> p x = false) -> filter p l = [].
Proof.
  induction l as [|a l IH]; simpl; intros H; auto.
  rewrite (H a) by now left. apply IH. intros x Hx. apply H. now right.
Qed.

Lemma filter_filter_sub (A : Type) (p q : A -> bool) l :
  (forall x, p x = true -> q x = true) ->
  filter p (filter q l) = filter p l.
Proof.
  intros H. induction l as [|a l IH]; simpl; auto.
  destruct (q a) eqn:Eq; simpl.
  - now rewrite IH.
  - destruct (p a) eqn:Ep; auto. apply H in Ep. congruence.
Qed.

Lemma invoked_none k kind tr :
  (forall iv, In iv tr -> iv_emit iv <> k) -> invoked k kind tr = [].
Proof.
  intros H. unfold invoked. rewrite filter_none; auto.
  intros iv Hin. apply same_fanout_other. auto.
Qed.

Lemma waiting_none k kind ts :
  (forall t, In t ts -> t_emit t <> k) -> waiting k kind ts = [].
Proof.
  intros H. unfold waiting. rewrite filter_none; auto.
  intros t Hin. apply same_fanout_other. auto.
Qed.

Lemma abandoned_none k kind fs :
  (forall f, In f fs -> fl_emit f <> k) -> abandoned k kind fs = [].
Proof.
  intros H. unfold abandoned. rewrite filter_none; auto.
  intros f Hin. apply same_fanout_other. auto.
Qed.

Lemma extends_trans w d1 w1 d2 w2 :
  extends w d1 w1 -> extends w1 d2 w2 -> extends w (d_app d1 d2) w2.
Proof.
  intros (A1 & A2 & A3 & A4 & A5) (B1 & B2 & B3 & B4 & B5).
  unfold extends, d_app; simpl.
  rewrite B1, B2, B3, B4, B5, A1, A2, A3, A4, A5. now rewrite !app_assoc.
Qed.

Lemma extends_length w d w' :
  extends w d w' ->
  List.length (emitted w') = List.length (emitted w) + List.length (d_emitted d).
Proof. intros (A1 & _). rewrite A1. apply length_app. Qed.

Lemma of_call_none (A : Type) (id : A -> nat) k l :
  (forall x, In x l -> id x <> k) -> of_call id k l = [].
Proof.
  intros H. unfold of_call. apply filter_none. intros x Hx.
  apply Nat.eqb_neq. auto.
Qed.

Lemma delta_ok_nil k n : k < n -> delta_ok k n d_nil [] [] [] [].
Proof.
  intros Hk. constructor; simpl; auto.
  unfold nested_ok; simpl. repeat split; auto; contradiction.
Qed.

Lemma closed_delta_ok k n d :
  k < n -> closed n d -> delta_ok k n d [] [] [] [].
Proof.
  intros Hk (Ht & Hp & Hs & Hf & Hn).
  constructor; auto.
  - eapply Forall_impl; [|exact Ht]. auto.
  - eapply Forall_impl; [|exact Hp]. auto.
  - eapply Forall_impl; [|exact Hs]. auto.
  - eapply Forall_impl; [|exact Hf]. auto.
  - apply of_call_none. intros iv Hiv. rewrite Forall_forall in Ht.
    apply Ht in Hiv. unfold in_range in Hiv. lia.
  - apply of_call_none. intros t Hin. rewrite Forall_forall in Hp.
    apply Hp in Hin. unfold in_range in Hin. lia.
  - apply of_call_none. intros fs Hin. rewrite Forall_forall in Hs.
    apply Hs in Hin. unfold in_range in Hin. lia.
  - apply of_call_none. intros f Hin. rewrite Forall_forall in Hf.
    apply Hf in Hin. unfold in_range in Hin. lia.
Qed.

Lemma delta_ok_call k n iv :
  k < n -> iv_emit iv = k ->
  delta_ok k n (mkDelta [] [] [iv] [] []) [] [iv] [] [].
Proof.
  intros Hk Hown. constructor; simpl; auto.
  - unfold of_call; simpl. apply Nat.eqb_eq in Hown. now rewrite Hown.
  - unfold nested_ok; simpl. repeat split; auto; try contradiction.
    intros iv' [<-|[]] Hn. lia.
Qed.

Lemma delta_ok_park k n t :
  k < n -> t_emit t = k ->
  delta_ok k n (mkDelta [] [] [] [t] []) [] [] [t] [].
Proof.
  intros Hk Hown. constructor; simpl; auto.
  - unfold of_call; simpl. apply Nat.eqb_eq in Hown. now rewrite Hown.
  - unfold nested_ok; simpl. repeat split; auto; try contradiction.
    + intros t' [<-|[]] Hn. lia.
    + intros k' kind' Hn. destruct (tag_task k' kind' t); simpl; lia.
Qed.

Lemma delta_ok_fail k n f :
  k < n -> fl_emit f = k ->
  delta_ok k n (mkDelta [] [] [] [] [f]) [] [] [] [f].
Proof.
  intros Hk Hown. constructor; simpl; auto.
  - unfold of_call; simpl. apply Nat.eqb_eq in Hown. now rewrite Hown.
  - unfold nested_ok; simpl. repeat split; auto; try contradiction.
    intros k' kind' Hn. destruct (tag_failure k' kind' f); simpl; lia.
Qed.

Lemma delta_ok_start k n fs :
  k < n -> fs_emit fs = k ->
  delta_ok k n (mkDelta [] [fs] [] [] []) [fs] [] [] [].
Proof.
  intros Hk Hown. constructor; simpl; auto.
  - unfold of_call; simpl. apply Nat.eqb_eq in Hown. now rewrite Hown.
  - unfold nested_ok; simpl.
    split; [|repeat split; auto; contradiction].
    intros fs' [<-|[]] Hn. lia.
Qed.

(** Two additions, one after the other: the first has nothing of the
    calls numbered from [n + e1] on, the second nothing of the calls
    numbered from [n] to [n + e1 - 1]. *)
Lemma nested_ok_app n d1 d2 :
  let e1 := List.length (d_emitted d1) in
  (forall iv, In iv (d_trace d1) -> iv_emit iv < n + e1) ->
  (forall t, In t (d_parked d1) -> t_emit t < n + e1) ->
  (forall fs, In fs (d_started d1) -> fs_emit fs < n + e1) ->
  (forall f, In f (d_failed d1) -> fl_emit f < n + e1) ->
  (forall iv, In iv (d_trace d2) -> iv_emit iv < n \/ n + e1 <= iv_emit iv) ->
  (forall t, In t (d_parked d2) -> t_emit t < n \/ n + e1 <= t_emit t) ->
  (forall fs, In fs (d_started d2) -> fs_emit fs < n \/ n + e1 <= fs_emit fs) ->
  (forall f, In f (d_failed d2) -> fl_emit f < n \/ n + e1 <= fl_emit f) ->
  nested_ok n d1 -> nested_ok (n + e1) d2 -> nested_ok n (d_app d1 d2).
Proof.
  intros e1 Ht1 Hp1 Hs1 Hf1 Ht2 Hp2 Hs2 Hf2 (G1a & G1b & G1c & G1d)
         (G2a & G2b & G2c & G2d).
  unfold nested_ok. split; [|split; [|split]].
  - intros fs Hin Hn. simpl in *.
    rewrite invoked_app, waiting_app, abandoned_app.
    apply in_app_or in Hin. destruct Hin as [Hin|Hin].
    + destruct (G1a fs Hin Hn) as [Hsnap Hsort]. split; [|exact Hsort].
      specialize (Hs1 fs Hin).
      rewrite (invoked_none _ (d_trace d2)), (waiting_none _ (d_parked d2)),
        (abandoned_none _ (d_failed d2)).
      { now rewrite !app_nil_r. }
      { intros f Hf. destruct (Hf2 f Hf); lia. }
      { intros t Ht. destruct (Hp2 t Ht); lia. }
      { intros iv Hiv. destruct (Ht2 iv Hiv); lia. }
    + destruct (Hs2 fs Hin) as [Ho|Hr]; [lia|].
      destruct (G2a fs Hin) as [Hsnap Hsort]; [lia|]. split; [|exact Hsort].
      rewrite (invoked_none _ (d_trace d1)), (waiting_none _ (d_parked d1)),
        (abandoned_none _ (d_failed d1)).
      { exact Hsnap. }
      { intros f Hf. specialize (Hf1 f Hf). lia. }
      { intros t Ht. specialize (Hp1 t Ht). lia. }
      { intros iv Hiv. specialize (Ht1 iv Hiv). lia. }
  - intros t Hin Hn. simpl in *. apply in_app_or in Hin.
    destruct Hin as [Hin|Hin].
    + specialize (Hp1 t Hin).
      rewrite nth_error_app1 by (fold e1; lia). now apply G1b.
    + destruct (Hp2 t Hin) as [Ho|Hr]; [lia|].
      rewrite nth_error_app2 by (fold e1; lia). fold e1.
      replace (t_emit t - n - e1) with (t_emit t - (n + e1)) by lia.
      apply G2b; auto.
  - intros iv Hin Hn. simpl in *. apply in_app_or in Hin.
    destruct Hin as [Hin|Hin].
    + specialize (Ht1 iv Hin).
      rewrite nth_error_app1 by (fold e1; lia). now apply G1c.
    + destruct (Ht2 iv Hin) as [Ho|Hr]; [lia|].
      rewrite nth_error_app2 by (fold e1; lia). fold e1.
      replace (iv_emit iv - n - e1) with (iv_emit iv - (n + e1)) by lia.
      apply G2c; auto.
  - intros k' kind' Hn. simpl. rewrite !filter_app, !length_app.
    destruct (Nat.lt_ge_cases k' (n + e1)) as [Hlt|Hge].
    + rewrite (filter_none (tag_task k' kind') (d_parked d2)),
        (filter_none (tag_failure k' kind') (d_failed d2)).
      { simpl. rewrite !Nat.add_0_r. now apply G1d. }
      { intros f Hf. apply same_fanout_other. destruct (Hf2 f Hf); lia. }
      { intros t Ht. apply same_fanout_other. destruct (Hp2 t Ht); lia. }
    + rewrite (filter_none (tag_task k' kind') (d_parked d1)),
        (filter_none (tag_failure k' kind') (d_failed d1)).
      { simpl. apply G2d. lia. }
      { intros f Hf. apply same_fanout_other. specialize (Hf1 f Hf). lia. }
      { intros t Ht. apply same_fanout_other. specialize (Hp1 t Ht). lia. }
Qed.

(** Two pieces of the same [emit] call, one after the other. *)
Lemma delta_ok_app k n d1 s1 m1 t1 f1 d2 s2 m2 t2 f2 :
  delta_ok k n d1 s1 m1 t1 f1 ->
  delta_ok k (n + List.length (d_emitted d1)) d2 s2 m2 t2 f2 ->
  delta_ok k n (d_app d1 d2) (s1 ++ s2) (m1 ++ m2) (t1 ++ t2) (f1 ++ f2).
Proof.
  intros [Hk Ht1 Hp1 Hs1 Hf1 Hm1 Hmt1 Hms1 Hmf1 G1]
         [_ Ht2 Hp2 Hs2 Hf2 Hm2 Hmt2 Hms2 Hmf2 G2].
  set (e1 := List.length (d_emitted d1)) in *.
  set (e2 := List.length (d_emitted d2)).
  rewrite Forall_forall in Ht1, Ht2, Hp1, Hp2, Hs1, Hs2, Hf1, Hf2.
  unfold in_range in *. fold e1 in Ht1, Hp1, Hs1, Hf1.
  fold e2 in Ht2, Hp2, Hs2, Hf2.
  assert (Hlen : List.length (d_emitted (d_app d1 d2)) = e1 + e2).
  { unfold d_app; simpl. apply length_app. }
  constructor; auto.
  - apply Forall_forall. intros iv Hin. unfold in_range. rewrite Hlen.
    simpl in Hin. apply in_app_or in Hin. destruct Hin as [Hin|Hin].
    + destruct (Ht1 iv Hin); [now left | right; lia].
    + destruct (Ht2 iv Hin); [now left | right; lia].
  - apply Forall_forall. intros t Hin. unfold in_range. rewrite Hlen.
    simpl in Hin. apply in_app_or in Hin. destruct Hin as [Hin|Hin].
    + destruct (Hp1 t Hin); [now left | right; lia].
    + destruct (Hp2 t Hin); [now left | right; lia].
  - apply Forall_forall. intros fs Hin. unfold in_range. rewrite Hlen.
    simpl in Hin. apply in_app_or in Hin. destruct Hin as [Hin|Hin].
    + destruct (Hs1 fs Hin); [now left | right; lia].
    + destruct (Hs2 fs Hin); [now left | right; lia].
  - apply Forall_forall. intros f Hin. unfold in_range. rewrite Hlen.
    simpl in Hin. apply in_app_or in Hin. destruct Hin as [Hin|Hin].
    + destruct (Hf1 f Hin); [now left | right; lia].
    + destruct (Hf2 f Hin); [now left | right; lia].
  - unfold of_call in *. simpl. rewrite filter_app. now rewrite Hm1, Hm2.
  - unfold of_call in *. simpl. rewrite filter_app. now rewrite Hmt1, Hmt2.
  - unfold of_call in *. simpl. rewrite filter_app. now rewrite Hms1, Hms2.
  - unfold of_call in *. simpl. rewrite filter_app. now rewrite Hmf1, Hmf2.
  - apply nested_ok_app; auto; fold e1.
    + intros iv Hin. destruct (Ht1 iv Hin); lia.
    + intros t Hin. destruct (Hp1 t Hin); lia.
    + intros fs Hin. destruct (Hs1 fs Hin); lia.
    + intros f Hin. destruct (Hf1 f Hin); lia.
    + intros iv Hin. destruct (Ht2 iv Hin); lia.
    + intros t Hin. destruct (Hp2 t Hin); lia.
    + intros fs Hin. destruct (Hs2 fs Hin); lia.
    + intros f Hin. destruct (Hf2 f Hin); lia.
Qed.

(** Two [emit] calls, one after the other. *)
Lemma closed_app n d1 d2 :
  closed n d1 -> closed (n + List.length (d_emitted d1)) d2 ->
  closed n (d_app d1 d2).
Proof.
  intros (Ht1 & Hp1 & Hs1 & Hf1 & G1) (Ht2 & Hp2 & Hs2 & Hf2 & G2).
  set (e1 := List.length (d_emitted d1)) in *.
  rewrite Forall_forall in Ht1, Ht2, Hp1, Hp2, Hs1, Hs2, Hf1, Hf2.
  unfold in_range in *. fold e1 in Ht1, Hp1, Hs1, Hf1.
  assert (Hlen : List.length (d_emitted (d_app d1 d2)) =
                 e1 + List.length (d_emitted d2)).
  { unfold d_app; simpl. apply length_app. }
  unfold closed, in_range. rewrite Hlen. split; [|split; [|split; [|split]]].
  - apply Forall_forall. intros iv Hin.
    simpl in Hin. apply in_app_or in Hin. destruct Hin as [Hin|Hin];
      [specialize (Ht1 iv Hin) | specialize (Ht2 iv Hin)]; lia.
  - apply Forall_forall. intros t Hin.
    simpl in Hin. apply in_app_or in Hin. destruct Hin as [Hin|Hin];
      [specialize (Hp1 t Hin) | specialize (Hp2 t Hin)]; lia.
  - apply Forall_forall. intros fs Hin.
    simpl in Hin. apply in_app_or in Hin. destruct Hin as [Hin|Hin];
      [specialize (Hs1 fs Hin) | specialize (Hs2 fs Hin)]; lia.
  - apply Forall_forall. intros f Hin.
    simpl in Hin. apply in_app_or in Hin. destruct Hin as [Hin|Hin];
      [specialize (Hf1 f Hin) | specialize (Hf2 f Hin)]; lia.
  - apply nested_ok_app; auto; fold e1.
    + intros iv Hin. specialize (Ht1 iv Hin). lia.
    + intros t Hin. specialize (Hp1 t Hin). lia.
    + intros fs Hin. specialize (Hs1 fs Hin). lia.
    + intros f Hin. specialize (Hf1 f Hin). lia.
    + intros iv Hin. specialize (Ht2 iv Hin). lia.
    + intros t Hin. specialize (Hp2 t Hin). lia.
    + intros fs Hin. specialize (Hs2 fs Hin). lia.
    + intros f Hin. specialize (Hf2 f Hin). lia.
Qed.

Lemma history_log m lvl w : history (log m lvl w) = history w.
Proof. unfold log. now destruct (debugMode (hub w)). Qed.

Lemma history_addListener event h o ctx p w :
  history (addListener event h o ctx p w) = history w.
Proof.
  unfold addListener.
  destruct (String.eqb event wildcard_token && negb (wildcardEnabled (hub w)));
    [reflexivity|].
  set (w1 := if Z.geb _ _ then _ else w).
  assert (Hh : history w1 = history w).
  { subst w1. destruct (Z.geb _ _); auto using history_log. }
  clearbody w1. rewrite <- Hh.
  destruct (String.eqb event wildcard_token); reflexivity.
Qed.

Lemma history_off event h w : history (off event h w) = history w.
Proof.
  unfold off. destruct event as [event|]; [|reflexivity].
  destruct (String.eqb event wildcard_token && wildcardEnabled (hub w));
    destruct h; try reflexivity.
  now destruct (JsMap.get event (events (hub w))).
Qed.

Lemma history_apply_cmd c w : history (apply_cmd c w) = history w.
Proof.
  destruct c; simpl; auto using history_off; apply history_addListener.
Qed.

Lemma history_removeOnce kind event l w :
  history (removeOnce kind event l w) = history w.
Proof. unfold removeOnce. destruct (once l); [destruct kind|]; reflexivity. Qed.

Lemma failed_history w w' : history w' = history w -> failed w' = failed w.
Proof. unfold history. now intros [= _ _ _ _ H]. Qed.

Lemma extends_same w w' : history w' = history w -> extends w d_nil w'.
Proof.
  unfold history. intros [= H1 H2 H3 H4 H5]. unfold extends, d_nil; simpl.
  now rewrite !app_nil_r.
Qed.

Lemma piece_same k w w' :
  world_ok w' -> history w' = history w -> k < List.length (emitted w) ->
  piece k w w' [] [] [] [].
Proof.
  intros Hok Hh Hk. split; [exact Hok|]. exists d_nil.
  split; [now apply extends_same | now apply delta_ok_nil].
Qed.

Lemma piece_trans k w w1 w2 s1 m1 t1 f1 s2 m2 t2 f2 :
  piece k w w1 s1 m1 t1 f1 -> piece k w1 w2 s2 m2 t2 f2 ->
  piece k w w2 (s1 ++ s2) (m1 ++ m2) (t1 ++ t2) (f1 ++ f2).
Proof.
  intros (_ & d1 & E1 & D1) (Hok & d2 & E2 & D2).
  split; [exact Hok|]. exists (d_app d1 d2).
  split; [eapply extends_trans; eauto|].
  apply delta_ok_app; auto. now rewrite <- (extends_length E1).
Qed.

Lemma piece_lt k w w' s m t f :
  piece k w w' s m t f -> k < List.length (emitted w').
Proof.
  intros (_ & d & E & D). rewrite (extends_length E).
  pose proof (dk_lt D). lia.
Qed.

Lemma progress_cons k kind event args l ls done mytasks myfails :
  progress k kind event args ls done mytasks myfails ->
  progress k kind event args (l :: ls) (l :: done) mytasks myfails.
Proof.
  intros [(-> & -> & ->)|[(d & l0 & rest & -> & -> & -> & ->)
                         |(rest & error & -> & -> & ->)]].
  - now left.
  - right. left. exists (l :: d), l0, rest. auto.
  - right. right. exists rest, error. auto.
Qed.

Section Pieces.

Variable body : Handler -> World -> Val -> list Val -> Script.

Variable emit_rec : string -> list Val -> World -> option World.

Hypothesis emit_rec_closed : forall e a w w',
  world_ok w -> emit_rec e a w = Some w' ->
  world_ok w' /\
  exists d, extends w d w' /\ closed (List.length (emitted w)) d.

Lemma emit_rec_piece k e a w w' :
  world_ok w -> k < List.length (emitted w) -> emit_rec e a w = Some w' ->
  piece k w w' [] [] [] [].
Proof.
  intros Hok Hk He.
  destruct (emit_rec_closed Hok He) as (Hok' & d & E & C).
  split; [exact Hok'|]. exists d. split; [exact E|].
  now apply closed_delta_ok.
Qed.

Lemma run_cmd_piece k c w w' :
  world_ok w -> k < List.length (emitted w) ->
  run_cmd emit_rec c w = Some w' -> piece k w w' [] [] [] [].
Proof.
  intros Hok Hk Hr.
  destruct (run_cmd_cases emit_rec c w) as [(e & a & -> & E)|E];
    rewrite E in Hr.
  - eapply emit_rec_piece; eauto.
  - injection Hr as <-. apply piece_same; auto.
    + now apply world_ok_apply_cmd.
    + apply history_apply_cmd.
Qed.

Lemma run_calls_piece k cs w w' :
  world_ok w -> k < List.length (emitted w) ->
  run_calls emit_rec cs w = Some w' -> piece k w w' [] [] [] [].
Proof.
  revert w. induction cs as [|c cs IH]; simpl; intros w Hok Hk Hr.
  - injection Hr as <-. now apply piece_same.
  - destruct (run_cmd emit_rec c w) as [w1|] eqn:Ec; [|discriminate].
    assert (P1 : piece k w w1 [] [] [] []) by (eapply run_cmd_piece; eauto).
    pose proof (IH w1 (proj1 P1) (piece_lt P1) Hr) as P2.
    exact (piece_trans P1 P2).
Qed.

Lemma call_handler_piece k kind event args l w w' o :
  world_ok w -> k < List.length (emitted w) ->
  call_handler body emit_rec k kind event args l w = Some (w', o) ->
  piece k w w' [] [invocation k kind event args l] [] [].
Proof.
  unfold call_handler. intros Hok Hk Hc.
  set (iv := invocation k kind event args l) in *.
  destruct (run_calls _ _ _) as [w2|] eqn:Er; [|discriminate].
  injection Hc as <- _.
  assert (P1 : piece k w (record_call iv w) [] [iv] [] []).
  { split; [exact Hok|]. exists (mkDelta [] [] [iv] [] []). split.
    - unfold extends; simpl. now rewrite !app_nil_r.
    - now apply delta_ok_call. }
  assert (P2 : piece k (record_call iv w) w2 [] [] [] []).
  { eapply run_calls_piece; [exact (proj1 P1) | exact (piece_lt P1) | exact Er]. }
  exact (piece_trans P1 P2).
Qed.

Lemma handleError_piece k error event h w c :
  world_ok w -> k < List.length (emitted w) ->
  handleError emit_rec error event h w = Some c ->
  piece k w (world_of c) [] [] [] [].
Proof.
  unfold handleError. intros Hok Hk He.
  destruct (JsMap.has error_event (events (hub w))).
  - destruct (emit_rec _ _ _) as [w1|] eqn:Ee; [|discriminate].
    injection He as <-. eapply emit_rec_piece; eauto.
  - destruct (stringifiable error); injection He as <-;
      apply piece_same; auto.
    + now apply world_ok_log.
    + apply history_log.
Qed.

Lemma removeOnce_piece k kind event l w :
  (kind = Specific -> event <> wildcard_token) ->
  world_ok w -> k < List.length (emitted w) ->
  piece k w (removeOnce kind event l w) [] [] [] [].
Proof.
  intros Hne Hok Hk. apply piece_same; auto.
  - now apply world_ok_removeOnce.
  - apply history_removeOnce.
Qed.

Lemma park_piece k t w :
  task_ok t -> t_emit t = k -> world_ok w -> k < List.length (emitted w) ->
  piece k w (park t w) [] [] [t] [].
Proof.
  intros Ht Hown Hok Hk. split; [now apply world_ok_park|].
  exists (mkDelta [] [] [] [t] []). split.
  - unfold extends; simpl. now rewrite !app_nil_r.
  - now apply delta_ok_park.
Qed.

Lemma fail_piece k f w :
  fl_emit f = k -> world_ok w -> k < List.length (emitted w) ->
  piece k w (fail f w) [] [] [] [f].
Proof.
  intros Hown Hok Hk. split; [now apply world_ok_fail|].
  exists (mkDelta [] [] [] [] [f]). split.
  - unfold extends; simpl. now rewrite !app_nil_r.
  - now apply delta_ok_fail.
Qed.

Lemma fanout_piece k kind event args ls : forall w w',
  (kind = Specific -> event <> wildcard_token) ->
  world_ok w -> k < List.length (emitted w) ->
  fanout body emit_rec k kind event args ls w = Some w' ->
  exists done mytasks myfails,
    piece k w w' [] (map (invocation k kind event args) done) mytasks
          myfails /\
    progress k kind event args ls done mytasks myfails.
Proof.
  induction ls as [|l rest IH]; simpl; intros w w' Hne Hok Hk Hf.
  - injection Hf as <-. exists [], [], []. split; [now apply piece_same|].
    now left.
  - destruct (call_handler _ _ _ _ _ _ _ _) as [[w1 o]|] eqn:Ec;
      [|discriminate].
    assert (P1 : piece k w w1 [] [invocation k kind event args l] [] []).
    { eapply call_handler_piece; eauto. }
    assert (Prm : piece k w1 (removeOnce kind event l w1) [] [] [] []).
    { apply removeOnce_piece; [exact Hne | exact (proj1 P1) | exact (piece_lt P1)]. }
    assert (Hgo : forall w2,
              piece k w1 w2 [] [] [] [] ->
              fanout body emit_rec k kind event args rest w2 = Some w' ->
              exists done mytasks myfails,
                piece k w w' []
                  (map (invocation k kind event args) done) mytasks
                  myfails /\
                progress k kind event args (l :: rest) done mytasks myfails).
    { intros w2 P2 Hf2.
      pose proof (piece_trans P1 P2) as P12. simpl in P12.
      destruct (IH w2 w' Hne (proj1 P2) (piece_lt P12) Hf2)
        as (done & mytasks & myfails & P3 & Hpr).
      exists (l :: done), mytasks, myfails. split.
      - exact (piece_trans P12 P3).
      - now apply progress_cons. }
    destruct o as [| |error].
    + eapply Hgo; eauto.
    + destruct (asyncEnabled (hub w1)); [|eapply Hgo; eauto].
      injection Hf as <-.
      set (t := mkTask k kind event args l rest).
      exists [l], [t], []. split.
      * assert (P2 : piece k w1 (park t w1) [] [] [t] []).
        { apply park_piece;
            [exact Hne | reflexivity | exact (proj1 P1) | exact (piece_lt P1)]. }
        exact (piece_trans P1 P2).
      * right. left. exists [], l, rest. auto.
    + destruct (handleError _ _ _ _ _) as [c|] eqn:Eh; [|discriminate].
      assert (P2 : piece k w1 (world_of c) [] [] [] []).
      { eapply handleError_piece;
          [exact (proj1 P1) | exact (piece_lt P1) | exact Eh]. }
      destruct c as [w2|error' w2]; simpl in P2; [eapply Hgo; eauto|].
      injection Hf as <-.
      set (f := mkFailure k kind error' rest).
      exists [l], [], [f]. split.
      * pose proof (piece_trans P1 P2) as P12. simpl in P12.
        assert (P3 : piece k w2 (fail f w2) [] [] [] [f]).
        { apply fail_piece;
            [reflexivity | exact (proj1 P2) | exact (piece_lt P12)]. }
        exact (piece_trans P12 P3).
      * right. right. exists rest, error'. auto.
Qed.

Lemma resume_piece t s w w' :
  task_ok t -> world_ok w -> t_emit t < List.length (emitted w) ->
  resume body emit_rec t s w = Some w' ->
  exists done mytasks myfails,
    piece (t_emit t) w w' []
      (map (invocation (t_emit t) (t_kind t) (t_event t) (t_args t)) done)
      mytasks myfails /\
    progress (t_emit t) (t_kind t) (t_event t) (t_args t) (t_rest t)
             done mytasks myfails.
Proof.
  unfold resume. intros Ht Hok Hk Hr.
  assert (Hgo : forall w1,
            piece (t_emit t) w w1 [] [] [] [] ->
            fanout body emit_rec (t_emit t) (t_kind t) (t_event t) (t_args t)
                   (t_rest t) w1 = Some w' ->
            exists done mytasks myfails,
              piece (t_emit t) w w' []
                (map (invocation (t_emit t) (t_kind t) (t_event t) (t_args t))
                     done) mytasks myfails /\
              progress (t_emit t) (t_kind t) (t_event t) (t_args t)
                       (t_rest t) done mytasks myfails).
  { intros w1 P1 Hf.
    destruct (@fanout_piece (t_emit t) (t_kind t) (t_event t) (t_args t)
                (t_rest t) w1 w' Ht (proj1 P1) (piece_lt P1) Hf)
      as (done & mytasks & myfails & P2 & Hpr).
    exists done, mytasks, myfails.
    split; [exact (piece_trans P1 P2) | exact Hpr]. }
  destruct s as [|error].
  - eapply Hgo; [|exact Hr]. now apply removeOnce_piece.
  - destruct (handleError _ _ _ _ _) as [c|] eqn:Eh; [|discriminate].
    assert (P1 : piece (t_emit t) w (world_of c) [] [] [] []).
    { eapply handleError_piece; eauto. }
    destruct c as [w1|error' w1]; simpl in P1; [eapply Hgo; eauto|].
    injection Hr as <-.
    set (f := mkFailure (t_emit t) (t_kind t) error' (t_rest t)).
    exists [], [], [f]. split.
    + assert (P2 : piece (t_emit t) w1 (fail f w1) [] [] [] [f]).
      { apply fail_piece; [reflexivity | exact (proj1 P1) | exact (piece_lt P1)]. }
      exact (piece_trans P1 P2).
    + right. right. exists (t_rest t), error'. auto.
Qed.

End Pieces.

(** ** What an [emit] call adds *)

Lemma tag_iv_of_call k kind tr :
  filter (tag_iv k kind) (of_call iv_emit k tr) = filter (tag_iv k kind) tr.
Proof.
  unfold of_call. apply filter_filter_sub. intros iv H.
  apply same_fanout_true in H. apply Nat.eqb_eq. tauto.
Qed.

Lemma tag_task_of_call k kind ts :
  filter (tag_task k kind) (of_call t_emit k ts) = filter (tag_task k kind) ts.
Proof.
  unfold of_call. apply filter_filter_sub. intros t H.
  apply same_fanout_true in H. apply Nat.eqb_eq. tauto.
Qed.

Lemma invoked_of_call k kind tr :
  invoked k kind (of_call iv_emit k tr) = invoked k kind tr.
Proof. unfold invoked. fold (tag_iv k kind). now rewrite tag_iv_of_call. Qed.

Lemma waiting_of_call k kind ts :
  waiting k kind (of_call t_emit k ts) = waiting k kind ts.
Proof. unfold waiting. fold (tag_task k kind). now rewrite tag_task_of_call. Qed.

Lemma tag_failure_of_call k kind fs :
  filter (tag_failure k kind) (of_call fl_emit k fs) =
  filter (tag_failure k kind) fs.
Proof.
  unfold of_call. apply filter_filter_sub. intros f H.
  apply same_fanout_true in H. apply Nat.eqb_eq. tauto.
Qed.

Lemma abandoned_of_call k kind fs :
  abandoned k kind (of_call fl_emit k fs) = abandoned k kind fs.
Proof.
  unfold abandoned. fold (tag_failure k kind).
  now rewrite tag_failure_of_call.
Qed.

Lemma FanOut_eqb_refl kind : FanOut_eqb kind kind = true.
Proof. now destruct kind. Qed.

Lemma invoked_map_same k kind e a l :
  invoked k kind (map (invocation k kind e a) l) = l.
Proof.
  induction l as [|x l IH]; [reflexivity|].
  unfold invoked in *. simpl. unfold same_fanout at 1.
  rewrite Nat.eqb_refl, FanOut_eqb_refl. simpl. f_equal. exact IH.
Qed.

Lemma invoked_map_other k kind kind' e a l :
  kind' <> kind -> invoked k kind (map (invocation k kind' e a) l) = [].
Proof.
  intros Hne. unfold invoked. rewrite filter_none; auto.
  intros iv Hin. apply in_map_iff in Hin. destruct Hin as (x & <- & _). simpl.
  unfold same_fanout. destruct kind, kind'; simpl;
    rewrite ?andb_false_r; auto; congruence.
Qed.

(** The records a fan-out has called, those its parked task keeps and
    those it abandoned make up its snapshot. *)
Lemma progress_snapshot k kind e a ls done mytasks myfails :
  progress k kind e a ls done mytasks myfails ->
  done ++ waiting k kind mytasks ++ abandoned k kind myfails = ls /\
  (forall kind', kind' <> kind ->
     waiting k kind' mytasks = [] /\ abandoned k kind' myfails = []) /\
  (forall t, In t mytasks ->
     t_emit t = k /\ t_kind t = kind /\ t_event t = e /\ t_args t = a) /\
  (forall f, In f myfails -> fl_emit f = k /\ fl_kind f = kind) /\
  List.length mytasks + List.length myfails <= 1.
Proof.
  intros [(-> & -> & ->)|[(d & l & rest & -> & -> & -> & ->)
                         |(rest & error & -> & -> & ->)]].
  - simpl. rewrite app_nil_r. repeat split; auto; contradiction.
  - unfold waiting, abandoned; simpl. unfold same_fanout at 1.
    rewrite Nat.eqb_refl, FanOut_eqb_refl. simpl. rewrite !app_nil_r.
    split; [reflexivity|]. split; [|split; [|split; [|lia]]].
    + intros kind' Hne. unfold same_fanout.
      destruct kind, kind'; simpl; rewrite ?andb_false_r; auto; congruence.
    + intros t [<-|[]]. auto.
    + intros f [].
  - unfold waiting, abandoned; simpl. unfold same_fanout at 1.
    rewrite Nat.eqb_refl, FanOut_eqb_refl. simpl. rewrite !app_nil_r.
    split; [reflexivity|]. split; [|split; [|split; [|lia]]].
    + intros kind' Hne. unfold same_fanout.
      destruct kind, kind'; simpl; rewrite ?andb_false_r; auto; congruence.
    + intros t [].
    + intros f [<-|[]]. auto.
Qed.

Lemma fan_ok_tasks k kind e a s done ts fs :
  fan_ok k kind e a s done ts fs ->
  (forall kind', kind' <> kind ->
     waiting k kind' ts = [] /\ abandoned k kind' fs = []) /\
  (forall t, In t ts ->
     t_emit t = k /\ t_kind t = kind /\ t_event t = e /\ t_args t = a) /\
  (forall f, In f fs -> fl_emit f = k /\ fl_kind f = kind) /\
  List.length ts + List.length fs <= 1.
Proof.
  intros [(_ & _ & -> & ->)|(ls & _ & _ & Hp)].
  - simpl. repeat split; auto; contradiction.
  - apply progress_snapshot in Hp. tauto.
Qed.

Lemma length_filter_le (A : Type) (p : A -> bool) l :
  List.length (filter p l) <= List.length l.
Proof.
  induction l as [|x l IH]; simpl; auto. destruct (p x); simpl; lia.
Qed.

Lemma own_ok_fans k e a sW dW tW fW sS dS tS fS :
  fan_ok k Wildcard e a sW dW tW fW ->
  fan_ok k Specific e a sS dS tS fS ->
  own_ok k e a (sW ++ sS)
         (map (invocation k Wildcard e a) dW ++
          map (invocation k Specific e a) dS)
         (tW ++ tS) (fW ++ fS).
Proof.
  intros HW HS.
  destruct (fan_ok_tasks HW) as (HWo & HWt & HWf & HWl).
  destruct (fan_ok_tasks HS) as (HSo & HSt & HSf & HSl).
  assert (WS : Wildcard <> Specific) by discriminate.
  assert (SW : Specific <> Wildcard) by discriminate.
  unfold own_ok. split; [|split; [|split]].
  - intros fs Hin. apply in_app_or in Hin. destruct Hin as [Hin|Hin].
    + destruct HW as [(-> & _)|(ls & -> & Hsort & Hp)]; [contradiction|].
      destruct Hin as [<-|[]]. simpl. split; [|exact Hsort].
      rewrite invoked_app, waiting_app, abandoned_app, invoked_map_same.
      rewrite invoked_map_other by assumption.
      destruct (HSo Wildcard WS) as [-> ->]. rewrite !app_nil_r.
      now apply progress_snapshot in Hp.
    + destruct HS as [(-> & _)|(ls & -> & Hsort & Hp)]; [contradiction|].
      destruct Hin as [<-|[]]. simpl. split; [|exact Hsort].
      rewrite invoked_app, waiting_app, abandoned_app, invoked_map_same.
      rewrite invoked_map_other by assumption.
      destruct (HWo Specific SW) as [-> ->]. simpl.
      now apply progress_snapshot in Hp.
  - intros t Hin. apply in_app_or in Hin.
    destruct Hin as [Hin|Hin]; [apply HWt in Hin | apply HSt in Hin]; tauto.
  - intros iv Hin. apply in_app_or in Hin.
    destruct Hin as [Hin|Hin]; apply in_map_iff in Hin;
      destruct Hin as (l & <- & _); exists e, a; simpl; auto.
  - intros kind. rewrite !filter_app, !length_app.
    assert (E : forall kind' ts,
              (forall t, In t ts -> t_kind t = kind') -> kind <> kind' ->
              filter (tag_task k kind) ts = []).
    { intros kind' ts Hts Hne. apply filter_none. intros t Ht.
      unfold tag_task, same_fanout. rewrite (Hts t Ht).
      destruct kind, kind'; simpl; rewrite ?andb_false_r; auto; congruence. }
    assert (F : forall kind' fs,
              (forall f, In f fs -> fl_kind f = kind') -> kind <> kind' ->
              filter (tag_failure k kind) fs = []).
    { intros kind' fs Hfs Hne. apply filter_none. intros f Hf.
      unfold tag_failure, same_fanout. rewrite (Hfs f Hf).
      destruct kind, kind'; simpl; rewrite ?andb_false_r; auto; congruence. }
    destruct kind.
    + rewrite (E Specific tS); [|intros t Ht; now apply HSt in Ht|exact WS].
      rewrite (F Specific fS); [|intros f Hf; now apply HSf in Hf|exact WS].
      pose proof (length_filter_le (tag_task k Wildcard) tW).
      pose proof (length_filter_le (tag_failure k Wildcard) fW). simpl. lia.
    + rewrite (E Wildcard tW); [|intros t Ht; now apply HWt in Ht|exact SW].
      rewrite (F Wildcard fW); [|intros f Hf; now apply HWf in Hf|exact SW].
      pose proof (length_filter_le (tag_task k Specific) tS).
      pose proof (length_filter_le (tag_failure k Specific) fS). simpl. lia.
Qed.

Lemma close_emit k e a d mystarts mine mytasks myfails :
  delta_ok k (S k) d mystarts mine mytasks myfails ->
  own_ok k e a mystarts mine mytasks myfails ->
  closed k (mkDelta ((e, a) :: d_emitted d) (d_started d) (d_trace d)
                    (d_parked d) (d_failed d)).
Proof.
  intros [_ Ht Hp Hs Hf Hm Hmt Hms Hmf (Ga & Gb & Gc & Gd)]
         (Oa & Ob & Oc & Od).
  rewrite Forall_forall in Ht, Hp, Hs, Hf. unfold in_range in *.
  unfold closed, in_range; simpl.
  split; [|split; [|split; [|split]]].
  - apply Forall_forall. intros iv Hin. destruct (Ht iv Hin); lia.
  - apply Forall_forall. intros t Hin. destruct (Hp t Hin); lia.
  - apply Forall_forall. intros fs Hin. destruct (Hs fs Hin); lia.
  - apply Forall_forall. intros f Hin. destruct (Hf f Hin); lia.
  - unfold nested_ok; simpl. split; [|split; [|split]].
    + intros fs Hin Hn. destruct (Hs fs Hin) as [Hk|Hr].
      * assert (Hmy : In fs mystarts).
        { rewrite <- Hms. unfold of_call. apply filter_In. split; auto.
          now apply Nat.eqb_eq. }
        rewrite Hk, <- invoked_of_call, <- waiting_of_call,
          <- abandoned_of_call, Hm, Hmt, Hmf.
        now apply Oa.
      * apply Ga; auto. lia.
    + intros t Hin Hn. destruct (Hp t Hin) as [Hk|Hr].
      * assert (Hmy : In t mytasks).
        { rewrite <- Hmt. unfold of_call. apply filter_In. split; auto.
          now apply Nat.eqb_eq. }
        rewrite Hk, Nat.sub_diag. simpl.
        destruct (Ob t Hmy) as [-> ->]. reflexivity.
      * replace (t_emit t - k) with (S (t_emit t - S k)) by lia. simpl.
        apply Gb; auto. lia.
    + intros iv Hin Hn. destruct (Ht iv Hin) as [Hk|Hr].
      * assert (Hmy : In iv mine).
        { rewrite <- Hm. unfold of_call. apply filter_In. split; auto.
          now apply Nat.eqb_eq. }
        rewrite Hk, Nat.sub_diag. simpl. now apply Oc.
      * replace (iv_emit iv - k) with (S (iv_emit iv - S k)) by lia. simpl.
        apply Gc; auto. lia.
    + intros k' kind' Hn. destruct (Nat.eq_dec k' k) as [->|Hne].
      * rewrite <- tag_task_of_call, <- tag_failure_of_call, Hmt, Hmf.
        apply Od.
      * apply Gd. lia.
Qed.

Section Closing.

Variable body : Handler -> World -> Val -> list Val -> Script.

Variable emit_rec : string -> list Val -> World -> option World.

Hypothesis emit_rec_closed : forall e a w w',
  world_ok w -> emit_rec e a w = Some w' ->
  world_ok w' /\
  exists d, extends w d w' /\ closed (List.length (emitted w)) d.

Lemma record_start_piece k fs w :
  world_ok w -> k < List.length (emitted w) -> fs_emit fs = k ->
  piece k w (record_start fs w) [fs] [] [] [].
Proof.
  intros Hok Hk Hfs. split; [exact Hok|].
  exists (mkDelta [] [fs] [] [] []). split.
  - unfold extends; simpl. now rewrite !app_nil_r.
  - now apply delta_ok_start.
Qed.

Lemma started_fanout_piece k kind e a ls w w' :
  (kind = Specific -> e <> wildcard_token) ->
  StronglySorted before ls ->
  world_ok w -> k < List.length (emitted w) ->
  fanout body emit_rec k kind e a ls (record_start (mkStart k kind ls) w)
    = Some w' ->
  exists mystarts done mytasks myfails,
    piece k w w' mystarts (map (invocation k kind e a) done) mytasks
          myfails /\
    fan_ok k kind e a mystarts done mytasks myfails.
Proof.
  intros Hne Hsort Hok Hk Hf.
  assert (P0 : piece k w (record_start (mkStart k kind ls) w)
                     [mkStart k kind ls] [] [] []).
  { now apply record_start_piece. }
  destruct (@fanout_piece body emit_rec emit_rec_closed k kind e a ls _ _
              Hne (proj1 P0) (piece_lt P0) Hf)
    as (done & mytasks & myfails & P1 & Hpr).
  exists [mkStart k kind ls], done, mytasks, myfails. split.
  - exact (piece_trans P0 P1).
  - right. exists ls. auto.
Qed.

Lemma processWildcardListeners_piece k e a w w' :
  world_ok w -> k < List.length (emitted w) ->
  processWildcardListeners body emit_rec k e a w = Some w' ->
  exists mystarts done mytasks myfails,
    piece k w w' mystarts (map (invocation k Wildcard e a) done) mytasks
          myfails /\
    fan_ok k Wildcard e a mystarts done mytasks myfails.
Proof.
  unfold processWildcardListeners. intros Hok Hk Hp.
  destruct (Nat.eqb (List.length (wildcardListeners (hub w))) 0).
  - injection Hp as <-. exists [], [], [], []. split.
    + now apply piece_same.
    + left. auto.
  - eapply started_fanout_piece; eauto.
    + intros H. discriminate H.
    + destruct Hok as [([Hs _] & _) _]. exact Hs.
Qed.

Lemma processSpecificListeners_piece k e a w w' :
  world_ok w -> k < List.length (emitted w) ->
  processSpecificListeners body emit_rec k e a w = Some w' ->
  exists mystarts done mytasks myfails,
    piece k w w' mystarts (map (invocation k Specific e a) done) mytasks
          myfails /\
    fan_ok k Specific e a mystarts done mytasks myfails.
Proof.
  unfold processSpecificListeners. intros Hok Hk Hp.
  destruct (JsMap.get e (events (hub w))) as [ls|] eqn:Eg.
  - eapply started_fanout_piece; eauto.
    + intros _ ->. destruct Hok as [(_ & _ & Hstar & _) _].
      unfold JsMap.has in Hstar. now rewrite Eg in Hstar.
    + destruct Hok as [Hreg _]. apply registry_ok_sorted in Hreg.
      exact (proj2 Hreg _ _ Eg).
  - injection Hp as <-. exists [], [], [], []. split.
    + now apply piece_same.
    + left. auto.
Qed.

Lemma emit_body_closed e a w w' :
  world_ok w -> emit_body body emit_rec e a w = Some w' ->
  world_ok w' /\
  exists d, extends w d w' /\ closed (List.length (emitted w)) d.
Proof.
  unfold emit_body. intros Hok He. cbv zeta in He.
  set (k := List.length (emitted w)) in *.
  set (w0 := record_emit e a w) in *.
  assert (Hok0 : world_ok w0) by exact Hok.
  assert (Hlen : List.length (emitted w0) = S k).
  { subst w0 k. simpl. rewrite length_app. simpl. lia. }
  assert (Hk0 : k < List.length (emitted w0)) by lia.
  destruct (if wildcardEnabled (hub w0) then _ else Some w0)
    as [w1|] eqn:Ew; [|discriminate].
  assert (PW : exists mystarts done mytasks myfails,
             piece k w0 w1 mystarts (map (invocation k Wildcard e a) done)
                   mytasks myfails /\
             fan_ok k Wildcard e a mystarts done mytasks myfails).
  { destruct (wildcardEnabled (hub w0)).
    - eapply processWildcardListeners_piece; eauto.
    - injection Ew as <-. exists [], [], [], []. split.
      + now apply piece_same.
      + left. auto. }
  destruct PW as (sW & dW & tW & fW & PW & FW).
  destruct (processSpecificListeners_piece _ _ (proj1 PW) (piece_lt PW) He)
    as (sS & dS & tS & fS & PS & FS).
  pose proof (piece_trans PW PS) as (Hok' & d & E & D).
  split; [exact Hok'|].
  exists (mkDelta ((e, a) :: d_emitted d) (d_started d) (d_trace d)
                  (d_parked d) (d_failed d)).
  split.
  - destruct E as (E1 & E2 & E3 & E4 & E5). unfold extends; simpl.
    rewrite E1, E2, E3, E4, E5. subst w0; simpl.
    rewrite <- app_assoc. auto.
  - rewrite Hlen in D. eapply close_emit; [exact D|].
    now apply own_ok_fans.
Qed.

End Closing.

Lemma emit_closed body fuel : forall e a w w',
  world_ok w -> emit body fuel e a w = Some w' ->
  world_ok w' /\
  exists d, extends w d w' /\ closed (List.length (emitted w)) d.
Proof.
  induction fuel as [|fuel IH]; simpl; intros e a w w' Hok He.
  - discriminate.
  - eapply emit_body_closed; eauto.
Qed.

(* ================================================================== *)
(** * The invariant of the histories *)

Lemma history_ok_construct options : history_ok (construct options).
Proof.
  unfold history_ok, closed, whole, nested_ok; simpl.
  repeat split; auto; contradiction.
Qed.

Lemma history_ok_same w w' :
  history w' = history w -> history_ok w -> history_ok w'.
Proof.
  unfold history, history_ok, whole. intros [= H1 H2 H3 H4 H5].
  now rewrite H1, H2, H3, H4, H5.
Qed.

Lemma history_ok_emit w d w' :
  history_ok w -> extends w d w' -> closed (List.length (emitted w)) d ->
  history_ok w'.
Proof.
  unfold history_ok. intros Hh (E1 & E2 & E3 & E4 & E5) Hc.
  assert (Hw : whole w' = d_app (whole w) d).
  { unfold whole, d_app; simpl. now rewrite E1, E2, E3, E4, E5. }
  rewrite Hw. apply closed_app; auto.
Qed.

Lemma nth_error_middle (A : Type) (l : list A) i x :
  nth_error l i = Some x -> l = firstn i l ++ x :: skipn (S i) l.
Proof.
  revert i. induction l as [|a l IH]; intros [|i]; simpl; try discriminate.
  - now intros [= ->].
  - intros H. f_equal. now apply IH.
Qed.

Lemma waiting_middle_other k kind pre t post :
  tag_task k kind t = false ->
  waiting k kind (pre ++ t :: post) = waiting k kind (pre ++ post).
Proof.
  intros H. unfold waiting. fold (tag_task k kind).
  rewrite !filter_app. simpl. now rewrite H.
Qed.

Lemma filter_middle_le (A : Type) (p : A -> bool) pre x post :
  List.length (filter p (pre ++ post)) <=
  List.length (filter p (pre ++ x :: post)).
Proof.
  rewrite !filter_app, !length_app. simpl. destruct (p x); simpl; lia.
Qed.

Lemma filter_middle_unique (A : Type) (p : A -> bool) pre x post :
  p x = true -> List.length (filter p (pre ++ x :: post)) <= 1 ->
  filter p (pre ++ post) = [].
Proof.
  intros Hx. rewrite !filter_app, length_app. simpl. rewrite Hx. simpl.
  intros Hl.
  destruct (filter p pre); [|simpl in Hl; lia].
  destruct (filter p post); [reflexivity|simpl in Hl; lia].
Qed.

Lemma tag_task_kind k kind kind' t :
  t_emit t = k -> t_kind t = kind -> kind' <> kind ->
  tag_task k kind' t = false.
Proof.
  intros H1 H2 Hne. unfold tag_task, same_fanout. rewrite H2.
  destruct kind, kind'; simpl; rewrite ?andb_false_r; auto; congruence.
Qed.

(** The histories after a parked fan-out has gone on. *)
Lemma resume_closed E0 S0 Tr0 pre t post F0 d done mytasks myfails :
  closed 0 (mkDelta E0 S0 Tr0 (pre ++ t :: post) F0) ->
  delta_ok (t_emit t) (List.length E0) d []
    (map (invocation (t_emit t) (t_kind t) (t_event t) (t_args t)) done)
    mytasks myfails ->
  progress (t_emit t) (t_kind t) (t_event t) (t_args t) (t_rest t)
           done mytasks myfails ->
  closed 0 (mkDelta (E0 ++ d_emitted d) (S0 ++ d_started d)
                    (Tr0 ++ d_trace d) ((pre ++ post) ++ d_parked d)
                    (F0 ++ d_failed d)).
Proof.
  intros (Rt & Rp & Rs & Rf & Ha & Hb & Hc & Hd)
         [Hk Ht Hp Hs Hf Hm Hmt Hms Hmf (Ga & Gb & Gc & Gd)] Hpr.
  set (k := t_emit t) in *. set (kind := t_kind t) in *.
  set (N := List.length E0) in *.
  rewrite Forall_forall in Rt, Rp, Rs, Rf, Ht, Hp, Hs, Hf.
  unfold in_range in *. simpl in *. fold N in Rt, Rp, Rs, Rf.
  destruct (progress_snapshot Hpr)
    as (Hsnap & Hother & Hmine & Hminef & Hlen1).
  assert (Htag : tag_task k kind t = true).
  { unfold tag_task. apply same_fanout_true. auto. }
  assert (Hcall : nth_error E0 k = Some (t_event t, t_args t)).
  { specialize (Hb t). rewrite Nat.sub_0_r in Hb. apply Hb; [|lia].
    apply in_or_app. right. now left. }
  assert (Hone : List.length (filter (tag_task k kind) (pre ++ t :: post)) = 1
                 /\ filter (tag_failure k kind) F0 = []).
  { specialize (Hd k kind (Nat.le_0_l k)).
    rewrite filter_app, length_app in *. simpl in *. rewrite Htag in *.
    simpl in *. split; [lia|]. apply length_zero_iff_nil. lia. }
  destruct Hone as [Hone HrestF].
  assert (Hrest : filter (tag_task k kind) (pre ++ post) = []).
  { apply filter_middle_unique with (x := t); auto. lia. }
  assert (HoldF : abandoned k kind F0 = []).
  { unfold abandoned. fold (tag_failure k kind). now rewrite HrestF. }
  assert (Hold : forall t', In t' (pre ++ post) -> In t' (pre ++ t :: post)).
  { intros t' Hin. apply in_app_or in Hin. apply in_or_app.
    destruct Hin; [now left | right; now right]. }
  assert (Hnostart : forall fs, In fs (d_started d) -> N <= fs_emit fs).
  { intros fs Hin. destruct (Hs fs Hin) as [Hown|Hr]; [|lia].
    exfalso. assert (Hin' : In fs (of_call fs_emit k (d_started d))).
    { unfold of_call. apply filter_In. split; auto. now apply Nat.eqb_eq. }
    rewrite Hms in Hin'. contradiction. }
  assert (Ecount : forall k' kind',
            List.length (filter (tag_task k' kind') (pre ++ post)) +
            List.length (filter (tag_failure k' kind') F0) <= 1).
  { intros k' kind'. specialize (Hd k' kind' (Nat.le_0_l k')).
    pose proof (filter_middle_le (tag_task k' kind') pre t post). lia. }
  unfold closed, in_range; simpl. rewrite length_app. fold N.
  split; [|split; [|split; [|split]]].
  - apply Forall_forall. intros iv Hin. apply in_app_or in Hin.
    destruct Hin as [Hin|Hin]; [specialize (Rt iv Hin); lia|].
    destruct (Ht iv Hin); lia.
  - apply Forall_forall. intros t' Hin. apply in_app_or in Hin.
    destruct Hin as [Hin|Hin]; [specialize (Rp t' (Hold _ Hin)); lia|].
    destruct (Hp t' Hin); lia.
  - apply Forall_forall. intros fs Hin. apply in_app_or in Hin.
    destruct Hin as [Hin|Hin]; [specialize (Rs fs Hin); lia|].
    destruct (Hs fs Hin); lia.
  - apply Forall_forall. intros f Hin. apply in_app_or in Hin.
    destruct Hin as [Hin|Hin]; [specialize (Rf f Hin); lia|].
    destruct (Hf f Hin); lia.
  - unfold nested_ok; simpl. split; [|split; [|split]].
    + intros fs Hin _. rewrite invoked_app, waiting_app, abandoned_app.
      apply in_app_or in Hin. destruct Hin as [Hin|Hin].
      * destruct (Ha fs Hin) as [Hsn Hsort]; [lia|]. split; [|exact Hsort].
        specialize (Rs fs Hin).
        destruct (Nat.eq_dec (fs_emit fs) k) as [Ek|Nk].
        { rewrite Ek in *.
          rewrite <- (invoked_of_call k _ (d_trace d)), Hm.
          rewrite <- (waiting_of_call k _ (d_parked d)), Hmt.
          rewrite <- (abandoned_of_call k _ (d_failed d)), Hmf.
          destruct (FanOut_eqb (fs_kind fs) kind) eqn:Ekind.
          - assert (Ef : fs_kind fs = kind).
            { destruct (fs_kind fs), kind; simpl in Ekind; congruence. }
            rewrite Ef in *. rewrite invoked_map_same.
            assert (Ew : waiting k kind (pre ++ post) = []).
            { unfold waiting. fold (tag_task k kind). now rewrite Hrest. }
            rewrite Ew, HoldF. simpl.
            assert (Ew' : waiting k kind (pre ++ t :: post) = t_rest t).
            { unfold waiting. fold (tag_task k kind).
              rewrite filter_app. simpl. rewrite Htag.
              rewrite filter_app in Hrest. apply app_eq_nil in Hrest.
              destruct Hrest as [-> ->]. simpl. now rewrite app_nil_r. }
            rewrite Ew', HoldF, app_nil_r in Hsn.
            rewrite <- Hsn, <- app_assoc. f_equal. exact Hsnap.
          - assert (Hne : fs_kind fs <> kind).
            { intros E. rewrite E, FanOut_eqb_refl in Ekind. discriminate. }
            rewrite invoked_map_other by (intros E; now symmetry in E).
            destruct (Hother _ Hne) as [-> ->]. rewrite !app_nil_r.
            rewrite <- Hsn. f_equal. f_equal. symmetry.
            apply waiting_middle_other.
            apply tag_task_kind with (kind := kind); auto. }
        { rewrite (invoked_none _ (d_trace d)), (waiting_none _ (d_parked d)),
            (abandoned_none _ (d_failed d)).
          - rewrite !app_nil_r. rewrite <- Hsn. f_equal. f_equal. symmetry.
            apply waiting_middle_other. apply same_fanout_other. fold k. lia.
          - intros f Hin'. destruct (Hf f Hin'); lia.
          - intros t' Ht'. destruct (Hp t' Ht'); lia.
          - intros iv Hiv. destruct (Ht iv Hiv); lia. }
      * pose proof (Hnostart fs Hin) as Hge.
        destruct (Ga fs Hin Hge) as [Hsn Hsort]. split; [|exact Hsort].
        rewrite (invoked_none _ Tr0), (waiting_none _ (pre ++ post)),
          (abandoned_none _ F0).
        { exact Hsn. }
        { intros f Hin'. specialize (Rf f Hin'). lia. }
        { intros t' Ht'. specialize (Rp t' (Hold _ Ht')). lia. }
        { intros iv Hiv. specialize (Rt iv Hiv). lia. }
    + intros t' Hin _. rewrite Nat.sub_0_r. apply in_app_or in Hin.
      destruct Hin as [Hin|Hin].
      * pose proof (Rp t' (Hold _ Hin)).
        rewrite nth_error_app1 by (fold N; lia).
        specialize (Hb t' (Hold _ Hin)). rewrite Nat.sub_0_r in Hb.
        apply Hb. lia.
      * destruct (Hp t' Hin) as [Hown|Hr].
        { assert (Hin' : In t' mytasks).
          { rewrite <- Hmt. unfold of_call. apply filter_In. split; auto.
            now apply Nat.eqb_eq. }
          destruct (Hmine t' Hin') as (_ & _ & -> & ->).
          rewrite Hown, nth_error_app1 by (fold N; lia). exact Hcall. }
        { rewrite nth_error_app2 by (fold N; lia). fold N.
          apply Gb; auto. lia. }
    + intros iv Hin _. rewrite Nat.sub_0_r. apply in_app_or in Hin.
      destruct Hin as [Hin|Hin].
      * pose proof (Rt iv Hin).
        rewrite nth_error_app1 by (fold N; lia).
        specialize (Hc iv Hin). rewrite Nat.sub_0_r in Hc. apply Hc. lia.
      * destruct (Ht iv Hin) as [Hown|Hr].
        { assert (Hin' : In iv (of_call iv_emit k (d_trace d))).
          { unfold of_call. apply filter_In. split; auto.
            now apply Nat.eqb_eq. }
          rewrite Hm in Hin'. apply in_map_iff in Hin'.
          destruct Hin' as (l & <- & _). simpl.
          rewrite nth_error_app1 by (fold N; lia).
          exists (t_event t), (t_args t). auto. }
        { rewrite nth_error_app2 by (fold N; lia). fold N.
          apply Gc; auto. lia. }
    + intros k' kind' _. rewrite !filter_app, !length_app.
      destruct (Nat.lt_ge_cases k' N) as [Hlt|Hge].
      * assert (Enew : filter (tag_task k' kind') (d_parked d) =
                       if Nat.eqb k' k
                       then filter (tag_task k kind') mytasks else []).
        { destruct (Nat.eqb k' k) eqn:Ek.
          - apply Nat.eqb_eq in Ek. subst k'.
            now rewrite <- tag_task_of_call, Hmt.
          - apply Nat.eqb_neq in Ek. apply filter_none. intros t' Ht'.
            apply same_fanout_other. destruct (Hp t' Ht'); lia. }
        assert (EnewF : filter (tag_failure k' kind') (d_failed d) =
                        if Nat.eqb k' k
                        then filter (tag_failure k kind') myfails else []).
        { destruct (Nat.eqb k' k) eqn:Ek.
          - apply Nat.eqb_eq in Ek. subst k'.
            now rewrite <- tag_failure_of_call, Hmf.
          - apply Nat.eqb_neq in Ek. apply filter_none. intros f Hf'.
            apply same_fanout_other. destruct (Hf f Hf'); lia. }
        rewrite Enew, EnewF.
        pose proof (Ecount k' kind') as Hcount.
        rewrite filter_app, length_app in Hcount.
        destruct (Nat.eqb k' k) eqn:Ek; [|simpl; lia].
        apply Nat.eqb_eq in Ek. subst k'.
        destruct (FanOut_eqb kind' kind) eqn:Ekind.
        { assert (Ef : kind' = kind).
          { destruct kind', kind; simpl in Ekind; congruence. }
          subst kind'.
          assert (Hz : List.length (filter (tag_task k kind) pre) +
                       List.length (filter (tag_task k kind) post) = 0).
          { rewrite <- length_app, <- filter_app, Hrest. reflexivity. }
          rewrite HrestF. simpl.
          pose proof (length_filter_le (tag_task k kind) mytasks).
          pose proof (length_filter_le (tag_failure k kind) myfails). lia. }
        { assert (Hne : kind' <> kind).
          { intros E. rewrite E, FanOut_eqb_refl in Ekind. discriminate. }
          rewrite (filter_none (tag_task k kind') mytasks),
            (filter_none (tag_failure k kind') myfails).
          - simpl. lia.
          - intros f Hf'. destruct (Hminef f Hf') as (E1 & E2).
            unfold tag_failure, same_fanout. rewrite E2.
            destruct kind, kind'; simpl; rewrite ?andb_false_r; auto;
              congruence.
          - intros t' Ht'. destruct (Hmine t' Ht') as (E1 & E2 & _).
            apply tag_task_kind with (kind := kind); auto. }
      * rewrite (filter_none (tag_task k' kind') pre),
          (filter_none (tag_task k' kind') post),
          (filter_none (tag_failure k' kind') F0).
        { simpl. now apply Gd. }
        { intros f Hf'. apply same_fanout_other. specialize (Rf f Hf'). lia. }
        { intros t' Ht'. apply same_fanout_other.
          assert (Hin' : In t' (pre ++ post)) by (apply in_or_app; now right).
          specialize (Rp t' (Hold _ Hin')). lia. }
        { intros t' Ht'. apply same_fanout_other.
          assert (Hin' : In t' (pre ++ post)) by (apply in_or_app; now left).
          specialize (Rp t' (Hold _ Hin')). lia. }
Qed.

Lemma step_history_ok body fuel a w w' :
  world_ok w -> history_ok w -> step body fuel a w = Some w' -> history_ok w'.
Proof.
  intros Hok Hh Hs. destruct a as [c|i s]; simpl in Hs.
  - destruct (run_cmd_cases (emit body fuel) c w) as [(e & a & -> & E)|E];
      rewrite E in Hs.
    + destruct (emit_closed _ _ _ _ Hok Hs) as (_ & d & Hext & Hc).
      eapply history_ok_emit; eauto.
    + injection Hs as <-. eapply history_ok_same; [|exact Hh].
      apply history_apply_cmd.
  - destruct (nth_error (parked w) i) as [t|] eqn:En; [|discriminate].
    assert (Hin : In t (parked w)) by (eapply nth_error_In; eauto).
    assert (Ht : task_ok t).
    { destruct Hok as [_ Hp]. rewrite Forall_forall in Hp. auto. }
    assert (Hlt : t_emit t < List.length (emitted (unpark i w))).
    { destruct Hh as (_ & Rp & _). rewrite Forall_forall in Rp.
      specialize (Rp t Hin). unfold in_range in Rp. simpl in *. lia. }
    destruct (@resume_piece body (emit body fuel) (emit_closed body fuel)
                t s (unpark i w) w' Ht (world_ok_unpark i Hok) Hlt Hs)
      as (done & mytasks & myfails &
          (_ & d & (E1 & E2 & E3 & E4 & E5) & D) & Hpr).
    unfold history_ok, whole. rewrite E1, E2, E3, E4, E5. simpl.
    apply resume_closed with (t := t) (done := done) (mytasks := mytasks)
                             (myfails := myfails);
      auto.
    unfold history_ok, whole in Hh.
    now rewrite (nth_error_middle _ _ En) in Hh.
Qed.

Lemma reachable_history_ok body options w :
  reachable body options w -> world_ok w /\ history_ok w.
Proof.
  induction 1 as [|w fuel a w' Hr [Hok Hh] Hs].
  - split; [apply world_ok_construct | apply history_ok_construct].
  - split.
    + apply (@reachable_world_ok body options). econstructor; eauto.
    + eapply step_history_ok; eauto.
Qed.

(** What the invariant says of a fan-out that was started: every record
    of its snapshot was called, waits in its parked task or was abandoned
    when it failed. *)
Lemma started_accounted body options w fs :
  reachable body options w -> In fs (started w) ->
  invoked (fs_emit fs) (fs_kind fs) (trace w) ++
  waiting (fs_emit fs) (fs_kind fs) (parked w) ++
  abandoned (fs_emit fs) (fs_kind fs) (failed w) = fs_snapshot fs /\
  StronglySorted before (fs_snapshot fs).
Proof.
  intros Hr Hin. apply reachable_history_ok in Hr.
  destruct Hr as [_ (_ & _ & _ & _ & Ha & _)]. apply (Ha fs Hin). lia.
Qed.

(* ================================================================== *)
(** * The order of the calls of a fan-out *)

Lemma sorted_prefix_order (pre rest : list Listener) r1 r2 :
  StronglySorted before (pre ++ rest) ->
  In r1 (pre ++ rest) -> In r2 pre -> before r1 r2 ->
  exists i j, i < j /\ nth_error pre i = Some r1 /\ nth_error pre j = Some r2.
Proof.
  revert rest. induction pre as [|x pre IH]; intros rest Hs H1 H2 Hb.
  - contradiction.
  - simpl in Hs. inversion Hs as [|? ? Hs' Hall]; subst.
    rewrite Forall_forall in Hall.
    destruct H2 as [->|H2].
    + exfalso. destruct H1 as [->|H1]; [now apply before_irrefl in Hb|].
      apply (@before_irrefl r1). eapply before_trans; eauto.
    + destruct H1 as [->|H1].
      * apply In_nth_error in H2. destruct H2 as [j Hj].
        exists 0, (S j). split; [lia|]. auto.
      * destruct (IH rest Hs' H1 H2 Hb) as (i & j & Hij & Hi & Hj).
        exists (S i), (S j). split; [lia|]. auto.
Qed.

(** The specific fan-out iterates a copy of the sequence registered for
    its event. *)
Lemma specific_snapshot_started body fuel k e a ls w w' :
  world_ok w ->
  JsMap.get e (events (hub w)) = Some ls ->
  processSpecificListeners body (emit body fuel) k e a w = Some w' ->
  In (mkStart k Specific ls) (started w').
Proof.
  intros Hok Hg Hp.
  unfold processSpecificListeners in Hp. rewrite Hg in Hp.
  assert (Hext : exists d,
             extends (record_start (mkStart k Specific ls) w) d w').
  { apply (@fanout_kept body (fun w0 =>
             exists d, extends (record_start (mkStart k Specific ls) w) d w0))
      with (emit_rec := emit body fuel) in Hp.
    - exact (proj2 Hp).
    - intros h w0 this args c w1 _ _ (d & E). exists d.
      pose proof (history_apply_cmd c w1) as Hh. unfold history in Hh.
      injection Hh as H1 H2 H3 H4 H5. unfold extends in *.
      now rewrite H1, H2, H3, H4, H5.
    - intros m lvl w1 _ (d & E). exists d.
      pose proof (history_log m lvl w1) as Hh. unfold history in Hh.
      injection Hh as H1 H2 H3 H4 H5. unfold extends in *.
      now rewrite H1, H2, H3, H4, H5.
    - intros kind ev l w1 _ _ (d & E). exists d.
      pose proof (history_removeOnce kind ev l w1) as Hh. unfold history in Hh.
      injection Hh as H1 H2 H3 H4 H5. unfold extends in *.
      now rewrite H1, H2, H3, H4, H5.
    - intros iv w1 (d & E). exists (d_app d (mkDelta [] [] [iv] [] [])).
      eapply extends_trans; [exact E|].
      unfold extends; simpl. now rewrite !app_nil_r.
    - intros t w1 _ (d & E). exists (d_app d (mkDelta [] [] [] [t] [])).
      eapply extends_trans; [exact E|].
      unfold extends; simpl. now rewrite !app_nil_r.
    - intros f w1 _ _ (d & E). exists (d_app d (mkDelta [] [] [] [] [f])).
      eapply extends_trans; [exact E|].
      unfold extends; simpl. now rewrite !app_nil_r.
    - intros e0 a0 w0 w1 [Hok0 (d & E)] He.
      destruct (emit_closed _ _ _ _ Hok0 He) as (Hok1 & d1 & E1 & _).
      split; [exact Hok1|]. exists (d_app d d1).
      eapply extends_trans; eauto.
    - intros _ ->. destruct Hok as [(_ & _ & Hstar & _) _].
      unfold JsMap.has in Hstar. now rewrite Hg in Hstar.
    - split; [exact Hok|]. exists (mkDelta [] [] [] [] []).
      unfold extends; simpl. now rewrite !app_nil_r. }
  destruct Hext as (d & _ & E2 & _). rewrite E2. simpl.
  apply in_or_app. left. apply in_or_app. right. now left.
Qed.


(* ================================================================== *)
(** * Termination of a dispatch *)

Section Termination.

Variable body : Handler -> World -> Val -> list Val -> Script.

Hypothesis body_no_reentry : no_reentry body.

Hypothesis body_calm : calm body.

Section OneLevel.

Variable emit_rec : string -> list Val -> World -> option World.

Lemma run_calls_total cs w :
  (forall c, In c cs -> forall e a, c <> CEmit e a) ->
  exists w', run_calls emit_rec cs w = Some w'.
Proof.
  revert w. induction cs as [|c cs IH]; simpl; intros w Hcs.
  - eauto.
  - destruct (run_cmd_cases emit_rec c w) as [(e & a & -> & E)|E].
    + exfalso. eapply Hcs; [now left | reflexivity].
    + rewrite E. apply IH. intros c' Hc'. apply Hcs. now right.
Qed.

Lemma call_handler_total k kind e a l w :
  exists w',
    call_handler body emit_rec k kind e a l w =
    Some (w', outcome (body (handler l)
                            (record_call (invocation k kind e a l) w)
                            (receiver l) (handler_args kind e a))).
Proof.
  unfold call_handler.
  destruct (run_calls_total
              (calls (body (handler l)
                           (record_call (invocation k kind e a l) w)
                           (receiver l) (handler_args kind e a)))
              (record_call (invocation k kind e a l) w)) as [w' Hw'].
  - intros c Hc. eapply body_no_reentry; eauto.
  - rewrite Hw'. eauto.
Qed.

Lemma fanout_total k kind e a ls :
  errors_settle emit_rec kind e a ->
  forall w, exists w', fanout body emit_rec k kind e a ls w = Some w'.
Proof.
  intros Hcase. induction ls as [|l rest IH]; simpl; intros w.
  - eauto.
  - destruct (call_handler_total k kind e a l w) as [w1 Hc].
    rewrite Hc.
    destruct (outcome _) as [| |err] eqn:Eo.
    + apply IH.
    + destruct (asyncEnabled (hub w1)); [eauto | apply IH].
    + destruct Hcase as [Hrep|Hrec].
      * exfalso. eapply body_calm; eauto.
      * unfold handleError.
        destruct (JsMap.has error_event (events (hub w1))).
        { destruct (Hrec err e (handler l) w1) as [w2 Hw2].
          rewrite Hw2. apply IH. }
        { destruct (stringifiable err); [apply IH | eauto]. }
Qed.

Lemma resume_total t s w :
  (forall err ev h w,
     exists w', emit_rec error_event [err; VStr ev; VFun h] w = Some w') ->
  exists w', resume body emit_rec t s w = Some w'.
Proof.
  intros Hrec. unfold resume. destruct s as [|err].
  - apply fanout_total. now right.
  - unfold handleError.
    destruct (JsMap.has error_event (events (hub w))).
    + destruct (Hrec err (t_event t) (handler (t_current t)) w)
        as [w1 Hw1].
      rewrite Hw1. apply fanout_total. now right.
    + destruct (stringifiable err); [|eauto].
      apply fanout_total. now right.
Qed.

Lemma emit_body_total e a w :
  (forall kind, errors_settle emit_rec kind e a) ->
  exists w', emit_body body emit_rec e a w = Some w'.
Proof.
  intros Hcase. unfold emit_body. cbv zeta.
  set (k := List.length (emitted w)). set (w0 := record_emit e a w).
  assert (HW : exists w1,
             (if wildcardEnabled (hub w0)
              then processWildcardListeners body emit_rec k e a w0
              else Some w0) = Some w1).
  { destruct (wildcardEnabled (hub w0)); [|eauto].
    unfold processWildcardListeners.
    destruct (Nat.eqb _ 0); [eauto|]. now apply fanout_total. }
  destruct HW as [w1 ->]. unfold processSpecificListeners.
  destruct (JsMap.get e (events (hub w1))); [|eauto].
  now apply fanout_total.
Qed.

End OneLevel.

Lemma emit_report_total fuel err ev h w :
  exists w',
    emit body (S fuel) error_event [err; VStr ev; VFun h] w = Some w'.
Proof.
  simpl. apply emit_body_total. intros kind. left.
  exists err, ev, h. destruct kind; simpl; auto.
Qed.

Lemma emit_total fuel e a w :
  exists w', emit body (S (S fuel)) e a w = Some w'.
Proof.
  change (exists w', emit_body body (emit body (S fuel)) e a w = Some w').
  apply emit_body_total. intros kind. right.
  intros err ev h w0. apply emit_report_total.
Qed.

(** Every call of a client and every settlement of a parked fan-out
    takes the dispatcher to a next world, given the depth 2. *)
Lemma step_total fuel a w :
  2 <= fuel ->
  (forall i s, a = Settle i s -> i < List.length (parked w)) ->
  exists w', step body fuel a w = Some w'.
Proof.
  intros Hfuel Hvalid. destruct fuel as [|[|fuel]]; try lia.
  destruct a as [c|i s].
  - unfold step.
    destruct (run_cmd_cases (emit body (S (S fuel))) c w)
      as [(e & a & -> & E)|E]; rewrite E; [apply emit_total | eauto].
  - unfold step. specialize (Hvalid i s eq_refl).
    apply nth_error_Some in Hvalid.
    destruct (nth_error (parked w) i) as [t|]; [|congruence].
    apply resume_total. intros err ev h w0. apply emit_report_total.
Qed.

End Termination.

(* ================================================================== *)
(** * The promise of an [emit] call *)

Lemma emitPromise_rejected k w error :
  emitPromise k w = RejectedWith error <->
  exists f, find (fun f => Nat.eqb (fl_emit f) k) (failed w) = Some f /\
            fl_error f = error.
Proof.
  unfold emitPromise.
  destruct (find (fun f => Nat.eqb (fl_emit f) k) (failed w)) as [f|].
  - split.
    + intros [= <-]. eauto.
    + intros (f' & [= <-] & <-). reflexivity.
  - split; [|intros (f & H & _); discriminate H].
    destruct (existsb _ _); discriminate.
Qed.

(** The promise is not rejected as long as no fan-out of the call has
    failed. *)
Lemma no_failure_find k w :
  find (fun f => Nat.eqb (fl_emit f) k) (failed w) = None <->
  forall f, In f (failed w) -> fl_emit f <> k.
Proof.
  split.
  - intros H f Hin Hk. apply (find_none _ _ H) in Hin.
    apply Nat.eqb_neq in Hin. contradiction.
  - intros H. destruct (find _ _) as [f|] eqn:E; [|reflexivity].
    apply find_some in E. destruct E as [Hin Hk]. apply Nat.eqb_eq in Hk.
    now apply H in Hin.
Qed.

Lemma emitPromise_pending k w :
  emitPromise k w = Pending <->
  (exists t, In t (parked w) /\ t_emit t = k) /\
  forall f, In f (failed w) -> fl_emit f <> k.
Proof.
  rewrite <- no_failure_find. unfold emitPromise.
  destruct (find (fun f => Nat.eqb (fl_emit f) k) (failed w)) as [f|].
  - split; [discriminate | intros [_ H]; discriminate H].
  - destruct (existsb (fun t => Nat.eqb (t_emit t) k) (parked w)) eqn:E.
    + apply existsb_exists in E. destruct E as (t & Hin & Ht).
      apply Nat.eqb_eq in Ht. split; eauto.
    + split; [discriminate|]. intros [(t & Hin & Ht) _].
      assert (H : existsb (fun t => Nat.eqb (t_emit t) k) (parked w) = true).
      { apply existsb_exists. exists t. split; auto. now apply Nat.eqb_eq. }
      congruence.
Qed.

Lemma emitPromise_resolved k w :
  emitPromise k w = Resolved true <->
  (forall t, In t (parked w) -> t_emit t <> k) /\
  forall f, In f (failed w) -> fl_emit f <> k.
Proof.
  rewrite <- no_failure_find. unfold emitPromise.
  destruct (find (fun f => Nat.eqb (fl_emit f) k) (failed w)) as [f|].
  - split; [discriminate | intros [_ H]; discriminate H].
  - destruct (existsb (fun t => Nat.eqb (t_emit t) k) (parked w)) eqn:E.
    + split; [discriminate|]. intros [H _].
      apply existsb_exists in E. destruct E as (t & Hin & Ht).
      apply Nat.eqb_eq in Ht. now apply H in Hin.
    + split; [|reflexivity]. intros _. split; [|reflexivity].
      intros t Hin Hk.
      assert (H : existsb (fun t => Nat.eqb (t_emit t) k) (parked w) = true).
      { apply existsb_exists. exists t. split; auto. now apply Nat.eqb_eq. }
      congruence.
Qed.

Lemma emitPromise_cases k w :
  emitPromise k w = Pending \/ emitPromise k w = Resolved true \/
  exists error, emitPromise k w = RejectedWith error.
Proof.
  unfold emitPromise. destruct (find _ _); [eauto|].
  destruct (existsb _ _); auto.
Qed.

(** When the promise of an [emit] call is resolved, none of its fan-outs
    is parked and none has failed. *)
Lemma resolved_not_waiting k kind w :
  emitPromise k w = Resolved true ->
  waiting k kind (parked w) = [] /\ abandoned k kind (failed w) = [].
Proof.
  intros H. apply emitPromise_resolved in H. destruct H as [Hp Hf].
  split; [now apply waiting_none | now apply abandoned_none].
Qed.

(* ================================================================== *)
(** * The receiver and the arguments of a handler *)

(** C10, as the code has it: every handler call a dispatcher makes belongs
    to an [emit(e, ...args)] call; a wildcard listener is called with
    [(e, ...args)], a listener of the event [e] with [(...args)]; the
    receiver is the bound context of the record when that context is truthy
    and the dispatcher itself otherwise, that is when no context was given
    or when the one given is a falsy value such as [null], [0], [''] or
    [false]. *)
Theorem handler_arguments_receiver :
  forall body options w iv,
    reachable body options w ->
    In iv (trace w) ->
    exists e args,
      nth_error (emitted w) (iv_emit iv) = Some (e, args) /\
      iv_this iv =
        (if truthy (context (iv_listener iv)) then context (iv_listener iv)
         else VThis) /\
      iv_args iv =
        match iv_kind iv with
        | Wildcard => VStr e :: args
        | Specific => args
        end.
Proof.
  intros body options w iv Hr Hin. apply reachable_history_ok in Hr.
  destruct Hr as [_ (_ & _ & _ & _ & _ & _ & Hc & _)].
  specialize (Hc iv Hin). simpl in Hc. rewrite Nat.sub_0_r in Hc.
  destruct Hc as (e & a & He & Hthis & Hargs); [lia|].
  exists e, a. auto.
Qed.

(* ================================================================== *)
(** * Runs of a dispatcher *)

Lemma steps_reachable body options fuel acts : forall w w',
  reachable body options w -> steps body fuel acts w = Some w' ->
  reachable body options w'.
Proof.
  induction acts as [|a acts IH]; simpl; intros w w' Hr Hs.
  - now injection Hs as <-.
  - destruct (step body fuel a w) as [w1|] eqn:E; [|discriminate].
    eapply IH; [|exact Hs]. econstructor; eauto.
Qed.

(* ================================================================== *)
(** * The keys of the [Map] and the queries *)

Module JsMapKeys.
Import JsMap.
Section WithValue.
Variable V : Type.
Implicit Types (m : t V) (k : string).

Lemma keys_set k v m :
  keys (set k v m) = if has k m then keys m else keys m ++ [k].
Proof.
  unfold has. induction m as [|[k0 v0] m IH]; simpl; [reflexivity|].
  destruct (String.eqb k k0) eqn:E; simpl; [reflexivity|].
  rewrite IH. now destruct (get k m).
Qed.

Lemma keys_delete k m :
  keys (delete k m) = filter (fun k' => negb (String.eqb k k')) (keys m).
Proof.
  induction m as [|[k0 v0] m IH]; simpl; [reflexivity|].
  destruct (String.eqb k k0); simpl; now rewrite IH.
Qed.

Lemma NoDup_keys_set k v m : NoDup (keys m) -> NoDup (keys (set k v m)).
Proof.
  intros H. rewrite keys_set. destruct (has k m) eqn:E; [exact H|].
  apply NoDup_app; [exact H | repeat constructor; intros [] |].
  intros x Hx [<-|[]]. apply JsMapFacts.has_keys in Hx. congruence.
Qed.

Lemma NoDup_keys_delete k m : NoDup (keys m) -> NoDup (keys (delete k m)).
Proof. intros H. rewrite keys_delete. now apply NoDup_filter. Qed.

Lemma get_not_in k m : ~ In k (keys m) -> get k m = None.
Proof.
  intros H. destruct (get k m) eqn:E; [|reflexivity].
  exfalso. apply H. apply JsMapFacts.has_keys. unfold has. now rewrite E.
Qed.

(** With unique keys, the values are what [get] yields for the keys. *)
Lemma get_keys m :
  NoDup (keys m) -> map (fun k => get k m) (keys m) = map Some (values m).
Proof.
  induction m as [|[k0 v0] m IH]; simpl; intros H; [reflexivity|].
  inversion H as [|? ? Hk Hm]; subst. rewrite String.eqb_refl. f_equal.
  rewrite <- IH by exact Hm. apply map_ext_in. intros k Hin.
  destruct (String.eqb k k0) eqn:E; [|reflexivity].
  apply String.eqb_eq in E. subst. contradiction.
Qed.

End WithValue.
End JsMapKeys.

Lemma hub_log m lvl w : hub (log m lvl w) = hub w.
Proof. unfold log. now destruct (debugMode (hub w)). Qed.

Lemma next_id_log m lvl w : next_id (log m lvl w) = next_id w.
Proof. unfold log. now destruct (debugMode (hub w)). Qed.

(** The names that [eventNames] lists after a registration. *)
Lemma eventNames_addListener event h o ctx p w :
  eventNames (addListener event h o ctx p w) =
  if String.eqb event wildcard_token || JsMap.has event (events (hub w))
  then eventNames w else eventNames w ++ [event].
Proof.
  unfold addListener, eventNames.
  destruct (String.eqb event wildcard_token) eqn:Etok; simpl.
  - destruct (negb (wildcardEnabled (hub w))); [reflexivity|].
    destruct (Z.geb _ _); simpl; now rewrite ?hub_log.
  - set (w1 := if Z.geb _ _ then _ else w).
    assert (Hh : hub w1 = hub w).
    { subst w1. destruct (Z.geb _ _); auto using hub_log. }
    clearbody w1. simpl. rewrite Hh.
    destruct (JsMap.has event (events (hub w))) eqn:Ehas.
    + now rewrite JsMapKeys.keys_set, Ehas.
    + rewrite JsMapKeys.keys_set, JsMapFacts.has_set_same.
      now rewrite JsMapKeys.keys_set, Ehas.
Qed.

Lemma NoDup_eventNames_addListener event h o ctx p w :
  NoDup (eventNames w) -> NoDup (eventNames (addListener event h o ctx p w)).
Proof.
  intros H. rewrite eventNames_addListener.
  destruct (String.eqb event wildcard_token); simpl; [exact H|].
  destruct (JsMap.has event (events (hub w))) eqn:E; [exact H|].
  apply NoDup_app; [exact H | repeat constructor; intros [] |].
  intros x Hx [<-|[]]. apply JsMapFacts.has_keys in Hx.
  unfold eventNames in *. congruence.
Qed.

Lemma NoDup_eventNames_off event h w :
  NoDup (eventNames w) -> NoDup (eventNames (off event h w)).
Proof.
  intros H. unfold off. destruct event as [event|]; [|constructor].
  destruct (String.eqb event wildcard_token && wildcardEnabled (hub w));
    [now destruct h|].
  destruct h as [h|].
  - destruct (JsMap.get event (events (hub w))); [|exact H].
    now apply JsMapKeys.NoDup_keys_set.
  - now apply JsMapKeys.NoDup_keys_delete.
Qed.

Lemma NoDup_eventNames_apply_cmd c w :
  NoDup (eventNames w) -> NoDup (eventNames (apply_cmd c w)).
Proof.
  destruct c; simpl; intros H; auto using NoDup_eventNames_off;
    try (now apply NoDup_eventNames_addListener).
  constructor.
Qed.

Lemma NoDup_eventNames_removeOnce kind event l w :
  NoDup (eventNames w) -> NoDup (eventNames (removeOnce kind event l w)).
Proof.
  intros H. unfold removeOnce. destruct (once l); [|exact H].
  destruct kind; [exact H|]. now apply JsMapKeys.NoDup_keys_set.
Qed.

Lemma reachable_NoDup body options w :
  reachable body options w -> NoDup (eventNames w).
Proof.
  intros H.
  apply (@reachable_kept body (fun w => NoDup (eventNames w))) in H;
    [exact (proj2 H)|..]; intros;
    auto using NoDup_eventNames_apply_cmd, NoDup_eventNames_removeOnce.
  - unfold eventNames. now rewrite hub_log.
  - constructor.
Qed.

(** The loop of [getTotalListenerCount]. *)
Lemma fold_count (vs : list (list Listener)) n :
  fold_left (fun count listeners => count + List.length listeners) vs n =
  n + list_sum (map (@List.length Listener) vs).
Proof.
  revert n. induction vs as [|v vs IH]; simpl; intros n; [lia|].
  rewrite IH. lia.
Qed.

Lemma total_count w :
  getTotalListenerCount w =
  List.length (wildcardListeners (hub w)) +
  list_sum (map (@List.length Listener) (JsMap.values (events (hub w)))).
Proof. apply fold_count. Qed.

Lemma sum_values_set k (v : list Listener) m :
  list_sum (map (@List.length Listener) (JsMap.values (JsMap.set k v m))) +
  List.length (orElse (JsMap.get k m) []) =
  list_sum (map (@List.length Listener) (JsMap.values m)) + List.length v.
Proof.
  induction m as [|[k0 v0] m IH]; simpl; [lia|].
  destruct (String.eqb k k0); simpl; lia.
Qed.

(** X1: what the three queries say of one world a dispatcher can reach.
    [eventNames()] lists no name twice and never lists the wildcard token,
    even while wildcard listeners are registered; for every other name,
    [hasEvent] is membership in [eventNames()]; for the wildcard token,
    [hasEvent] says that a wildcard listener is registered; and an event
    with a positive [listenerCount] is one that [hasEvent] reports. *)
Theorem queries_agree :
  forall body options w,
    reachable body options w ->
    NoDup (eventNames w) /\
    ~ In wildcard_token (eventNames w) /\
    (forall e, e <> wildcard_token ->
       (hasEvent e w = true <-> In e (eventNames w))) /\
    (hasEvent wildcard_token w = true <-> 0 < listenerCount wildcard_token w) /\
    (forall e, 0 < listenerCount e w -> hasEvent e w = true).
Proof.
  intros body options w Hr. pose proof (reachable_NoDup Hr) as Hnd.
  apply reachable_world_ok in Hr. destruct Hr as [(_ & _ & Hstar & Hoff) _].
  split; [exact Hnd|]. split; [|split; [|split]].
  - intros Hin. apply JsMapFacts.has_keys in Hin. congruence.
  - intros e Hne. unfold hasEvent.
    apply String.eqb_neq in Hne. rewrite Hne. simpl.
    apply JsMapFacts.has_keys.
  - unfold hasEvent, listenerCount. rewrite String.eqb_refl. simpl.
    destruct (wildcardEnabled (hub w)).
    + destruct (wildcardListeners (hub w)); simpl; split;
        intros H; try lia; try discriminate; reflexivity.
    + rewrite Hstar. unfold JsMap.has in Hstar.
      destruct (JsMap.get wildcard_token (events (hub w))); [discriminate|].
      split; [discriminate | lia].
  - intros e. unfold hasEvent, listenerCount.
    destruct (String.eqb e wildcard_token && wildcardEnabled (hub w)).
    + destruct (wildcardListeners (hub w)); simpl; [lia | reflexivity].
    + unfold JsMap.has. destruct (JsMap.get e (events (hub w))); [reflexivity | lia].
Qed.

(** X2: in every world a dispatcher can reach, the total that
    [getTotalListenerCount] compares with the limit is the sum of what
    [listenerCount] reports for the wildcard token and for each of the
    names of [eventNames()]. *)
Theorem total_is_sum_of_counts :
  forall body options w,
    reachable body options w ->
    getTotalListenerCount w =
    listenerCount wildcard_token w +
    list_sum (map (fun e => listenerCount e w) (eventNames w)).
Proof.
  intros body options w Hr. pose proof (reachable_NoDup Hr) as Hnd.
  apply reachable_world_ok in Hr. destruct Hr as [(_ & _ & Hstar & Hoff) _].
  rewrite total_count. f_equal.
  - unfold listenerCount. rewrite String.eqb_refl. simpl.
    destruct (wildcardEnabled (hub w)) eqn:Een; [reflexivity|].
    rewrite (Hoff eq_refl). unfold JsMap.has in Hstar.
    now destruct (JsMap.get wildcard_token (events (hub w))).
  - f_equal. unfold eventNames in *.
    assert (Hcount : forall e, In e (JsMap.keys (events (hub w))) ->
              listenerCount e w =
              List.length (orElse (JsMap.get e (events (hub w))) [])).
    { intros e Hin. unfold listenerCount.
      destruct (String.eqb e wildcard_token) eqn:E; simpl.
      - apply String.eqb_eq in E. subst e.
        apply JsMapFacts.has_keys in Hin. congruence.
      - now destruct (JsMap.get e (events (hub w))). }
    rewrite (map_ext_in _ _ _ Hcount).
    change (fun e => List.length (orElse (JsMap.get e (events (hub w))) []))
      with (fun e => (fun o => List.length (orElse o []))
                       ((fun k => JsMap.get k (events (hub w))) e)).
    rewrite <- (map_map (fun k => JsMap.get k (events (hub w)))
                        (fun o => List.length (orElse o []))).
    rewrite JsMapKeys.get_keys by exact Hnd.
    rewrite map_map. reflexivity.
Qed.

(* ================================================================== *)
(** * Clearing the registry *)

(** X3: [reset()] and [off()] without an event name are the same call.  It
    leaves no event name, no listener for any event and a total count of 0;
    the limit, the switches, the console and the fan-outs that are parked at
    an [await] are left as they are. *)
Theorem reset_clears_registry :
  forall w h,
    off None h w = reset w /\
    eventNames (reset w) = [] /\
    getTotalListenerCount (reset w) = 0 /\
    (forall e, listenerCount e (reset w) = 0 /\ hasEvent e (reset w) = false) /\
    switches (reset w) = switches w /\
    maxListeners (hub (reset w)) = maxListeners (hub w) /\
    console (reset w) = console w /\
    parked (reset w) = parked w.
Proof.
  intros w h. repeat split.
  - unfold listenerCount. simpl.
    now destruct (String.eqb e wildcard_token && wildcardEnabled (hub w)).
  - unfold hasEvent. simpl.
    now destruct (String.eqb e wildcard_token && wildcardEnabled (hub w)).
Qed.

(** The sequences after [off(e, h)]. *)
Lemma off_handler_sequences e h w e' :
  sequence_of e' (off (Some e) (Some h) w) =
  if String.eqb e' e then filter (other_handler h) (sequence_of e w)
  else sequence_of e' w.
Proof.
  unfold off, sequence_of.
  destruct (String.eqb e' e) eqn:Ee.
  - apply String.eqb_eq in Ee. subst e'.
    destruct (String.eqb e wildcard_token && wildcardEnabled (hub w)) eqn:Eg;
      simpl.
    + now rewrite Eg.
    + destruct (JsMap.get e (events (hub w))) as [ls|] eqn:Eget; simpl.
      * now rewrite Eg, JsMapFacts.get_set_same.
      * now rewrite Eg, Eget.
  - apply String.eqb_neq in Ee.
    destruct (String.eqb e wildcard_token && wildcardEnabled (hub w)) eqn:Eg;
      simpl.
    + apply andb_prop in Eg. destruct Eg as [Eg _].
      apply String.eqb_eq in Eg. subst e. apply String.eqb_neq in Ee.
      now rewrite Ee.
    + destruct (JsMap.get e (events (hub w))) as [ls|] eqn:Eget; simpl;
        [|reflexivity].
      destruct (String.eqb e' wildcard_token && wildcardEnabled (hub w));
        [reflexivity|].
      now rewrite JsMapFacts.get_set_other.
Qed.

(** X4: [off(e)] without a handler removes the whole sequence of [e] and
    nothing else.  For a named event it deletes the key, so that
    [hasEvent(e)] is false and [eventNames()] lists the other names in the
    order they had; for the wildcard token of a dispatcher with wildcard
    support it empties the wildcard list and leaves the named events
    alone.  The sequence of every other event name is unchanged. *)
Theorem off_event_removes_whole_sequence :
  forall e w,
    let w' := off (Some e) None w in
    sequence_of e w' = [] /\
    listenerCount e w' = 0 /\
    hasEvent e w' = false /\
    (forall e', e' <> e -> sequence_of e' w' = sequence_of e' w) /\
    (String.eqb e wildcard_token && wildcardEnabled (hub w) = false ->
       eventNames w' =
         filter (fun e' => negb (String.eqb e e')) (eventNames w) /\
       wildcardListeners (hub w') = wildcardListeners (hub w)) /\
    (String.eqb e wildcard_token && wildcardEnabled (hub w) = true ->
       events (hub w') = events (hub w)).
Proof.
  intros e w w'. subst w'.
  unfold off, sequence_of, listenerCount, hasEvent, eventNames.
  destruct (String.eqb e wildcard_token && wildcardEnabled (hub w)) eqn:Eg;
    simpl; rewrite Eg.
  - repeat split; auto; try discriminate.
    intros e' Hne. apply andb_prop in Eg. destruct Eg as [Eg _].
    apply String.eqb_eq in Eg. subst e. apply String.eqb_neq in Hne.
    now rewrite Hne.
  - rewrite JsMapFacts.get_delete_same, JsMapFacts.has_delete_same.
    repeat split; auto; try discriminate.
    + intros e' Hne.
      destruct (String.eqb e' wildcard_token && wildcardEnabled (hub w));
        [reflexivity|].
      now rewrite JsMapFacts.get_delete_other.
    + apply JsMapKeys.keys_delete.
Qed.

(* ================================================================== *)
(** * What a registration changes *)

Lemma maxListeners_log m lvl w :
  maxListeners (hub (log m lvl w)) = maxListeners (hub w).
Proof. now rewrite hub_log. Qed.

(** [addListener] up to the insertion: the warning. *)
Lemma addListener_warned event h o ctx p w :
  String.eqb event wildcard_token && negb (wildcardEnabled (hub w)) = false ->
  exists w1,
    hub w1 = hub w /\ next_id w1 = next_id w /\ history w1 = history w /\
    console w1 =
      console w ++
      (if debugMode (hub w) &&
          Z.geb (Z.of_nat (getTotalListenerCount w)) (maxListeners (hub w))
       then [warning_line w] else []) /\
    addListener event h o ctx p w =
      let listener := mkListener (next_id w) h o p ctx in
      if String.eqb event wildcard_token
      then with_hub (fun hb =>
             set_wildcardListeners
               (insertListenerByPriority (wildcardListeners hb) listener) hb)
             (alloc w1)
      else with_hub (fun hb =>
             let ev := if JsMap.has event (events hb) then events hb
                       else JsMap.set event [] (events hb) in
             set_events
               (JsMap.set event
                  (insertListenerByPriority (orElse (JsMap.get event ev) [])
                                            listener) ev) hb)
             (alloc w1).
Proof.
  intros Hgate. unfold addListener. rewrite Hgate.
  destruct (Z.geb (Z.of_nat (getTotalListenerCount w)) (maxListeners (hub w)))
    eqn:Ege.
  - exists (log (MaxListenersExceededWarning (maxListeners (hub w))) LWarn w).
    rewrite hub_log, next_id_log, history_log, andb_true_r.
    repeat split; auto. unfold log, warning_line.
    destruct (debugMode (hub w)); simpl; [reflexivity | now rewrite app_nil_r].
  - exists w. rewrite andb_false_r, app_nil_r. repeat split; auto.
Qed.

Lemma addListener_frame event h o ctx p w e' :
  e' <> event ->
  sequence_of e' (addListener event h o ctx p w) = sequence_of e' w.
Proof.
  intros Hne.
  destruct (String.eqb event wildcard_token && negb (wildcardEnabled (hub w)))
    eqn:Hgate; [now rewrite addListener_gate|].
  destruct (addListener_warned event h o ctx p w Hgate)
    as (w1 & Hh & _ & _ & _ & ->). cbv zeta. unfold sequence_of.
  destruct (String.eqb event wildcard_token) eqn:Etok; simpl; rewrite Hh.
  - apply String.eqb_eq in Etok. subst event. apply String.eqb_neq in Hne.
    now rewrite Hne.
  - destruct (String.eqb e' wildcard_token && wildcardEnabled (hub w));
      [reflexivity|].
    rewrite JsMapFacts.get_set_other by exact Hne.
    destruct (JsMap.has event (events (hub w))); [reflexivity|].
    now rewrite JsMapFacts.get_set_other.
Qed.

Lemma addListener_total event h o ctx p w :
  String.eqb event wildcard_token && negb (wildcardEnabled (hub w)) = false ->
  getTotalListenerCount (addListener event h o ctx p w) =
  S (getTotalListenerCount w).
Proof.
  intros Hgate.
  destruct (addListener_warned event h o ctx p w Hgate)
    as (w1 & Hh & _ & _ & _ & ->). cbv zeta. rewrite !total_count.
  destruct (String.eqb event wildcard_token); simpl; rewrite Hh.
  - rewrite length_insert. reflexivity.
  - set (new := mkListener (next_id w) h o p ctx).
    destruct (JsMap.has event (events (hub w))) eqn:Ehas.
    + pose proof (sum_values_set event
                    (insertListenerByPriority
                       (orElse (JsMap.get event (events (hub w))) []) new)
                    (events (hub w))) as E.
      rewrite length_insert in E. lia.
    + assert (Eg : JsMap.get event (events (hub w)) = None).
      { unfold JsMap.has in Ehas.
        now destruct (JsMap.get event (events (hub w))). }
      pose proof (sum_values_set event [] (events (hub w))) as E1.
      rewrite Eg in E1. simpl in E1.
      pose proof (sum_values_set event
                    (insertListenerByPriority
                       (orElse (JsMap.get event
                                  (JsMap.set event [] (events (hub w)))) [])
                       new)
                    (JsMap.set event [] (events (hub w)))) as E2.
      rewrite length_insert in E2.
      rewrite JsMapFacts.get_set_same in E2 |- *. simpl in E2.
      unfold orElse. lia.
Qed.

Lemma maxListeners_addListener event h o ctx p w :
  maxListeners (hub (addListener event h o ctx p w)) = maxListeners (hub w).
Proof.
  destruct (String.eqb event wildcard_token && negb (wildcardEnabled (hub w)))
    eqn:Hgate; [now rewrite addListener_gate|].
  destruct (addListener_warned event h o ctx p w Hgate)
    as (w1 & Hh & _ & _ & _ & ->). cbv zeta.
  destruct (String.eqb event wildcard_token); simpl; now rewrite Hh.
Qed.

Lemma console_addListener event h o ctx p w :
  String.eqb event wildcard_token && negb (wildcardEnabled (hub w)) = false ->
  console (addListener event h o ctx p w) =
  console w ++
  (if debugMode (hub w) &&
      Z.geb (Z.of_nat (getTotalListenerCount w)) (maxListeners (hub w))
   then [warning_line w] else []).
Proof.
  intros Hgate.
  destruct (addListener_warned event h o ctx p w Hgate)
    as (w1 & _ & _ & _ & Hc & ->). cbv zeta.
  destruct (String.eqb event wildcard_token); simpl; exact Hc.
Qed.

(** X5: a registration that passes the wildcard gate adds exactly one
    record.  The total count grows by one and one record more is allocated;
    [hasEvent] reports the event; the sequence of every other event name is
    unchanged; a name that is new goes to the end of [eventNames()], which
    never lists the wildcard token; the limit and the switches stay. *)
Theorem registration_adds_one_record :
  forall event h o ctx p w,
    String.eqb event wildcard_token && negb (wildcardEnabled (hub w)) = false ->
    let w' := addListener event h o ctx p w in
    getTotalListenerCount w' = S (getTotalListenerCount w) /\
    next_id w' = S (next_id w) /\
    hasEvent event w' = true /\
    (forall e', e' <> event -> sequence_of e' w' = sequence_of e' w) /\
    eventNames w' =
      (if String.eqb event wildcard_token ||
          JsMap.has event (events (hub w))
       then eventNames w else eventNames w ++ [event]) /\
    switches w' = switches w /\
    maxListeners (hub w') = maxListeners (hub w).
Proof.
  intros event h o ctx p w Hgate w'. subst w'.
  split; [now apply addListener_total|].
  split; [|split; [|split; [|split; [|split]]]].
  - destruct (addListener_warned event h o ctx p w Hgate)
      as (w1 & _ & Hn & _ & _ & ->). cbv zeta.
    destruct (String.eqb event wildcard_token); simpl; now rewrite Hn.
  - pose proof (addListener_sequence event h o ctx p w Hgate) as Hseq.
    pose proof (switches_addListener event h o ctx p w) as Hsw.
    assert (Hen : wildcardEnabled (hub (addListener event h o ctx p w)) =
                  wildcardEnabled (hub w)).
    { unfold switches in Hsw. congruence. }
    unfold sequence_of in Hseq. unfold hasEvent. rewrite Hen in *.
    destruct (String.eqb event wildcard_token && wildcardEnabled (hub w)).
    + rewrite Hseq, length_insert. reflexivity.
    + unfold JsMap.has.
      destruct (JsMap.get event (events (hub (addListener event h o ctx p w))))
        eqn:Eg; [reflexivity|].
      simpl in Hseq.
      pose proof (length_insert (orElse (JsMap.get event (events (hub w))) [])
                    (mkListener (next_id w) h o p ctx)) as Hl.
      rewrite <- Hseq in Hl. discriminate.
  - intros e' Hne. now apply addListener_frame.
  - apply eventNames_addListener.
  - apply switches_addListener.
  - apply maxListeners_addListener.
Qed.

Lemma filter_insert_dropped (p : Listener -> bool) ls new :
  p new = false ->
  filter p (insertListenerByPriority ls new) = filter p ls.
Proof.
  intros Hp. induction ls as [|x r IH].
  - rewrite insert_nil. simpl. now rewrite Hp.
  - rewrite insert_cons. destruct (Z.ltb (priority x) (priority new)); simpl.
    + now rewrite Hp.
    + now rewrite IH.
Qed.

Lemma filter_all (A : Type) (p : A -> bool) l :
  (forall x, In x l -> p x = true) -> filter p l = l.
Proof.
  induction l as [|x l IH]; simpl; intros H; [reflexivity|].
  rewrite (H x) by now left. f_equal. apply IH. intros y Hy. apply H. now right.
Qed.

(** X6: registering a handler and removing it again gives back every
    listener sequence.  When no record of the sequence of [e] has the
    handler [h], [off(e, h)] after [on(e, h)] or [once(e, h)] leaves each
    event name, [e] included, with the sequence it had; what stays behind is
    the key of a named event that was new, which [eventNames()] now
    lists. *)
Theorem on_off_round_trip :
  forall (one_shot : bool) e h ctx p w,
    (forall l, In l (sequence_of e w) -> handler l <> h) ->
    let register := if one_shot then once_ else on in
    let w' := off (Some e) (Some h) (register e h ctx p w) in
    (forall e', sequence_of e' w' = sequence_of e' w) /\
    eventNames w' =
      (if (String.eqb e wildcard_token || JsMap.has e (events (hub w)))%bool
       then eventNames w else eventNames w ++ [e]).
Proof.
  intros one_shot e h ctx p w Hfree register w'.
  assert (Hreg : register e h ctx p w =
                 addListener e h one_shot ctx (orElse p 0%Z) w).
  { subst register. now destruct one_shot. }
  subst w'. rewrite Hreg. clear Hreg register.
  set (w1 := addListener e h one_shot ctx (orElse p 0%Z) w).
  assert (Hkeep : filter (other_handler h) (sequence_of e w) = sequence_of e w).
  { apply filter_all. intros l Hl. unfold other_handler.
    apply negb_true_iff. apply Nat.eqb_neq. now apply Hfree. }
  assert (Hseq : filter (other_handler h) (sequence_of e w1) = sequence_of e w).
  { subst w1.
    destruct (String.eqb e wildcard_token && negb (wildcardEnabled (hub w)))
      eqn:Hgate.
    - now rewrite addListener_gate.
    - rewrite addListener_sequence by exact Hgate.
      rewrite filter_insert_dropped; [exact Hkeep|].
      unfold other_handler. simpl. now rewrite Nat.eqb_refl. }
  split.
  - intros e'. rewrite off_handler_sequences.
    destruct (String.eqb e' e) eqn:Ee.
    + apply String.eqb_eq in Ee. subst e'. exact Hseq.
    + apply String.eqb_neq in Ee. subst w1. now apply addListener_frame.
  - assert (Hnames : eventNames (off (Some e) (Some h) w1) = eventNames w1).
    { unfold off, eventNames.
      destruct (String.eqb e wildcard_token && wildcardEnabled (hub w1));
        [reflexivity|].
      destruct (JsMap.get e (events (hub w1))) eqn:Eg; [|reflexivity].
      simpl. rewrite JsMapKeys.keys_set. unfold JsMap.has. now rewrite Eg. }
    rewrite Hnames. subst w1. apply eventNames_addListener.
Qed.

(* ================================================================== *)
(** * The console *)

Lemma registers_addListener w c :
  registers w c = true ->
  exists event h o ctx p,
    apply_cmd c w = addListener event h o ctx p w /\
    String.eqb event wildcard_token && negb (wildcardEnabled (hub w)) = false.
Proof.
  destruct c as [ev h ctx p|ev h ctx p| | | |]; simpl; try discriminate;
    intros H; apply negb_true_iff in H.
  - exists ev, h, false, ctx, (orElse p 0%Z). auto.
  - exists ev, h, true, ctx, (orElse p 0%Z). auto.
Qed.

(** X7: the limit counts registrations, and in debug mode every
    registration made at or above it prints one warning.  When a client
    makes [n] registrations in a row on a dispatcher in debug mode that
    holds [t] listeners under the limit [m], the first [m - t] of them (none
    if [t >= m]) print nothing and each of the others prints the warning,
    with the namespace of the dispatcher and the limit; the dispatcher then
    holds [t + n] listeners. *)
Theorem warnings_past_the_limit :
  forall cs w,
    debugMode (hub w) = true ->
    Forall (fun c => registers w c = true) cs ->
    let w' := run_client cs w in
    let quiet :=
      Z.to_nat (maxListeners (hub w) - Z.of_nat (getTotalListenerCount w)) in
    console w' =
      console w ++ repeat (warning_line w) (List.length cs - quiet) /\
    getTotalListenerCount w' = getTotalListenerCount w + List.length cs.
Proof.
  intros cs. induction cs as [|c cs IH]; intros w Hdebug Hcs; cbv zeta.
  - simpl. rewrite app_nil_r. split; [reflexivity | lia].
  - inversion Hcs as [|? ? Hc Hrest]; subst.
    destruct (registers_addListener w c Hc)
      as (event & h & o & ctx & p & Happ & Hgate).
    change (run_client (c :: cs) w) with (run_client cs (apply_cmd c w)).
    change (List.length (c :: cs)) with (S (List.length cs)).
    rewrite Happ.
    set (w1 := addListener event h o ctx p w).
    pose proof (switches_addListener event h o ctx p w) as Hsw.
    fold w1 in Hsw. unfold switches in Hsw.
    assert (Hd1 : debugMode (hub w1) = true) by congruence.
    assert (Hen : wildcardEnabled (hub w1) = wildcardEnabled (hub w))
      by congruence.
    assert (Hns : namespace (hub w1) = namespace (hub w)) by congruence.
    pose proof (maxListeners_addListener event h o ctx p w) as Hmax.
    fold w1 in Hmax.
    pose proof (addListener_total event h o ctx p w Hgate) as Htot.
    fold w1 in Htot.
    pose proof (console_addListener event h o ctx p w Hgate) as Hcon.
    fold w1 in Hcon. rewrite Hdebug in Hcon. simpl in Hcon.
    assert (Hcs1 : Forall (fun c0 => registers w1 c0 = true) cs).
    { eapply Forall_impl; [|exact Hrest]. intros c0.
      unfold registers. now rewrite Hen. }
    destruct (IH w1 Hd1 Hcs1) as [Hcons Hcount]. cbv zeta in Hcons, Hcount.
    split; [|rewrite Hcount, Htot; lia].
    rewrite Hcons, Hcon, Hmax, Htot.
    assert (Hline : warning_line w1 = warning_line w).
    { unfold warning_line. now rewrite Hns, Hmax. }
    rewrite Hline, <- app_assoc. f_equal.
    destruct (Z.geb (Z.of_nat (getTotalListenerCount w)) (maxListeners (hub w)))
      eqn:Ege.
    + apply Z.geb_le in Ege.
      replace (S (List.length cs) -
               Z.to_nat (maxListeners (hub w) -
                         Z.of_nat (getTotalListenerCount w)))
        with (S (List.length cs -
                 Z.to_nat (maxListeners (hub w) -
                           Z.of_nat (S (getTotalListenerCount w))))) by lia.
      reflexivity.
    + assert (Hlt : (Z.of_nat (getTotalListenerCount w) <
                     maxListeners (hub w))%Z).
      { destruct (Z.geb_spec (Z.of_nat (getTotalListenerCount w))
                             (maxListeners (hub w))); [discriminate | lia]. }
      rewrite app_nil_l. f_equal. lia.
Qed.

Lemma printed_by_same w w' lines :
  switches w' = switches w -> printed_by w lines -> printed_by w' lines.
Proof.
  unfold switches, printed_by. intros E [H1 H2].
  assert (Hd : debugMode (hub w') = debugMode (hub w)) by congruence.
  assert (Hn : namespace (hub w') = namespace (hub w)) by congruence.
  rewrite Hd, Hn. auto.
Qed.

Lemma printed_by_log m lvl w :
  printed_by w (console w) -> printed_by (log m lvl w) (console (log m lvl w)).
Proof.
  intros [H1 H2]. unfold log, printed_by.
  destruct (debugMode (hub w)) eqn:Ed; simpl; [|now rewrite Ed].
  rewrite Ed. split; [discriminate|].
  apply Forall_app. split; [exact H2|]. repeat constructor.
Qed.

Lemma printed_by_addListener event h o ctx p w :
  printed_by w (console w) ->
  printed_by (addListener event h o ctx p w)
             (console (addListener event h o ctx p w)).
Proof.
  intros H.
  destruct (String.eqb event wildcard_token && negb (wildcardEnabled (hub w)))
    eqn:Hgate; [now rewrite addListener_gate|].
  apply printed_by_same with (w := w); [apply switches_addListener|].
  rewrite console_addListener by exact Hgate.
  destruct H as [H1 H2]. unfold printed_by.
  destruct (debugMode (hub w)) eqn:Ed; simpl.
  - split; [discriminate|]. apply Forall_app. split; [exact H2|].
    destruct (Z.geb _ _); repeat constructor.
  - rewrite app_nil_r. auto.
Qed.

Lemma console_off event h w : console (off event h w) = console w.
Proof.
  unfold off. destruct event as [event|]; [|reflexivity].
  destruct (String.eqb event wildcard_token && wildcardEnabled (hub w));
    destruct h; try reflexivity.
  now destruct (JsMap.get event (events (hub w))).
Qed.

Lemma printed_by_apply_cmd c w :
  printed_by w (console w) ->
  printed_by (apply_cmd c w) (console (apply_cmd c w)).
Proof.
  intros H. destruct c; simpl; auto using printed_by_addListener.
  - apply printed_by_addListener, H.
  - apply printed_by_addListener, H.
  - rewrite console_off. eapply printed_by_same; [apply switches_off | exact H].
Qed.

Lemma printed_by_removeOnce kind event l w :
  printed_by w (console w) ->
  printed_by (removeOnce kind event l w) (console (removeOnce kind event l w)).
Proof.
  intros H. unfold removeOnce. destruct (once l); [destruct kind|]; exact H.
Qed.

Lemma reachable_printed body options w :
  reachable body options w -> printed_by w (console w).
Proof.
  intros H.
  apply (@reachable_kept body (fun w => printed_by w (console w))) in H;
    [exact (proj2 H)|..]; intros;
    auto using printed_by_apply_cmd, printed_by_log, printed_by_removeOnce.
  split; [reflexivity | constructor].
Qed.

(** X8: a dispatcher prints only in debug mode and only under its own
    namespace.  In every world a dispatcher built without the debug option
    can reach, whatever was registered, emitted or thrown, the console is
    empty; and every line that a dispatcher in debug mode has printed
    carries the namespace it was built with. *)
Theorem console_only_in_debug_mode :
  forall body options w,
    reachable body options w ->
    (orElse (opt_debug options) false = false -> console w = []) /\
    (forall line, In line (console w) ->
       line_namespace line = opt_namespace options).
Proof.
  intros body options w Hr.
  pose proof (reachable_switches Hr) as Hsw.
  apply reachable_printed in Hr. destruct Hr as [H1 H2].
  unfold switches, construct in Hsw. simpl in Hsw.
  assert (Hd : debugMode (hub w) = orElse (opt_debug options) false)
    by congruence.
  assert (Hn : namespace (hub w) = opt_namespace options) by congruence.
  split.
  - intros Hoff. apply H1. congruence.
  - intros line Hin. rewrite Forall_forall in H2. rewrite <- Hn. now apply H2.
Qed.

(* ================================================================== *)
(** * Namespaces *)

(** X9: the dispatcher that [createNamespace(ns)] returns starts with an
    empty registry of its own and with the limit that its parent has at
    that moment; in every world it can reach it has the switches of its
    parent (wildcard support, asynchronous mode, debug mode) and the
    namespace [ns], which replaces the namespace of the parent, and every
    line it prints carries [ns]. *)
Theorem namespace_inherits_configuration :
  forall body ns parent w,
    reachable body (namespace_options ns parent) w ->
    eventNames (createNamespace ns parent) = [] /\
    getTotalListenerCount (createNamespace ns parent) = 0 /\
    maxListeners (hub (createNamespace ns parent)) = maxListeners (hub parent) /\
    switches w =
      (wildcardEnabled (hub parent), asyncEnabled (hub parent),
       debugMode (hub parent), Some ns) /\
    (forall line, In line (console w) -> line_namespace line = Some ns).
Proof.
  intros body ns parent w Hr.
  pose proof (reachable_switches Hr) as Hsw.
  apply reachable_printed in Hr. destruct Hr as [_ H2].
  repeat split; auto.
  intros line Hin. rewrite Forall_forall in H2.
  rewrite (H2 line Hin). unfold switches in Hsw. simpl in Hsw. congruence.
Qed.

(* ================================================================== *)
(** * Waiting for the promises of handlers *)

Lemma waiting_nil k kind : waiting k kind [] = [].
Proof. reflexivity. Qed.

Lemma reachable_never_parks body options w :
  reachable body options w ->
  asyncEnabled (hub w) = false -> parked w = [].
Proof.
  intros H.
  apply (@reachable_kept body
           (fun w => asyncEnabled (hub w) = false -> parked w = [])) in H;
    [exact (proj2 H)|..].
  - intros h w0 this args c w1 _ _ HP Hoff.
    rewrite parked_apply_cmd. apply HP.
    pose proof (switches_apply_cmd c w1) as Hsw. unfold switches in Hsw.
    congruence.
  - intros m lvl w1 _ HP Hoff. rewrite parked_log. apply HP.
    now rewrite hub_log in Hoff.
  - intros kind event l w1 _ _ HP Hoff. rewrite parked_removeOnce. apply HP.
    pose proof (switches_removeOnce kind event l w1) as Hsw.
    unfold switches in Hsw. congruence.
  - intros iv w1 HP. exact HP.
  - intros fs w1 HP. exact HP.
  - intros e a w1 HP. exact HP.
  - intros t w1 Hon _ Hoff. simpl in Hoff. congruence.
  - intros f w1 _ _ HP. exact HP.
  - intros c w1 _ HP Hoff. rewrite parked_apply_cmd. apply HP.
    pose proof (switches_apply_cmd c w1) as Hsw. unfold switches in Hsw.
    congruence.
  - intros i w1 HP Hoff. simpl in *. rewrite (HP Hoff).
    now rewrite ?firstn_nil, ?skipn_nil.
  - reflexivity.
Qed.

(** The only error a fan-out fails with is the [TypeError] of the
    conversion in [handleError]. *)
Lemma reachable_failures body options w :
  reachable body options w ->
  Forall (fun f => fl_error f = VTypeError) (failed w).
Proof.
  intros H.
  apply (@reachable_kept body
           (fun w => Forall (fun f => fl_error f = VTypeError) (failed w)))
    in H; [exact (proj2 H)|..].
  - intros h w0 this args c w1 _ _ HP.
    now rewrite (failed_history (history_apply_cmd c w1)).
  - intros m lvl w1 _ HP. now rewrite (failed_history (history_log m lvl w1)).
  - intros kind event l w1 _ _ HP.
    now rewrite (failed_history (history_removeOnce kind event l w1)).
  - intros iv w1 HP. exact HP.
  - intros fs w1 HP. exact HP.
  - intros e a w1 HP. exact HP.
  - intros t w1 _ HP. exact HP.
  - intros f w1 Hf _ HP. simpl. apply Forall_app. split; [exact HP|].
    constructor; [exact Hf | constructor].
  - intros c w1 _ HP.
    now rewrite (failed_history (history_apply_cmd c w1)).
  - intros i w1 HP. exact HP.
  - constructor.
Qed.

(** ** Handlers whose errors can be printed *)

Section Printable.

Variable body : Handler -> World -> Val -> list Val -> Script.

Hypothesis body_printable : throws_printable body.

Section OneLevel.

Variable emit_rec : string -> list Val -> World -> option World.

Hypothesis emit_rec_same : forall e a w w',
  emit_rec e a w = Some w' -> failed w' = failed w.

Lemma run_calls_failed cs : forall w w',
  run_calls emit_rec cs w = Some w' -> failed w' = failed w.
Proof.
  induction cs as [|c cs IH]; simpl; intros w w' Hr.
  - now injection Hr as <-.
  - destruct (run_cmd emit_rec c w) as [w1|] eqn:Ec; [|discriminate].
    rewrite (IH _ _ Hr).
    destruct (run_cmd_cases emit_rec c w) as [(e & a & -> & E)|E];
      rewrite E in Ec.
    + eapply emit_rec_same; eauto.
    + injection Ec as <-. apply failed_history, history_apply_cmd.
Qed.

Lemma call_handler_failed k kind e a l w w' o :
  call_handler body emit_rec k kind e a l w = Some (w', o) ->
  failed w' = failed w /\
  forall error, o = Throw error -> stringifiable error = true.
Proof.
  unfold call_handler. intros Hc.
  destruct (run_calls _ _ _) as [w2|] eqn:Er; [|discriminate].
  injection Hc as <- <-. split.
  - now rewrite (run_calls_failed _ _ Er).
  - intros error Ho. eapply body_printable; eauto.
Qed.

Lemma handleError_failed error event h w c :
  stringifiable error = true ->
  handleError emit_rec error event h w = Some c ->
  exists w', c = Returns w' /\ failed w' = failed w.
Proof.
  unfold handleError. intros Hs He. rewrite Hs in He.
  destruct (JsMap.has error_event (events (hub w))).
  - destruct (emit_rec _ _ _) as [w1|] eqn:Ee; [|discriminate].
    injection He as <-. exists w1. split; [reflexivity|].
    eapply emit_rec_same; eauto.
  - injection He as <-. eexists. split; [reflexivity|].
    apply failed_history, history_log.
Qed.

Lemma fanout_failed k kind e a ls : forall w w',
  fanout body emit_rec k kind e a ls w = Some w' -> failed w' = failed w.
Proof.
  induction ls as [|l rest IH]; simpl; intros w w' Hf.
  - now injection Hf as <-.
  - destruct (call_handler _ _ _ _ _ _ _ _) as [[w1 o]|] eqn:Ec;
      [|discriminate].
    destruct (call_handler_failed _ _ _ _ _ _ Ec) as [H1 Hprint].
    assert (Hrm : failed (removeOnce kind e l w1) = failed w).
    { rewrite <- H1. apply failed_history, history_removeOnce. }
    destruct o as [| |error].
    + now rewrite (IH _ _ Hf).
    + destruct (asyncEnabled (hub w1)); [|now rewrite (IH _ _ Hf)].
      now injection Hf as <-.
    + destruct (handleError _ _ _ _ _) as [c|] eqn:Eh; [|discriminate].
      destruct (handleError_failed _ _ _ _ (Hprint _ eq_refl) Eh)
        as (w2 & -> & H2).
      rewrite (IH _ _ Hf). congruence.
Qed.

Lemma emit_body_failed e a w w' :
  emit_body body emit_rec e a w = Some w' -> failed w' = failed w.
Proof.
  unfold emit_body. cbv zeta. intros He.
  set (w0 := record_emit e a w) in *.
  destruct (if wildcardEnabled (hub w0) then _ else Some w0)
    as [w1|] eqn:Ew; [|discriminate].
  assert (H1 : failed w1 = failed w).
  { destruct (wildcardEnabled (hub w0)); [|now injection Ew as <-].
    unfold processWildcardListeners in Ew.
    destruct (Nat.eqb _ 0); [now injection Ew as <-|].
    now rewrite (fanout_failed _ _ _ _ _ _ Ew). }
  unfold processSpecificListeners in He.
  destruct (JsMap.get e (events (hub w1))); [|now injection He as <-].
  now rewrite (fanout_failed _ _ _ _ _ _ He).
Qed.

End OneLevel.

(** A dispatch whose handlers throw only values that can be printed adds
    no failure. *)
Lemma emit_failed fuel : forall e a w w',
  emit body fuel e a w = Some w' -> failed w' = failed w.
Proof.
  induction fuel as [|fuel IH]; simpl; intros e a w w' He.
  - discriminate.
  - eapply emit_body_failed; eauto.
Qed.

Lemma reachable_sync_no_failure options w :
  opt_enableAsync options = Some false ->
  reachable body options w -> failed w = [].
Proof.
  intros Hopt Hr. induction Hr as [|w fuel a w' Hr IH Hs]; [reflexivity|].
  destruct a as [c|i s]; simpl in Hs.
  - destruct (run_cmd_cases (emit body fuel) c w) as [(e & a & -> & E)|E];
      rewrite E in Hs.
    + now rewrite (emit_failed _ _ _ _ Hs).
    + injection Hs as <-.
      now rewrite (failed_history (history_apply_cmd c w)).
  - assert (Hoff : asyncEnabled (hub w) = false).
    { pose proof (reachable_switches Hr) as Hsw.
      unfold switches, construct in Hsw. simpl in Hsw. rewrite Hopt in Hsw.
      simpl in Hsw. congruence. }
    rewrite (reachable_never_parks Hr Hoff) in Hs.
    destruct i; discriminate.
Qed.

Lemma resume_failed fuel t s w w' :
  rejects_printable (Settle 0 s) ->
  resume body (emit body fuel) t s w = Some w' -> failed w' = failed w.
Proof.
  intros Hs Hr. destruct s as [|error]; simpl in Hr.
  - transitivity (failed (removeOnce (t_kind t) (t_event t) (t_current t) w)).
    + eapply fanout_failed; [apply emit_failed | exact Hr].
    + apply failed_history, history_removeOnce.
  - destruct (handleError _ _ _ _ _) as [c|] eqn:Eh; [|discriminate].
    eapply handleError_failed in Eh; [|apply emit_failed | exact Hs].
    destruct Eh as (w1 & -> & H1). rewrite <- H1.
    eapply fanout_failed; [apply emit_failed | exact Hr].
Qed.

Lemma step_failed fuel a w w' :
  rejects_printable a -> step body fuel a w = Some w' ->
  failed w' = failed w.
Proof.
  intros Ha Hs. destruct a as [c|i s]; simpl in Hs.
  - destruct (run_cmd_cases (emit body fuel) c w) as [(e & a & -> & E)|E];
      rewrite E in Hs.
    + now rewrite (emit_failed _ _ _ _ Hs).
    + injection Hs as <-.
      now rewrite (failed_history (history_apply_cmd c w)).
  - destruct (nth_error (parked w) i) as [t|]; [|discriminate].
    now rewrite (resume_failed _ _ _ _ Ha Hs).
Qed.

Lemma steps_failed fuel acts : forall w w',
  Forall rejects_printable acts -> steps body fuel acts w = Some w' ->
  failed w' = failed w.
Proof.
  induction acts as [|a acts IH]; simpl; intros w w' Hall Hs.
  - now injection Hs as <-.
  - destruct (step body fuel a w) as [w1|] eqn:E; [|discriminate].
    rewrite (IH _ _ (Forall_inv_tail Hall) Hs).
    exact (step_failed _ _ _ (Forall_inv Hall) E).
Qed.

End Printable.


(** X11: within a fan-out the promises of the handlers are awaited one at
    a time.  In every world a dispatcher can reach, at most one parked task
    belongs to a given fan-out of a given [emit] call, and a parked task
    belongs to an [emit] call that was made, with the event name and the
    arguments of that call. *)
Theorem one_await_per_fanout :
  forall body options w,
    reachable body options w ->
    (forall k kind,
       List.length
         (filter (fun t => same_fanout k kind (t_emit t) (t_kind t))
                 (parked w)) <= 1) /\
    (forall t, In t (parked w) ->
       nth_error (emitted w) (t_emit t) = Some (t_event t, t_args t)).
Proof.
  intros body options w Hr. apply reachable_history_ok in Hr.
  destruct Hr as [_ (_ & _ & _ & _ & _ & Ht & _ & Hone)]. simpl in *. split.
  - intros k kind. specialize (Hone k kind (Nat.le_0_l k)).
    unfold tag_task in Hone. lia.
  - intros t Hin. specialize (Ht t Hin). rewrite Nat.sub_0_r in Ht.
    apply Ht. lia.
Qed.

(** X12: a call of a client cancels nothing.  Whatever a client calls
    while fan-outs are parked ([off], [reset] and further [emit] calls
    included), the parked fan-outs stay as they are, new ones come after
    them, and an [emit] promise that is pending is still pending: only the
    promise that a fan-out awaits can make it go on. *)
Theorem client_calls_cancel_nothing :
  forall body options w c fuel w',
    reachable body options w ->
    step body fuel (Call c) w = Some w' ->
    (exists ts, parked w' = parked w ++ ts) /\
    (forall k, emitPromise k w = Pending -> emitPromise k w' = Pending).
Proof.
  intros body options w c fuel w' Hr Hs.
  destruct (reachable_history_ok Hr) as [Hok (_ & Rp & _)].
  assert (Hp : exists ts fs,
             parked w' = parked w ++ ts /\ failed w' = failed w ++ fs /\
             forall f, In f fs -> List.length (emitted w) <= fl_emit f).
  { simpl in Hs.
    destruct (run_cmd_cases (emit body fuel) c w) as [(e & a & -> & E)|E];
      rewrite E in Hs.
    - destruct (emit_closed _ _ _ _ Hok Hs)
        as (_ & d & (_ & _ & _ & Hd & Hf) & (_ & _ & _ & Rf & _)).
      exists (d_parked d), (d_failed d). split; [exact Hd|].
      split; [exact Hf|]. intros f Hin. rewrite Forall_forall in Rf.
      apply Rf in Hin. unfold in_range in Hin. lia.
    - injection Hs as <-. exists [], [].
      rewrite parked_apply_cmd, (failed_history (history_apply_cmd c w)).
      rewrite !app_nil_r. repeat split; auto. intros f []. }
  destruct Hp as (ts & fs & Hp & Hf & Hnew).
  split; [now exists ts|].
  intros k Hk. apply emitPromise_pending in Hk.
  destruct Hk as [(t & Hin & Ht) Hnone].
  apply emitPromise_pending. split.
  - exists t. split; [|exact Ht]. rewrite Hp. apply in_or_app. now left.
  - intros f Hinf. rewrite Hf in Hinf. apply in_app_or in Hinf.
    destruct Hinf as [Hinf|Hinf]; [now apply Hnone|].
    apply Hnew in Hinf. rewrite Forall_forall in Rp. specialize (Rp t Hin).
    unfold in_range in Rp. simpl in Rp. lia.
Qed.

(* ================================================================== *)
(** * A dispatch that nobody listens to *)

(** X13: to emit an event that has no listener, on a dispatcher that has no
    wildcard listener, is a call that does nothing and succeeds.  It needs
    no nested dispatch, calls no handler, changes neither the registry nor
    the configuration, prints nothing and parks nothing; its promise is
    resolved to [true] at once. *)
Theorem emit_without_listeners :
  forall body options w e a fuel,
    reachable body options w ->
    listenerCount wildcard_token w = 0 ->
    listenerCount e w = 0 ->
    exists w',
      emit body (S fuel) e a w = Some w' /\
      hub w' = hub w /\ next_id w' = next_id w /\ console w' = console w /\
      trace w' = trace w /\ parked w' = parked w /\
      emitted w' = emitted w ++ [(e, a)] /\
      emitPromise (List.length (emitted w)) w' = Resolved true.
Proof.
  intros body options w e a fuel Hr Hwild He.
  apply reachable_history_ok in Hr.
  destruct Hr as [[(_ & _ & Hstar & Hoff) _] (_ & Hrange & _ & Hfrange & _)].
  assert (Hnil : wildcardListeners (hub w) = []).
  { unfold listenerCount in Hwild. rewrite String.eqb_refl in Hwild.
    simpl in Hwild. destruct (wildcardEnabled (hub w)); [|now apply Hoff].
    now apply length_zero_iff_nil. }
  assert (Hseq : JsMap.get e (events (hub w)) = None \/
                 JsMap.get e (events (hub w)) = Some []).
  { unfold listenerCount in He.
    destruct (String.eqb e wildcard_token) eqn:Etok.
    - apply String.eqb_eq in Etok. subst e. left. unfold JsMap.has in Hstar.
      now destruct (JsMap.get wildcard_token (events (hub w))).
    - simpl in He. destruct (JsMap.get e (events (hub w))) as [ls|]; auto.
      right. f_equal. now apply length_zero_iff_nil. }
  assert (Hfree : forall w1, parked w1 = parked w -> failed w1 = failed w ->
            emitPromise (List.length (emitted w)) w1 = Resolved true).
  { intros w1 Hp Hf. apply emitPromise_resolved. rewrite Hp, Hf.
    simpl in Hrange, Hfrange. rewrite Forall_forall in Hrange, Hfrange.
    split.
    - intros t Hin. specialize (Hrange t Hin). unfold in_range in Hrange.
      simpl in Hrange. lia.
    - intros f Hin. specialize (Hfrange f Hin). unfold in_range in Hfrange.
      simpl in Hfrange. lia. }
  simpl. unfold emit_body. cbv zeta.
  unfold processWildcardListeners, processSpecificListeners. simpl.
  rewrite Hnil. simpl.
  destruct Hseq as [Hg|Hg].
  - exists (record_emit e a w).
    destruct (wildcardEnabled (hub w)); simpl; rewrite Hg;
      repeat split; auto.
  - exists (record_start (mkStart (List.length (emitted w)) Specific [])
                         (record_emit e a w)).
    destruct (wildcardEnabled (hub w)); simpl; rewrite Hg; simpl;
      repeat split; auto.
Qed.

(* ================================================================== *)
(** * The snapshot of a fan-out *)

Lemma started_grows_refl w : started_grows w w.
Proof. exists []. now rewrite app_nil_r. Qed.

Lemma started_grows_same base w w' :
  started w' = started w -> started_grows base w -> started_grows base w'.
Proof. intros E [d H]. exists d. congruence. Qed.

Lemma started_apply_cmd c w : started (apply_cmd c w) = started w.
Proof.
  pose proof (history_apply_cmd c w) as H. unfold history in H. congruence.
Qed.

Lemma started_log m lvl w : started (log m lvl w) = started w.
Proof. unfold log. now destruct (debugMode (hub w)). Qed.

Lemma started_removeOnce kind event l w :
  started (removeOnce kind event l w) = started w.
Proof. unfold removeOnce. destruct (once l); [destruct kind|]; reflexivity. Qed.

(** The fan-out starts are never forgotten. *)
Section Growth.

Variable body : Handler -> World -> Val -> list Val -> Script.

Variable base : World.

Lemma grows_script_cmd : forall h w0 this args c w,
  In c (calls (body h w0 this args)) -> world_ok w -> started_grows base w ->
  started_grows base (apply_cmd c w).
Proof.
  intros h w0 this args c w _ _ H.
  eapply started_grows_same; [apply started_apply_cmd | exact H].
Qed.

Lemma grows_client_cmd : forall c w, world_ok w -> started_grows base w ->
  started_grows base (apply_cmd c w).
Proof.
  intros c w _ H.
  eapply started_grows_same; [apply started_apply_cmd | exact H].
Qed.

Lemma grows_log : forall m lvl w, world_ok w -> started_grows base w ->
  started_grows base (log m lvl w).
Proof.
  intros m lvl w _ H.
  eapply started_grows_same; [apply started_log | exact H].
Qed.

Lemma grows_removeOnce : forall kind event l w,
  (kind = Specific -> event <> wildcard_token) -> world_ok w ->
    started_grows base w ->
  started_grows base (removeOnce kind event l w).
Proof.
  intros kind event l w _ _ H.
  eapply started_grows_same; [apply started_removeOnce | exact H].
Qed.

Lemma grows_record_start : forall fs w, started_grows base w ->
  started_grows base (record_start fs w).
Proof.
  intros fs w [d H]. exists (d ++ [fs]). simpl. now rewrite H, app_assoc.
Qed.

Lemma fanout_grows fuel k kind e a ls w w' :
  (kind = Specific -> e <> wildcard_token) ->
  kept (started_grows base) w ->
    fanout body (emit body fuel) k kind e a ls w = Some w' ->
  kept (started_grows base) w'.
Proof.
  intros Hne Hk Hf.
  eapply (@fanout_kept body (started_grows base))
    with (emit_rec := emit body fuel);
    [apply grows_script_cmd | apply grows_log | apply grows_removeOnce
    | | | | | exact Hne | exact Hk | exact Hf]; auto.
  intros e0 a0 w0 w1 Hk0 He.
  eapply (@emit_kept body (started_grows base));
    [apply grows_script_cmd | apply grows_log
    | apply grows_removeOnce | | | | | | exact Hk0 | exact He]; auto.
  apply grows_record_start.
Qed.

Lemma step_grows fuel a w w' :
  kept (started_grows base) w -> step body fuel a w = Some w' ->
    kept (started_grows base) w'.
Proof.
  intros Hk Hs.
  eapply (@step_kept body (started_grows base));
    [apply grows_script_cmd | apply grows_log
    | apply grows_removeOnce | | | | | | apply grows_client_cmd
    | | exact Hk | exact Hs]; auto.
  apply grows_record_start.
Qed.

Lemma steps_grow fuel acts : forall w w',
  kept (started_grows base) w -> steps body fuel acts w = Some w' ->
    kept (started_grows base) w'.
Proof.
  induction acts as [|a acts IH]; simpl; intros w w' Hk Hs.
  - now injection Hs as <-.
  - destruct (step body fuel a w) as [w1|] eqn:E; [|discriminate].
    eapply IH; [|exact Hs]. eapply step_grows; eauto.
Qed.

End Growth.

(** The copy that a fan-out iterates is recorded when the fan-out starts. *)
Lemma copy_started body fuel e a w w' kind ls :
  world_ok w ->
  copied_at_call kind e w ls ->
  emit body fuel e a w = Some w' ->
  world_ok w' /\ In (mkStart (List.length (emitted w)) kind ls) (started w').
Proof.
  intros Hok Hcopy He.
  assert (Hok' : world_ok w').
  { now destruct (emit_closed _ _ _ _ Hok He). }
  split; [exact Hok'|].
  destruct fuel as [|fuel]; [discriminate|]. simpl in He.
  unfold emit_body in He. cbv zeta in He.
  destruct kind; simpl in Hcopy.
  - destruct Hcopy as [Hls Hne].
    assert (Hen : wildcardEnabled (hub w) = true).
    { destruct (wildcardEnabled (hub w)) eqn:E; [reflexivity|].
      destruct Hok as [(_ & _ & _ & Hoff) _]. rewrite (Hoff E) in Hls.
      now subst ls. }
    simpl in He. rewrite Hen in He.
    set (k := List.length (emitted w)) in *.
    set (w0 := record_emit e a w) in *.
    assert (Hok0 : world_ok w0) by (destruct Hok; split; auto).
    destruct (processWildcardListeners body (emit body fuel) k e a w0)
      as [w1|] eqn:Ew; [|discriminate].
    unfold processWildcardListeners in Ew. simpl in Ew. rewrite Hls in Ew.
    destruct ls as [|l ls]; [contradiction|].
    cbn [List.length Nat.eqb] in Ew.
    set (ws := record_start (mkStart k Wildcard (l :: ls)) w0) in *.
    assert (Hoks : world_ok ws) by (destruct Hok; split; auto).
    assert (H1 : kept (started_grows ws) w1).
    { eapply fanout_grows; [| |exact Ew]; [intros H; discriminate H|].
      split; [exact Hoks | apply started_grows_refl]. }
    assert (H2 : kept (started_grows ws) w').
    { unfold processSpecificListeners in He.
      destruct (JsMap.get e (events (hub w1))) as [ls1|] eqn:Eg;
        [|now injection He as <-].
      eapply fanout_grows; [| |exact He].
      - intros _ ->. destruct H1 as [[(_ & _ & Hstar & _) _] _].
        unfold JsMap.has in Hstar. now rewrite Eg in Hstar.
      - destruct H1 as [[Hr Hp] Hg]. split; [split; auto|].
        now apply grows_record_start. }
    destruct H2 as [_ [d Hd]]. rewrite Hd. subst ws. simpl.
    apply in_or_app. left. apply in_or_app. right. now left.
  - destruct Hcopy as [Hnil Hg].
    unfold processWildcardListeners in He. simpl in He.
    rewrite Hnil in He. simpl in He.
    assert (He' : processSpecificListeners body (emit body fuel)
                    (List.length (emitted w)) e a (record_emit e a w)
                  = Some w').
    { destruct (wildcardEnabled (hub w)); exact He. }
    exact (@specific_snapshot_started body fuel _ e a ls
             (record_emit e a w) w' Hok Hg He').
Qed.

(** X15: a fan-out iterates the copy it took, whatever happens to the
    registry meanwhile.  When [emit(e)] is called, the wildcard fan-out
    copies the wildcard list of that moment, and so does the specific
    fan-out with the sequence of [e] (when no wildcard listener runs before
    it).  From then on, whatever the handlers and the client call and
    however the awaited promises settle, the records that the fan-out has
    called are the first records of that copy, in its order: a record
    registered after the call of [emit] is never called by it, and a record
    removed after the call of [emit] is called all the same, since once the
    promise of the [emit] call is resolved the whole copy has been
    called. *)
Theorem dispatch_iterates_snapshot :
  forall body options w fuel e a w' fuel' acts w'' kind ls,
    reachable body options w ->
    copied_at_call kind e w ls ->
    emit body fuel e a w = Some w' ->
    steps body fuel' acts w' = Some w'' ->
    let k := List.length (emitted w) in
    (exists rest, ls = invoked k kind (trace w'') ++ rest) /\
    (emitPromise k w'' = Resolved true -> invoked k kind (trace w'') = ls).
Proof.
  intros body options w fuel e a w' fuel' acts w'' kind ls Hr Hcopy He Hs k.
  assert (Hr' : reachable body options w').
  { apply reachable_step with (w := w) (fuel := fuel) (a := Call (CEmit e a)).
    - exact Hr.
    - exact He. }
  assert (Hr'' : reachable body options w'').
  { eapply steps_reachable; eauto. }
  destruct (@copy_started body fuel e a w w' kind ls
              (reachable_world_ok Hr) Hcopy He) as [Hok' Hin].
  assert (Hin'' : In (mkStart k kind ls) (started w'')).
  { destruct (@steps_grow body w' fuel' acts w' w'') as [_ [d Hd]].
    - split; [exact Hok' | apply started_grows_refl].
    - exact Hs.
    - rewrite Hd. apply in_or_app. now left. }
  destruct (started_accounted _ Hr'' Hin'') as [Hsnap _]. simpl in Hsnap.
  split.
  - eexists. symmetry. exact Hsnap.
  - intros Hres.
    destruct (@resolved_not_waiting k kind w'' Hres) as [Hw Ha].
    rewrite Hw, Ha, !app_nil_r in Hsnap. exact Hsnap.
Qed.

(* ================================================================== *)
(** * The removal of one-shot records *)

Lemma distinct_filter p ls :
  distinct_records ls -> distinct_records (filter p ls).
Proof.
  unfold distinct_records. induction ls as [|x ls IH]; simpl; intros H;
    [exact H|].
  inversion H as [|? ? Hx Hls]; subst.
  destruct (p x); simpl; [|now apply IH].
  constructor; [|now apply IH].
  intros Hin. apply Hx. apply in_map_iff in Hin.
  destruct Hin as (y & Ey & Hy). apply filter_In in Hy.
  apply in_map_iff. exists y. tauto.
Qed.

Lemma distinct_insert n ls new :
  distinct_records ls -> Forall (fun l => l_id l < n) ls -> l_id new = n ->
  distinct_records (insertListenerByPriority ls new).
Proof.
  unfold distinct_records. intros Hd Hlt Hn.
  induction ls as [|x r IH].
  - rewrite insert_nil. simpl. constructor; [intros []|constructor].
  - inversion Hd as [|? ? Hx Hr]; subst.
    inversion Hlt as [|? ? Hxn Hrn]; subst.
    rewrite insert_cons. destruct (Z.ltb (priority x) (priority new)); simpl.
    + constructor; [|exact Hd]. simpl. intros [E|Hin]; [lia|].
      apply in_map_iff in Hin. destruct Hin as (y & Ey & Hy).
      rewrite Forall_forall in Hrn. specialize (Hrn y Hy). simpl in Hrn. lia.
    + constructor; [|now apply IH].
      intros Hin. apply in_map_iff in Hin. destruct Hin as (y & Ey & Hy).
      apply in_insert in Hy. destruct Hy as [->|Hy]; [lia|].
      apply Hx. apply in_map_iff. exists y. tauto.
Qed.

Lemma distinct_same ls x l :
  distinct_records ls -> In x ls -> In l ls -> l_id x = l_id l -> x = l.
Proof.
  unfold distinct_records. induction ls as [|y ls IH]; simpl; intros Hd Hx Hl E;
    [contradiction|].
  inversion Hd as [|? ? Hy Hls]; subst.
  destruct Hx as [->|Hx]; destruct Hl as [->|Hl]; auto.
  - exfalso. apply Hy. rewrite E. now apply in_map.
  - exfalso. apply Hy. rewrite <- E. now apply in_map.
Qed.

Lemma records_distinct_addListener event h o ctx p w :
  registry_ok w -> records_distinct w ->
  records_distinct (addListener event h o ctx p w).
Proof.
  intros Hok Hd.
  destruct (String.eqb event wildcard_token && negb (wildcardEnabled (hub w)))
    eqn:Hgate; [now rewrite addListener_gate|].
  destruct (addListener_warned event h o ctx p w Hgate)
    as (w1 & Hh & _ & _ & _ & ->). cbv zeta.
  destruct Hok as ([_ Hwlt] & Hev & _). destruct Hd as [Hdw Hde].
  destruct (String.eqb event wildcard_token); unfold records_distinct; simpl;
    rewrite Hh.
  - split; [|exact Hde]. eapply distinct_insert; eauto.
  - split; [exact Hdw|].
    destruct (JsMap.has event (events (hub w))) eqn:Ehas.
    + apply Forall_values_set; [exact Hde|].
      unfold JsMap.has in Ehas.
      destruct (JsMap.get event (events (hub w))) as [ls|] eqn:Eg;
        [|discriminate].
      simpl. eapply distinct_insert; [| |reflexivity].
      * eapply Forall_values_get; eauto.
      * exact (proj2 (Forall_values_get _ _ Hev Eg)).
    + apply Forall_values_set.
      * apply Forall_values_set; [exact Hde | constructor].
      * rewrite JsMapFacts.get_set_same. simpl. rewrite insert_nil.
        simpl. constructor; [intros [] | constructor].
Qed.

Lemma records_distinct_off event h w :
  records_distinct w -> records_distinct (off event h w).
Proof.
  intros [Hdw Hde]. unfold off. destruct event as [event|].
  - destruct (String.eqb event wildcard_token && wildcardEnabled (hub w)).
    + destruct h as [h|]; split; simpl; auto.
      * now apply distinct_filter.
      * constructor.
    + destruct h as [h|].
      * destruct (JsMap.get event (events (hub w))) as [ls|] eqn:Eg;
          [|split; auto].
        split; simpl; auto. apply Forall_values_set; auto.
        apply distinct_filter. eapply Forall_values_get; eauto.
      * split; simpl; auto. now apply Forall_values_delete.
  - split; simpl; constructor.
Qed.

Lemma records_distinct_apply_cmd c w :
  registry_ok w -> records_distinct w -> records_distinct (apply_cmd c w).
Proof.
  intros Hok Hd. destruct c; simpl; auto using records_distinct_off.
  - now apply records_distinct_addListener.
  - now apply records_distinct_addListener.
  - split; simpl; constructor.
Qed.

Lemma records_distinct_removeOnce kind event l w :
  records_distinct w -> records_distinct (removeOnce kind event l w).
Proof.
  intros [Hdw Hde]. unfold removeOnce. destruct (once l); [|split; auto].
  destruct kind; split; simpl; auto.
  - now apply distinct_filter.
  - apply Forall_values_set; auto. apply distinct_filter.
    destruct (JsMap.get event (events (hub w))) eqn:Eg; simpl.
    + eapply Forall_values_get; eauto.
    + constructor.
Qed.

Lemma reachable_records_distinct body options w :
  reachable body options w -> records_distinct w.
Proof.
  intros H.
  apply (@reachable_kept body records_distinct) in H;
    [exact (proj2 H)|..]; auto using records_distinct_removeOnce.
  - intros h w0 this args c w1 _ [Hok _] Hd.
    now apply records_distinct_apply_cmd.
  - intros m lvl w1 _ Hd. unfold records_distinct. now rewrite hub_log.
  - intros c w1 [Hok _] Hd. now apply records_distinct_apply_cmd.
  - split; simpl; constructor.
Qed.

Lemma hub_removeOnce_ext kind event l w1 w2 :
  hub w1 = hub w2 ->
  hub (removeOnce kind event l w1) = hub (removeOnce kind event l w2).
Proof.
  intros E. unfold removeOnce. destruct (once l); [|exact E].
  destruct kind; simpl; now rewrite E.
Qed.

Lemma hub_prune_ext kind event ls : forall w1 w2,
  hub w1 = hub w2 ->
  hub (prune kind event ls w1) = hub (prune kind event ls w2).
Proof.
  induction ls as [|l ls IH]; intros w1 w2 E; [exact E|].
  apply IH. now apply hub_removeOnce_ext.
Qed.

(** A fan-out of quiet handlers that is not parked has made the one-shot
    removals of its snapshot and nothing else. *)
Lemma fanout_quiet body emit_rec k kind e a ls :
  quiet body ->
  forall w w',
    fanout body emit_rec k kind e a ls w = Some w' ->
    exists ts,
      parked w' = parked w ++ ts /\
      (ts = [] -> hub w' = hub (prune kind e ls w)).
Proof.
  intros Hq. induction ls as [|l rest IH]; simpl; intros w w' Hf.
  - injection Hf as <-. exists []. now rewrite app_nil_r.
  - unfold call_handler in Hf.
    set (w1 := record_call (invocation k kind e a l) w) in *.
    destruct (Hq (handler l) w1 (receiver l) (handler_args kind e a))
      as [Hcalls Hno].
    rewrite Hcalls in Hf. simpl in Hf.
    assert (Hgo : forall w2,
              fanout body emit_rec k kind e a rest (removeOnce kind e l w1)
              = Some w2 ->
              exists ts,
                parked w2 = parked w ++ ts /\
                (ts = [] -> hub w2 = hub (prune kind e (l :: rest) w))).
    { intros w2 H2. destruct (IH _ _ H2) as (ts & Hp & Hh).
      exists ts. rewrite parked_removeOnce in Hp. split; [exact Hp|].
      intros Hts. rewrite (Hh Hts). simpl. apply hub_prune_ext.
      now apply hub_removeOnce_ext. }
    destruct (outcome (body (handler l) w1 (receiver l)
                            (handler_args kind e a))) as [| |err] eqn:Eo.
    + now apply Hgo.
    + destruct (asyncEnabled (hub w)); [|now apply Hgo].
      injection Hf as <-. eexists. split; [reflexivity|].
      intros H. discriminate H.
    + exfalso. exact (Hno err eq_refl).
Qed.

Lemma filter_filter (A : Type) (p q : A -> bool) l :
  filter p (filter q l) = filter (fun x => q x && p x) l.
Proof.
  induction l as [|x l IH]; simpl; [reflexivity|].
  destruct (q x); simpl; [destruct (p x)|]; now rewrite IH.
Qed.

Lemma removed_then_survives l rest L :
  filter (survives rest)
         (if once l then filter (fun x => negb (same_listener x l)) L else L) =
  filter (survives (l :: rest)) L.
Proof.
  unfold survives. destruct (once l) eqn:Eo; simpl.
  - rewrite filter_filter. apply filter_ext. intros x. rewrite Eo. simpl.
    now rewrite negb_orb.
  - apply filter_ext. intros x. now rewrite Eo.
Qed.

Lemma prune_wildcard e ls : forall w,
  wildcardListeners (hub (prune Wildcard e ls w)) =
    filter (survives ls) (wildcardListeners (hub w)) /\
  events (hub (prune Wildcard e ls w)) = events (hub w).
Proof.
  induction ls as [|l rest IH]; intros w.
  - simpl. split; [|reflexivity]. symmetry. now apply filter_all.
  - change (prune Wildcard e (l :: rest) w)
      with (prune Wildcard e rest (removeOnce Wildcard e l w)).
    destruct (IH (removeOnce Wildcard e l w)) as [H1 H2].
    rewrite H1, H2. rewrite <- removed_then_survives.
    unfold removeOnce. destruct (once l); auto.
Qed.

Lemma prune_specific e ls : forall w L,
  JsMap.get e (events (hub w)) = Some L ->
  JsMap.get e (events (hub (prune Specific e ls w))) =
    Some (filter (survives ls) L) /\
  (forall e', e' <> e ->
     JsMap.get e' (events (hub (prune Specific e ls w))) =
     JsMap.get e' (events (hub w))) /\
  wildcardListeners (hub (prune Specific e ls w)) =
    wildcardListeners (hub w) /\
  eventNames (prune Specific e ls w) = eventNames w.
Proof.
  induction ls as [|l rest IH]; intros w L Hg.
  - simpl. rewrite filter_all by reflexivity. auto.
  - change (prune Specific e (l :: rest) w)
      with (prune Specific e rest (removeOnce Specific e l w)).
    rewrite <- removed_then_survives.
    unfold removeOnce. destruct (once l) eqn:Eo.
    + match goal with
      | |- context [prune Specific e rest ?W] => set (w1 := W)
      end.
      assert (Hg1 : JsMap.get e (events (hub w1)) =
                    Some (filter (fun x => negb (same_listener x l)) L)).
      { subst w1. simpl. now rewrite Hg, JsMapFacts.get_set_same. }
      destruct (IH w1 _ Hg1) as (H1 & H2 & H3 & H4).
      split; [exact H1|]. split; [|split].
      * intros e' Hne. rewrite (H2 e' Hne). subst w1. simpl.
        now apply JsMapFacts.get_set_other.
      * rewrite H3. reflexivity.
      * rewrite H4. subst w1. unfold eventNames. simpl.
        rewrite JsMapKeys.keys_set. unfold JsMap.has. now rewrite Hg.
    + now apply IH.
Qed.

Lemma survives_self L :
  distinct_records L ->
  filter (survives L) L = filter (fun l => negb (once l)) L.
Proof.
  intros Hd. apply filter_ext_in. intros x Hx. unfold survives. f_equal.
  destruct (once x) eqn:Eo.
  - apply existsb_exists. exists x. split; [exact Hx|].
    unfold same_listener. now rewrite Eo, Nat.eqb_refl.
  - destruct (existsb (fun l => once l && same_listener x l) L) eqn:E;
      [|reflexivity].
    apply existsb_exists in E. destruct E as (l & Hl & H).
    apply andb_prop in H. destruct H as [Hol Hsame].
    apply Nat.eqb_eq in Hsame.
    rewrite (@distinct_same L x l Hd Hx Hl Hsame) in Eo. congruence.
Qed.

Lemma app_nil_both (A : Type) (l ts1 ts2 : list A) :
  (l ++ ts1) ++ ts2 = l -> ts1 = [] /\ ts2 = [].
Proof.
  intros H. rewrite <- app_assoc in H.
  assert (Hl : List.length (l ++ ts1 ++ ts2) = List.length l) by congruence.
  rewrite !length_app in Hl.
  destruct ts1; destruct ts2; simpl in Hl; auto; lia.
Qed.

(** X16: a dispatch prunes the one-shot records it has called.  When the
    handlers make no call on the dispatcher and do not throw, and no
    fan-out of the dispatch is left waiting for a promise, [emit(e)] leaves
    the wildcard list and the sequence of [e] with exactly their records
    that are not one-shot, in their order, and changes nothing else of the
    registry: the sequence of every other event and the names that
    [eventNames()] lists are as they were. *)
Theorem one_shot_records_pruned :
  forall body options w fuel e a w',
    reachable body options w ->
    quiet body ->
    emit body fuel e a w = Some w' ->
    parked w' = parked w ->
    wildcardListeners (hub w') =
      filter (fun l => negb (once l)) (wildcardListeners (hub w)) /\
    (forall e',
       JsMap.get e' (events (hub w')) =
       if String.eqb e' e
       then option_map (filter (fun l => negb (once l)))
                       (JsMap.get e (events (hub w)))
       else JsMap.get e' (events (hub w))) /\
    eventNames w' = eventNames w.
Proof.
  intros body options w fuel e a w' Hr Hq He Hp.
  pose proof (reachable_records_distinct Hr) as [Hdw Hde].
  apply reachable_world_ok in Hr. destruct Hr as [(_ & _ & _ & Hoff) _].
  destruct fuel as [|fuel]; [discriminate|]. simpl in He.
  unfold emit_body in He. cbv zeta in He.
  set (k := List.length (emitted w)) in *.
  set (w0 := record_emit e a w) in *.
  (* the wildcard fan-out *)
  assert (HW : exists w1 ts1,
            (if wildcardEnabled (hub w0)
             then processWildcardListeners body (emit body fuel) k e a w0
             else Some w0) = Some w1 /\
            parked w1 = parked w ++ ts1 /\
            (ts1 = [] ->
             wildcardListeners (hub w1) =
               filter (fun l => negb (once l)) (wildcardListeners (hub w)) /\
             events (hub w1) = events (hub w))).
  { destruct (if wildcardEnabled (hub w0) then _ else Some w0)
      as [w1|] eqn:Ew; [|discriminate].
    exists w1. simpl in Ew.
    destruct (wildcardEnabled (hub w)) eqn:Een.
    - unfold processWildcardListeners in Ew. simpl in Ew.
      destruct (Nat.eqb (List.length (wildcardListeners (hub w))) 0) eqn:En.
      + injection Ew as <-. exists []. rewrite app_nil_r.
        split; [reflexivity|]. split; [reflexivity|]. intros _.
        split; [|reflexivity]. apply Nat.eqb_eq in En.
        apply length_zero_iff_nil in En. simpl. now rewrite En.
      + destruct (fanout_quiet _ _ _ _ _ _ Hq _ Ew) as (ts & Hts & Hh).
        exists ts. split; [reflexivity|]. split; [exact Hts|].
        intros Hnil. rewrite (Hh Hnil).
        destruct (prune_wildcard e (wildcardListeners (hub w))
                    (record_start
                       (mkStart k Wildcard (wildcardListeners (hub w))) w0))
          as [H1 H2].
        rewrite H1, H2. split; [|reflexivity].
        simpl. now apply survives_self.
    - injection Ew as <-. exists []. rewrite app_nil_r.
      split; [reflexivity|]. split; [reflexivity|]. intros _.
      split; [|reflexivity]. simpl. now rewrite (Hoff eq_refl). }
  destruct HW as (w1 & ts1 & Ew & Hp1 & Hw1). rewrite Ew in He.
  (* the specific fan-out *)
  unfold processSpecificListeners in He.
  destruct (JsMap.get e (events (hub w1))) as [ls|] eqn:Eg.
  - destruct (fanout_quiet _ _ _ _ _ _ Hq _ He) as (ts2 & Hts & Hh).
    simpl in Hts. rewrite Hp1 in Hts. rewrite Hts in Hp.
    apply app_nil_both in Hp. destruct Hp as [-> ->].
    destruct (Hw1 eq_refl) as [Hwild Hev]. rewrite (Hh eq_refl).
    set (ws := record_start (mkStart k Specific ls) w1) in *.
    assert (Egs : JsMap.get e (events (hub ws)) = Some ls) by exact Eg.
    destruct (prune_specific e ls ws Egs) as (H1 & H2 & H3 & H4).
    rewrite Hev in Eg.
    assert (Hdl : distinct_records ls).
    { eapply Forall_values_get; eauto. }
    split; [|split].
    + rewrite H3. exact Hwild.
    + intros e'. destruct (String.eqb e' e) eqn:E.
      * apply String.eqb_eq in E. subst e'. rewrite H1, Eg. simpl.
        f_equal. now apply survives_self.
      * apply String.eqb_neq in E. rewrite (H2 e' E). simpl. now rewrite Hev.
    + unfold eventNames in *. rewrite (Hh eq_refl) in *.
      rewrite H4. subst ws. simpl. now rewrite Hev.
  - injection He as <-. rewrite Hp1 in Hp.
    assert (Hts : ts1 = []).
    { assert (Hl : List.length (parked w ++ ts1) = List.length (parked w))
        by congruence.
      rewrite length_app in Hl. destruct ts1; simpl in Hl; [reflexivity|lia]. }
    destruct (Hw1 Hts) as [Hwild Hev]. rewrite Hev in Eg.
    split; [exact Hwild|]. split.
    + intros e'. rewrite Hev. destruct (String.eqb e' e) eqn:E; auto.
      apply String.eqb_eq in E. subst e'. now rewrite Eg.
    + unfold eventNames. now rewrite Hev.
Qed.

(* ================================================================== *)
(** * One-shot records after their call *)

Lemma sequence_of_log n m lvl w : sequence_of n (log m lvl w) = sequence_of n w.
Proof. unfold sequence_of. now rewrite hub_log. Qed.

Lemma sequence_of_reset n w : sequence_of n (reset w) = [].
Proof.
  unfold sequence_of, reset. simpl.
  now destruct (String.eqb n wildcard_token && wildcardEnabled (hub w)).
Qed.

(** The sequences after [off(e)]. *)
Lemma off_event_sequences e w e' :
  sequence_of e' (off (Some e) None w) =
  if String.eqb e' e then [] else sequence_of e' w.
Proof.
  unfold off, sequence_of.
  destruct (String.eqb e wildcard_token && wildcardEnabled (hub w)) eqn:Eg;
    simpl.
  - apply andb_prop in Eg. destruct Eg as [Eg Een].
    apply String.eqb_eq in Eg. subst e. rewrite Een, andb_true_r.
    now destruct (String.eqb e' wildcard_token).
  - destruct (String.eqb e' e) eqn:Ee.
    + apply String.eqb_eq in Ee. subst e'.
      now rewrite Eg, JsMapFacts.get_delete_same.
    + apply String.eqb_neq in Ee.
      destruct (String.eqb e' wildcard_token && wildcardEnabled (hub w));
        [reflexivity|].
      now rewrite JsMapFacts.get_delete_other.
Qed.

Lemma in_sequence_off event h w n x :
  In x (sequence_of n (off event h w)) -> In x (sequence_of n w).
Proof.
  destruct event as [e|].
  - destruct h as [h|].
    + rewrite off_handler_sequences. destruct (String.eqb n e) eqn:E; [|auto].
      apply String.eqb_eq in E. subst n. intros H. apply filter_In in H.
      tauto.
    + rewrite off_event_sequences.
      destruct (String.eqb n e); [intros []|auto].
  - unfold off. rewrite sequence_of_reset. intros [].
Qed.

Lemma in_sequence_addListener event h o ctx p w n x :
  In x (sequence_of n (addListener event h o ctx p w)) ->
  l_id x = next_id w \/ In x (sequence_of n w).
Proof.
  destruct (String.eqb event wildcard_token && negb (wildcardEnabled (hub w)))
    eqn:Hgate; [rewrite addListener_gate by exact Hgate; auto|].
  destruct (String.eqb n event) eqn:E.
  - apply String.eqb_eq in E. subst n.
    rewrite addListener_sequence by exact Hgate. intros H.
    apply in_insert in H. destruct H as [->|H]; auto.
  - apply String.eqb_neq in E. rewrite addListener_frame by exact E. auto.
Qed.

Lemma next_id_off event h w : next_id (off event h w) = next_id w.
Proof.
  unfold off. destruct event as [e|]; [|reflexivity].
  destruct (String.eqb e wildcard_token && wildcardEnabled (hub w));
    destruct h; try reflexivity.
  now destruct (JsMap.get e (events (hub w))).
Qed.

Lemma next_id_addListener event h o ctx p w :
  next_id w <= next_id (addListener event h o ctx p w).
Proof.
  unfold addListener.
  destruct (String.eqb event wildcard_token && negb (wildcardEnabled (hub w)));
    [lia|].
  destruct (Z.geb _ _); destruct (String.eqb event wildcard_token); simpl;
    rewrite ?next_id_log; lia.
Qed.

Lemma next_id_apply_cmd c w : next_id w <= next_id (apply_cmd c w).
Proof.
  destruct c; simpl; unfold on, once_; rewrite ?next_id_off;
    auto using next_id_addListener.
Qed.

Lemma next_id_removeOnce kind e l w :
  next_id (removeOnce kind e l w) = next_id w.
Proof. unfold removeOnce. destruct (once l); [destruct kind|]; reflexivity. Qed.

Lemma in_sequence_removeOnce kind e l w n x :
  (kind = Specific -> e <> wildcard_token) ->
  In x (sequence_of n (removeOnce kind e l w)) -> In x (sequence_of n w).
Proof.
  intros Hne. unfold removeOnce. destruct (once l); [|auto].
  unfold sequence_of. destruct kind; simpl.
  - destruct (String.eqb n wildcard_token && wildcardEnabled (hub w)); [|auto].
    intros H. apply filter_In in H. tauto.
  - specialize (Hne eq_refl).
    destruct (String.eqb n wildcard_token && wildcardEnabled (hub w)); [auto|].
    destruct (String.eqb n e) eqn:E.
    + apply String.eqb_eq in E. subst n. rewrite JsMapFacts.get_set_same.
      simpl. intros H. apply filter_In in H. tauto.
    + apply String.eqb_neq in E. now rewrite JsMapFacts.get_set_other.
Qed.

(** The removal of a one-shot record takes it out of the sequence that the
    fan-out iterates. *)
Lemma removeOnce_removes kind e l w :
  world_ok w -> (kind = Specific -> e <> wildcard_token) ->
  once l = true ->
  ~ In l (sequence_of (fanout_name kind e) (removeOnce kind e l w)).
Proof.
  intros [(_ & _ & Hstar & _) _] Hne Honce. unfold removeOnce.
  rewrite Honce. unfold sequence_of.
  assert (Hself : forall ls,
            ~ In l (filter (fun x => negb (same_listener x l)) ls)).
  { intros ls H. apply filter_In in H. destruct H as [_ H].
    unfold same_listener in H. now rewrite Nat.eqb_refl in H. }
  destruct kind; simpl.
  - destruct (wildcardEnabled (hub w)); [apply Hself|].
    unfold JsMap.has in Hstar.
    destruct (JsMap.get wildcard_token (events (hub w))); [discriminate|].
    intros [].
  - specialize (Hne eq_refl). apply String.eqb_neq in Hne. rewrite Hne.
    simpl. rewrite JsMapFacts.get_set_same. apply Hself.
Qed.

Lemma gone_apply_cmd n l c w : gone n l w -> gone n l (apply_cmd c w).
Proof.
  intros [Hid Hin]. split; [pose proof (next_id_apply_cmd c w); lia|].
  intros H. apply Hin. destruct c; simpl in H.
  - apply in_sequence_addListener in H. destruct H; [lia | auto].
  - apply in_sequence_addListener in H. destruct H; [lia | auto].
  - now apply in_sequence_off in H.
  - exact H.
  - now rewrite sequence_of_reset in H.
  - exact H.
Qed.

Lemma gone_log n l m lvl w : gone n l w -> gone n l (log m lvl w).
Proof.
  intros [Hid Hin]. split; [now rewrite next_id_log|].
  now rewrite sequence_of_log.
Qed.

Lemma gone_removeOnce n l kind e l' w :
  (kind = Specific -> e <> wildcard_token) ->
  gone n l w -> gone n l (removeOnce kind e l' w).
Proof.
  intros Hne [Hid Hin]. split; [now rewrite next_id_removeOnce|].
  intros H. apply Hin. eapply in_sequence_removeOnce; eauto.
Qed.

Lemma emit_gone body n l fuel e a w w' :
  kept (gone n l) w -> emit body fuel e a w = Some w' -> kept (gone n l) w'.
Proof.
  intros Hk He.
  eapply (@emit_kept body (gone n l)); [| | | | | | | | exact Hk | exact He];
    auto using gone_apply_cmd, gone_log, gone_removeOnce.
Qed.

Lemma fanout_gone body n l fuel k kind e a ls w w' :
  (kind = Specific -> e <> wildcard_token) ->
  kept (gone n l) w ->
  fanout body (emit body fuel) k kind e a ls w = Some w' ->
  kept (gone n l) w'.
Proof.
  intros Hne Hk Hf.
  eapply (@fanout_kept body (gone n l)) with (emit_rec := emit body fuel);
    [| | | | | | | exact Hne | exact Hk | exact Hf];
    auto using gone_apply_cmd, gone_log, gone_removeOnce.
  intros e0 a0 w0 w1. apply emit_gone.
Qed.

Lemma steps_gone body n l fuel acts : forall w w',
  kept (gone n l) w -> steps body fuel acts w = Some w' -> kept (gone n l) w'.
Proof.
  induction acts as [|act acts IH]; simpl; intros w w' Hk Hs.
  - now injection Hs as <-.
  - destruct (step body fuel act w) as [w1|] eqn:E; [|discriminate].
    eapply IH; [|exact Hs].
    eapply (@step_kept body (gone n l));
      [| | | | | | | | | | exact Hk | exact E];
      auto using gone_apply_cmd, gone_log, gone_removeOnce.
Qed.

Lemma allocated_removeOnce n kind e l w :
  allocated n w -> allocated n (removeOnce kind e l w).
Proof. unfold allocated. now rewrite next_id_removeOnce. Qed.

Lemma allocated_apply_cmd n c w : allocated n w -> allocated n (apply_cmd c w).
Proof. unfold allocated. pose proof (next_id_apply_cmd c w). lia. Qed.

Lemma allocated_log n m lvl w : allocated n w -> allocated n (log m lvl w).
Proof. unfold allocated. now rewrite next_id_log. Qed.

Lemma emit_allocated body n fuel e a w w' :
  kept (allocated n) w -> emit body fuel e a w = Some w' ->
  kept (allocated n) w'.
Proof.
  intros Hk He.
  eapply (@emit_kept body (allocated n));
    [| | | | | | | | exact Hk | exact He];
    auto using allocated_apply_cmd, allocated_log, allocated_removeOnce.
Qed.

Lemma call_handler_allocated body fuel k kind e a l w w' o :
  world_ok w ->
  call_handler body (emit body fuel) k kind e a l w = Some (w', o) ->
  next_id w <= next_id w'.
Proof.
  intros Hok Hc.
  apply (@call_handler_kept body (allocated (next_id w)))
    with (emit_rec := emit body fuel) in Hc;
    [exact (proj2 Hc) | | | | split; [exact Hok | apply Nat.le_refl]];
    auto using allocated_apply_cmd.
  intros e0 a0 w0 w1. apply emit_allocated.
Qed.

Lemma handleError_allocated body fuel err e h w c :
  world_ok w ->
  handleError (emit body fuel) err e h w = Some c ->
  next_id w <= next_id (world_of c).
Proof.
  intros Hok He.
  apply (@handleError_kept (allocated (next_id w)))
    with (emit_rec := emit body fuel) in He;
    [exact (proj2 He) | | | split; [exact Hok | apply Nat.le_refl]];
    auto using allocated_log.
  intros e0 a0 w0 w1. apply emit_allocated.
Qed.

(** How the call of a handler ends. *)
Lemma call_handler_outcome body emit_rec k kind e a l w w' o :
  call_handler body emit_rec k kind e a l w = Some (w', o) ->
  exists w1 this args, o = outcome (body (handler l) w1 this args).
Proof.
  unfold call_handler. intros Hc.
  destruct (run_calls _ _ _) as [w2|]; [|discriminate].
  injection Hc as _ <-. eauto.
Qed.

(** A fan-out and the one-shot records that it has called: when the
    control comes back, those whose handler returns a value are out of the
    sequence.  The first record of the snapshot is always called. *)
Lemma fanout_prunes body fuel k kind e a ls : forall w w',
  (kind = Specific -> e <> wildcard_token) ->
  world_ok w -> k < List.length (emitted w) ->
  Forall (fun l => l_id l < next_id w) ls ->
  fanout body (emit body fuel) k kind e a ls w = Some w' ->
  exists done mytasks myfails,
    piece k w w' [] (map (invocation k kind e a) done) mytasks myfails /\
    progress k kind e a ls done mytasks myfails /\
    (forall l rest, ls = l :: rest -> exists done', done = l :: done') /\
    forall l, In l done -> once l = true ->
              returns_value body (handler l) ->
              gone (fanout_name kind e) l w'.
Proof.
  induction ls as [|l rest IH]; simpl; intros w w' Hne Hok Hk Hids Hf.
  - injection Hf as <-. exists [], [], []. split; [now apply piece_same|].
    split; [now left|]. split; [intros l rest H; discriminate H|].
    intros l [].
  - destruct (call_handler _ _ _ _ _ _ _ _) as [[w1 o]|] eqn:Ec;
      [|discriminate].
    assert (P1 : piece k w w1 [] [invocation k kind e a l] [] []).
    { eapply call_handler_piece; [apply emit_closed | | |]; eauto. }
    assert (Prm : piece k w1 (removeOnce kind e l w1) [] [] [] []).
    { apply removeOnce_piece;
        [exact Hne | exact (proj1 P1) | exact (piece_lt P1)]. }
    pose proof (call_handler_allocated _ _ _ _ _ _ _ Hok Ec) as Hn1.
    destruct (call_handler_outcome _ _ _ _ _ _ _ _ Ec)
      as (wc & this & args & Hout).
    pose proof (Forall_inv Hids) as Hid. simpl in Hid.
    pose proof (Forall_inv_tail Hids) as Hrest.
    assert (Hfirst : forall done' l0 rest0,
              l :: rest = l0 :: rest0 ->
              exists done'', l :: done' = l0 :: done'').
    { intros done' l0 rest0 [= <- _]. eauto. }
    assert (Hgo : forall w2,
              piece k w1 w2 [] [] [] [] -> next_id w1 <= next_id w2 ->
              (o = Return -> once l = true ->
               ~ In l (sequence_of (fanout_name kind e) w2)) ->
              fanout body (emit body fuel) k kind e a rest w2 = Some w' ->
              exists done mytasks myfails,
                piece k w w' [] (map (invocation k kind e a) done) mytasks
                      myfails /\
                progress k kind e a (l :: rest) done mytasks myfails /\
                (forall l0 rest0, l :: rest = l0 :: rest0 ->
                                  exists done', done = l0 :: done') /\
                forall l0, In l0 done -> once l0 = true ->
                           returns_value body (handler l0) ->
                           gone (fanout_name kind e) l0 w').
    { intros w2 P2 Hn2 Hout2 Hf2.
      pose proof (piece_trans P1 P2) as P12. simpl in P12.
      assert (Hrest2 : Forall (fun l => l_id l < next_id w2) rest).
      { eapply Forall_impl; [|exact Hrest]. simpl. intros x Hx. lia. }
      destruct (IH w2 w' Hne (proj1 P2) (piece_lt P12) Hrest2 Hf2)
        as (done & mytasks & myfails & P3 & Hpr & _ & Hgone).
      exists (l :: done), mytasks, myfails.
      split; [exact (piece_trans P12 P3)|].
      split; [now apply progress_cons|]. split; [apply Hfirst|].
      intros l0 [<-|Hin] Honce Hret; [|now apply Hgone].
      assert (Ho : o = Return) by (rewrite Hout; apply Hret).
      apply (@fanout_gone body (fanout_name kind e) l fuel k kind e a rest
               w2 w' Hne); [|exact Hf2].
      split; [exact (proj1 P2)|]. split; [lia | now apply Hout2]. }
    destruct o as [| |error].
    + eapply Hgo; [exact Prm | now rewrite next_id_removeOnce | | exact Hf].
      intros _ Honce. apply removeOnce_removes;
        [exact (proj1 P1) | exact Hne | exact Honce].
    + destruct (asyncEnabled (hub w1)).
      2:{ eapply Hgo; [exact Prm | now rewrite next_id_removeOnce | | exact Hf].
          intros H. discriminate H. }
      injection Hf as <-.
      set (t := mkTask k kind e a l rest).
      exists [l], [t], []. split; [|split; [|split]].
      * assert (P2 : piece k w1 (park t w1) [] [] [t] []).
        { apply park_piece;
            [exact Hne | reflexivity | exact (proj1 P1) | exact (piece_lt P1)]. }
        exact (piece_trans P1 P2).
      * right. left. exists [], l, rest. auto.
      * apply Hfirst.
      * intros l0 [<-|[]] _ Hret. rewrite (Hret wc this args) in Hout.
        discriminate Hout.
    + destruct (handleError _ _ _ _) as [c|] eqn:Eh; [|discriminate].
      assert (P2 : piece k w1 (world_of c) [] [] [] []).
      { eapply handleError_piece;
          [apply emit_closed | exact (proj1 P1) | exact (piece_lt P1)
          | exact Eh]. }
      pose proof (handleError_allocated _ _ _ _ _ (proj1 P1) Eh) as Hn2.
      destruct c as [w2|error' w2]; simpl in P2, Hn2.
      * eapply Hgo; [exact P2 | exact Hn2 | | exact Hf].
        intros H. discriminate H.
      * injection Hf as <-.
        set (f := mkFailure k kind error' rest).
        exists [l], [], [f]. split; [|split; [|split]].
        { pose proof (piece_trans P1 P2) as P12. simpl in P12.
          assert (P3 : piece k w2 (fail f w2) [] [] [] [f]).
          { apply fail_piece;
              [reflexivity | exact (proj1 P2) | exact (piece_lt P12)]. }
          exact (piece_trans P12 P3). }
        { right. right. exists rest, error'. auto. }
        { apply Hfirst. }
        { intros l0 [<-|[]] _ Hret. rewrite (Hret wc this args) in Hout.
          discriminate Hout. }
Qed.

(* ================================================================== *)
(** * The calls that a dispatch makes for its own listeners *)

Lemma of_call_app (A : Type) (id : A -> nat) k l1 l2 :
  of_call id k (l1 ++ l2) = of_call id k l1 ++ of_call id k l2.
Proof. unfold of_call. apply filter_app. Qed.

(** What a piece of the [emit] call [k] adds to the calls of [k]. *)
Lemma piece_calls k w w' s m t f :
  piece k w w' s m t f ->
  of_call iv_emit k (trace w') = of_call iv_emit k (trace w) ++ m.
Proof.
  intros (_ & d & (_ & _ & E & _) & D).
  rewrite E, of_call_app. f_equal. exact (dk_mine D).
Qed.

(** The fan-outs that a piece of the [emit] call [k] starts. *)
Lemma piece_starts k w w' s m t f fs :
  piece k w w' s m t f -> In fs s -> In fs (started w').
Proof.
  intros (_ & d & (_ & E & _) & D) Hin. rewrite E. apply in_or_app. right.
  rewrite <- (dk_mystarts D) in Hin. unfold of_call in Hin.
  apply filter_In in Hin. tauto.
Qed.

(** What a piece of the [emit] call [k] leaves parked and abandoned. *)
Lemma piece_halts k w w' s m t f kind :
  piece k w w' s m t f ->
  (forall x, In x (parked w) -> t_emit x <> k) ->
  (forall x, In x (failed w) -> fl_emit x <> k) ->
  waiting k kind (parked w') = waiting k kind t /\
  abandoned k kind (failed w') = abandoned k kind f.
Proof.
  intros (_ & d & (_ & _ & _ & Ep & Ef) & D) Hp Hf.
  rewrite Ep, Ef, waiting_app, abandoned_app.
  rewrite (waiting_none _ _ Hp), (abandoned_none _ _ Hf). simpl.
  rewrite <- (waiting_of_call k kind (d_parked d)), (dk_mytasks D).
  rewrite <- (abandoned_of_call k kind (d_failed d)), (dk_myfails D).
  auto.
Qed.

Lemma piece_emitted k w w' s m t f :
  piece k w w' s m t f -> exists more, emitted w' = emitted w ++ more.
Proof. intros (_ & d & (E & _) & _). eauto. Qed.

Lemma reachable_recorded body options w :
  reachable body options w -> recorded w.
Proof.
  intros Hr. destruct (reachable_history_ok Hr) as [_ (Rt & Rp & _ & Rf & _)].
  unfold recorded. simpl in *. repeat split;
    (eapply Forall_impl; [|eassumption]); unfold in_range; simpl;
    intros x Hx; lia.
Qed.

(** The calls of [emit] up to the moment it gives the control back. *)
Lemma emit_own_calls body fuel e a w w' :
  world_ok w -> recorded w ->
  emit body fuel e a w = Some w' ->
  let k := List.length (emitted w) in
  exists calledW calledS snapshot,
    nth_error (emitted w') k = Some (e, a) /\
    of_call iv_emit k (trace w') =
      map (invocation k Wildcard e a) calledW ++
      map (invocation k Specific e a) calledS /\
    calledW ++ waiting k Wildcard (parked w') ++
      abandoned k Wildcard (failed w') = wildcardListeners (hub w) /\
    calledS ++ waiting k Specific (parked w') ++
      abandoned k Specific (failed w') = snapshot /\
    (snapshot = [] \/ In (mkStart k Specific snapshot) (started w')) /\
    (wildcardListeners (hub w) = [] ->
     snapshot = orElse (JsMap.get e (events (hub w))) []) /\
    (forall l rest, wildcardListeners (hub w) = l :: rest ->
                    exists called, calledW = l :: called) /\
    (forall l rest, snapshot = l :: rest ->
                    exists called, calledS = l :: called) /\
    (forall l, In l calledW -> once l = true ->
               returns_value body (handler l) ->
               gone wildcard_token l w') /\
    (forall l, In l calledS -> once l = true ->
               returns_value body (handler l) -> gone e l w') /\
    (exists w1,
       (if wildcardEnabled (hub w)
        then processWildcardListeners body (emit body (pred fuel)) k e a
               (record_emit e a w)
        else Some (record_emit e a w)) = Some w1 /\
       snapshot = orElse (JsMap.get e (events (hub w1))) []).
Proof.
  intros Hok (Htr & Hpk & Hfl) He k.
  rewrite Forall_forall in Htr, Hpk, Hfl.
  assert (Hold : of_call iv_emit k (trace w) = []).
  { apply of_call_none. intros iv Hin. specialize (Htr iv Hin).
    simpl in Htr. subst k. lia. }
  destruct fuel as [|fuel]; [discriminate|]. simpl in He.
  unfold emit_body in He. cbv zeta in He. fold k in He.
  set (w0 := record_emit e a w) in *.
  assert (Hok0 : world_ok w0) by exact Hok.
  assert (Hk0 : k < List.length (emitted w0)).
  { subst w0 k. simpl. rewrite length_app. simpl. lia. }
  destruct (if wildcardEnabled (hub w0) then _ else Some w0)
    as [w1|] eqn:Ew; [|discriminate].
  set (wl := wildcardListeners (hub w)) in *.
  assert (PW : exists s done mytasks myfails,
             piece k w0 w1 s (map (invocation k Wildcard e a) done)
                   mytasks myfails /\
             progress k Wildcard e a wl done mytasks myfails /\
             (wl = [] -> hub w1 = hub w) /\
             (forall l rest, wl = l :: rest ->
                             exists done', done = l :: done') /\
             (forall l, In l done -> once l = true ->
                        returns_value body (handler l) ->
                        gone wildcard_token l w1)).
  { assert (Hnone : wl = [] ->
              exists s done mytasks myfails,
                piece k w0 w0 s (map (invocation k Wildcard e a) done)
                      mytasks myfails /\
                progress k Wildcard e a wl done mytasks myfails /\
                (wl = [] -> hub w0 = hub w) /\
                (forall l rest, wl = l :: rest ->
                                exists done', done = l :: done') /\
                (forall l, In l done -> once l = true ->
                           returns_value body (handler l) ->
                           gone wildcard_token l w0)).
    { intros Hnil. exists [], [], [], []. split; [now apply piece_same|].
      split; [left; now rewrite Hnil|]. split; [reflexivity|].
      split; [intros l rest H; rewrite Hnil in H; discriminate H|].
      intros l []. }
    destruct (wildcardEnabled (hub w0)) eqn:Een.
    2:{ injection Ew as <-. apply Hnone.
        now destruct Hok as [(_ & _ & _ & Hoff) _]; apply Hoff. }
    unfold processWildcardListeners in Ew.
    destruct (Nat.eqb (List.length (wildcardListeners (hub w0))) 0) eqn:En.
    { injection Ew as <-. apply Hnone. apply Nat.eqb_eq in En.
      now apply length_zero_iff_nil in En. }
    change (wildcardListeners (hub w0)) with wl in Ew.
    set (ws := record_start (mkStart k Wildcard wl) w0) in *.
    assert (P0 : piece k w0 ws [mkStart k Wildcard wl] [] [] []).
    { now apply record_start_piece. }
    destruct (@fanout_prunes body fuel k Wildcard e a wl ws w1)
      as (done & mytasks & myfails & P1 & Hpr & Hfirst & Hgone);
      [intros H; discriminate H | exact (proj1 P0) | exact Hk0
      | exact (proj2 (proj1 (proj1 (proj1 P0)))) | exact Ew |].
    exists [mkStart k Wildcard wl], done, mytasks, myfails.
    split; [exact (piece_trans P0 P1)|].
    split; [exact Hpr|]. split; [|split; [exact Hfirst | exact Hgone]].
    intros Hnil. change (wildcardListeners (hub w0)) with wl in En.
    rewrite Hnil in En. discriminate. }
  destruct PW as (sW & dW & tW & fW & PW & HprW & Hsame & HfirstW & HgoneW).
  set (snapshot := orElse (JsMap.get e (events (hub w1))) []).
  assert (PS : exists s done mytasks myfails,
             piece k w1 w' s (map (invocation k Specific e a) done)
                   mytasks myfails /\
             progress k Specific e a snapshot done mytasks myfails /\
             (snapshot = [] \/ In (mkStart k Specific snapshot) s) /\
             (forall l rest, snapshot = l :: rest ->
                             exists done', done = l :: done') /\
             (forall l, In l done -> once l = true ->
                        returns_value body (handler l) -> gone e l w') /\
             (forall n l, gone n l w1 -> gone n l w')).
  { unfold processSpecificListeners in He. subst snapshot.
    destruct (JsMap.get e (events (hub w1))) as [ls|] eqn:Eg; simpl.
    - set (ws := record_start (mkStart k Specific ls) w1) in *.
      assert (P0 : piece k w1 ws [mkStart k Specific ls] [] [] []).
      { apply record_start_piece; [exact (proj1 PW) | exact (piece_lt PW)
                                  | reflexivity]. }
      assert (Hne : Specific = Specific -> e <> wildcard_token).
      { intros _ ->. destruct (proj1 PW) as [(_ & _ & Hstar & _) _].
        unfold JsMap.has in Hstar. now rewrite Eg in Hstar. }
      destruct (@fanout_prunes body fuel k Specific e a ls ws w')
        as (done & mytasks & myfails & P1 & Hpr & Hfirst & Hgone);
        [exact Hne | exact (proj1 P0) | exact (piece_lt PW) | | exact He |].
      { exact (proj2 (@Forall_values_get (seq_ok (next_id w1)) e ls
                        (events (hub w1))
                        (proj1 (proj2 (proj1 (proj1 PW)))) Eg)). }
      exists [mkStart k Specific ls], done, mytasks, myfails.
      split; [exact (piece_trans P0 P1)|].
      split; [exact Hpr|]. split; [right; now left|].
      split; [exact Hfirst|]. split; [exact Hgone|].
      intros n l Hg.
      apply (@fanout_gone body n l fuel k Specific e a ls ws w' Hne);
        [|exact He].
      split; [exact (proj1 P0) | exact Hg].
    - injection He as <-. exists [], [], [], []. split.
      + apply piece_same; [exact (proj1 PW) | reflexivity | exact (piece_lt PW)].
      + split; [now left|]. split; [now left|].
        split; [intros l rest H; discriminate H|].
        split; [intros l []|auto]. }
  destruct PS as (sS & dS & tS & fS & PS & HprS & Hstart & HfirstS & HgoneS
                  & Hcarry).
  pose proof (piece_trans PW PS) as PWS.
  assert (Hp0 : forall x, In x (parked w0) -> t_emit x <> k).
  { intros x Hin. specialize (Hpk x Hin). simpl in Hpk. subst k. lia. }
  assert (Hf0 : forall x, In x (failed w0) -> fl_emit x <> k).
  { intros x Hin. specialize (Hfl x Hin). simpl in Hfl. subst k. lia. }
  destruct (progress_snapshot HprW) as (HsnapW & HotherW & _).
  destruct (progress_snapshot HprS) as (HsnapS & HotherS & _).
  assert (WS : Wildcard <> Specific) by discriminate.
  assert (SW : Specific <> Wildcard) by discriminate.
  exists dW, dS, snapshot.
  split; [|split; [|split; [|split; [|split; [|split; [|split;
    [|split; [|split; [|split]]]]]]]]].
  - destruct (piece_emitted PWS) as [more Hmore]. rewrite Hmore.
    subst w0. simpl. rewrite <- app_assoc. simpl.
    rewrite nth_error_app2 by (subst k; lia).
    subst k. now rewrite Nat.sub_diag.
  - rewrite (piece_calls PS), (piece_calls PW).
    change (trace w0) with (trace w). now rewrite Hold.
  - destruct (piece_halts Wildcard PWS Hp0 Hf0) as [-> ->].
    rewrite waiting_app, abandoned_app.
    destruct (HotherS Wildcard WS) as [-> ->]. rewrite !app_nil_r.
    exact HsnapW.
  - destruct (piece_halts Specific PWS Hp0 Hf0) as [-> ->].
    rewrite waiting_app, abandoned_app.
    destruct (HotherW Specific SW) as [-> ->]. simpl. exact HsnapS.
  - destruct Hstart as [Hs|Hs]; [now left|]. right.
    eapply piece_starts; [exact PS | exact Hs].
  - intros Hnil. subst snapshot. now rewrite (Hsame Hnil).
  - exact HfirstW.
  - exact HfirstS.
  - intros l Hin Honce Hret. apply Hcarry. now apply HgoneW.
  - exact HgoneS.
  - exists w1. split; [exact Ew | reflexivity].
Qed.

(** X17: the wildcard listeners are called before the listeners of the
    event, and every record of the two copies is accounted for.  When
    [emit(e)] gives the control back, at its first [await] at the latest,
    the handler calls that it has made for its own listeners are calls of
    wildcard records followed by calls of records of the specific fan-out.
    The wildcard records called are the first records of the wildcard list
    of the world [emit] was called in; the rest of that list waits in the
    parked wildcard fan-out, or was abandoned because the fan-out failed.
    The same holds of the copy that the specific fan-out took when it
    started: the sequence that [e] had when the wildcard fan-out gave the
    control back, which is the sequence of [e] of the world [emit] was
    called in when no wildcard listener ran first.  In synchronous mode, where nothing waits, the
    whole wildcard list has been called before the first listener of the
    event unless the wildcard fan-out failed. *)
Theorem wildcard_listeners_are_called_first :
  forall body options w fuel e a w',
    reachable body options w ->
    emit body fuel e a w = Some w' ->
    let k := List.length (emitted w) in
    exists calledW calledS snapshot,
      of_call iv_emit k (trace w') =
        map (invocation k Wildcard e a) calledW ++
        map (invocation k Specific e a) calledS /\
      calledW ++ waiting k Wildcard (parked w') ++
        abandoned k Wildcard (failed w') = wildcardListeners (hub w) /\
      calledS ++ waiting k Specific (parked w') ++
        abandoned k Specific (failed w') = snapshot /\
      (snapshot = [] \/ In (mkStart k Specific snapshot) (started w')) /\
      (exists w1,
         (if wildcardEnabled (hub w)
          then processWildcardListeners body (emit body (pred fuel)) k e a
                 (record_emit e a w)
          else Some (record_emit e a w)) = Some w1 /\
         snapshot = orElse (JsMap.get e (events (hub w1))) []) /\
      (wildcardListeners (hub w) = [] ->
       snapshot = orElse (JsMap.get e (events (hub w))) []) /\
      (asyncEnabled (hub w) = false ->
       abandoned k Wildcard (failed w') = [] ->
       calledW = wildcardListeners (hub w)).
Proof.
  intros body options w fuel e a w' Hr He k.
  assert (Hr' : reachable body options w').
  { apply reachable_step with (w := w) (fuel := fuel) (a := Call (CEmit e a));
      [exact Hr | exact He]. }
  destruct (@emit_own_calls body fuel e a w w' (reachable_world_ok Hr)
              (reachable_recorded Hr) He)
    as (calledW & calledS & snapshot & _ & Hcalls & HW & HS & Hstart & Hsnap
        & _ & _ & _ & _ & Hcopy).
  fold k in Hcalls, HW, HS, Hstart, Hcopy.
  exists calledW, calledS, snapshot.
  split; [exact Hcalls|]. split; [exact HW|]. split; [exact HS|].
  split; [exact Hstart|]. split; [exact Hcopy|]. split; [exact Hsnap|].
  intros Hsync Hnone. rewrite <- HW, Hnone.
  assert (Hp : parked w' = []).
  { apply (reachable_never_parks Hr').
    pose proof (reachable_switches Hr) as H1.
    pose proof (reachable_switches Hr') as H2.
    unfold switches in *. congruence. }
  rewrite Hp, waiting_nil. now rewrite !app_nil_r.
Qed.

(** X18: an error that the dispatcher catches is reported to the error
    listeners with the error, the name of the event and the handler that
    failed.  When the registry has the key of the error event,
    [handleError(error, event, handler)] does not throw, whatever the error
    is: it makes the nested call [emit('error', error, event, handler)],
    which is the next [emit] call on record, and it returns when the
    handlers neither call [emit] themselves nor throw when they are told of
    an error.  By the time it returns, the calls made
    for that dispatch are calls of wildcard listeners with the arguments
    [('error', error, event, handler)], the first wildcard listener among
    them, followed by calls of the error listeners with
    [(error, event, handler)]; when there is no wildcard listener the first
    error listener has been called, and every error listener has been
    called, or waits behind a promise, or was abandoned by a fan-out that
    failed. *)
Theorem caught_error_is_reported :
  forall body fuel err ev h w ls,
    world_ok w -> recorded w ->
    JsMap.get error_event (events (hub w)) = Some ls ->
    let k := List.length (emitted w) in
    let report := [err; VStr ev; VFun h] in
    (no_reentry body -> calm body -> 1 <= fuel ->
     exists w', handleError (emit body fuel) err ev h w = Some (Returns w')) /\
    forall c,
    handleError (emit body fuel) err ev h w = Some c ->
    exists w' calledW calledS,
      c = Returns w' /\
      nth_error (emitted w') k = Some (error_event, report) /\
      of_call iv_emit k (trace w') =
        map (invocation k Wildcard error_event report) calledW ++
        map (invocation k Specific error_event report) calledS /\
      (forall iv, In iv (of_call iv_emit k (trace w')) ->
         iv_args iv =
           match iv_kind iv with
           | Wildcard => VStr error_event :: report
           | Specific => report
           end) /\
      (forall l rest, wildcardListeners (hub w) = l :: rest ->
                      exists called, calledW = l :: called) /\
      (wildcardListeners (hub w) = [] ->
       (forall l rest, ls = l :: rest ->
                       exists called, calledS = l :: called) /\
       calledS ++ waiting k Specific (parked w') ++
         abandoned k Specific (failed w') = ls).
Proof.
  intros body fuel err ev h w ls Hok Hrec Hget k report. split.
  { intros Hno Hcalm Hfuel. destruct fuel as [|fuel]; [lia|].
    unfold handleError, JsMap.has. rewrite Hget.
    destruct (emit_report_total Hno Hcalm fuel err ev h w) as [w' ->].
    eauto. }
  intros c He.
  unfold handleError in He. unfold JsMap.has in He. rewrite Hget in He.
  destruct (emit body fuel error_event [err; VStr ev; VFun h] w)
    as [w'|] eqn:Ee; [|discriminate].
  injection He as <-.
  destruct (@emit_own_calls body fuel error_event report w w' Hok Hrec Ee)
    as (calledW & calledS & snapshot & Hem & Hcalls & _ & HS & _ & Hsnap
        & HfirstW & HfirstS & _).
  fold k in Hem, Hcalls, HS. exists w', calledW, calledS.
  split; [reflexivity|]. split; [exact Hem|]. split; [exact Hcalls|].
  split; [|split; [exact HfirstW|]].
  - intros iv Hin. rewrite Hcalls in Hin. apply in_app_or in Hin.
    destruct Hin as [Hin|Hin]; apply in_map_iff in Hin;
      destruct Hin as (l & <- & _); reflexivity.
  - intros Hnil. specialize (Hsnap Hnil). rewrite Hget in Hsnap.
    simpl in Hsnap. rewrite Hsnap in HS, HfirstS.
    split; [exact HfirstS | exact HS].
Qed.

(** X22: a one-shot record whose handler returns a value is removed by the
    dispatch that calls it, whatever the other handlers do.  When [emit(e)]
    gives the control back having called the record [l] in one of its two
    fan-outs, [l] registered with [once] and its handler returning a value
    that is not a promise, [l] is no longer in the sequence that the
    fan-out iterated (the wildcard list, or the sequence of [e]), even if
    other handlers threw, returned promises, or registered and removed
    listeners meanwhile; and nothing that happens later puts the record
    back. *)
Theorem one_shot_record_removed_by_its_call :
  forall body options w fuel e a w' kind l,
    reachable body options w ->
    emit body fuel e a w = Some w' ->
    In (invocation (List.length (emitted w)) kind e a l) (trace w') ->
    once l = true ->
    returns_value body (handler l) ->
    ~ In l (sequence_of (fanout_name kind e) w') /\
    forall fuel' acts w'',
      steps body fuel' acts w' = Some w'' ->
      ~ In l (sequence_of (fanout_name kind e) w'').
Proof.
  intros body options w fuel e a w' kind l Hr He Hin Honce Hret.
  set (k := List.length (emitted w)) in *.
  assert (Hr' : reachable body options w').
  { apply reachable_step with (w := w) (fuel := fuel) (a := Call (CEmit e a));
      [exact Hr | exact He]. }
  destruct (@emit_own_calls body fuel e a w w' (reachable_world_ok Hr)
              (reachable_recorded Hr) He)
    as (calledW & calledS & snapshot & _ & Hcalls & _ & _ & _ & _ & _ & _
        & HgW & HgS & _).
  fold k in Hcalls.
  assert (Hmine : In (invocation k kind e a l)
                     (of_call iv_emit k (trace w'))).
  { unfold of_call. apply filter_In. split; [exact Hin|].
    simpl. apply Nat.eqb_refl. }
  assert (Hgone : gone (fanout_name kind e) l w').
  { rewrite Hcalls in Hmine. apply in_app_or in Hmine.
    destruct Hmine as [H|H]; apply in_map_iff in H;
      destruct H as (l' & Heq & Hl'); unfold invocation in Heq;
      injection Heq as <- <-; simpl; auto. }
  split; [exact (proj2 Hgone)|].
  intros fuel' acts w'' Hs.
  assert (Hk : kept (gone (fanout_name kind e) l) w').
  { split; [exact (reachable_world_ok Hr') | exact Hgone]. }
  exact (proj2 (proj2 (@steps_gone body _ l fuel' acts w' w'' Hk Hs))).
Qed.

(* ================================================================== *)
(** * The shared instance and the class decorator *)

Module SingletonFacts.
Import Singleton.

Lemma nth_error_update c f cs : forall c',
  nth_error (update c f cs) c' =
  if Nat.eqb c' c then option_map f (nth_error cs c) else nth_error cs c'.
Proof.
  revert c. induction cs as [|k cs IH]; intros c c'.
  - destruct (Nat.eqb c' c); destruct c; destruct c'; reflexivity.
  - destruct c as [|c]; destruct c' as [|c']; simpl; auto.
Qed.

Lemma length_update c f cs : List.length (update c f cs) = List.length cs.
Proof.
  revert c. induction cs as [|k cs IH]; intros [|c]; simpl; auto.
Qed.

(** A property found along a chain is found along a longer one. *)
Lemma lookup_deeper own cs d : forall D c v,
  lookup own cs d c = Some v -> d <= D -> lookup own cs D c = Some v.
Proof.
  induction d as [|d IH]; intros D c v H Hle; [discriminate|].
  destruct D as [|D]; [lia|]. simpl in *.
  destruct (nth_error cs c) as [k|]; [|discriminate].
  destruct (own k); [exact H|].
  destruct (extends_ k); [|discriminate].
  apply IH; [exact H | lia].
Qed.

Lemma lookup_app own cs l d : forall c v,
  lookup own cs d c = Some v -> lookup own (cs ++ l) d c = Some v.
Proof.
  induction d as [|d IH]; intros c v H; [discriminate|]. simpl in *.
  destruct (nth_error cs c) as [k|] eqn:E; [|discriminate].
  rewrite nth_error_app1 by (apply nth_error_Some; congruence).
  rewrite E. destruct (own k); [exact H|].
  destruct (extends_ k); [|discriminate]. now apply IH.
Qed.

(** The lookup of a property after a constructor was given it. *)
Section Given.

Variable own : Constructor -> option Obj.
Variable put : Constructor -> Constructor.
Variable o : Obj.

Hypothesis own_put : forall k, own (put k) = Some o.
Hypothesis extends_put : forall k, extends_ (put k) = extends_ k.

Variable cs : list Constructor.
Variable Fn : nat.

Hypothesis Fn_lt : Fn < List.length cs.

Lemma lookup_given d : lookup own (update Fn put cs) (S d) Fn = Some o.
Proof.
  simpl. rewrite nth_error_update, Nat.eqb_refl.
  destruct (nth_error cs Fn) as [k|] eqn:E.
  - simpl. now rewrite own_put.
  - apply nth_error_None in E. lia.
Qed.

Lemma lookup_kept D :
  lookup own cs D Fn = None ->
  forall d c v,
    d <= D -> lookup own cs d c = Some v ->
    lookup own (update Fn put cs) d c = Some v.
Proof.
  intros Hnone. induction d as [|d IH]; intros c v Hle H; [discriminate|].
  simpl in *. rewrite nth_error_update.
  destruct (Nat.eqb c Fn) eqn:Ec.
  - apply Nat.eqb_eq in Ec. subst c. exfalso.
    assert (Hs : lookup own cs (S d) Fn = Some v) by exact H.
    rewrite (@lookup_deeper own cs (S d) D Fn v Hs Hle) in Hnone.
    discriminate.
  - destruct (nth_error cs c) as [k|]; [|discriminate].
    destruct (own k); [exact H|].
    destruct (extends_ k); [|discriminate].
    apply IH; [lia | exact H].
Qed.

End Given.

(** The lookup of a property that an update leaves alone. *)
Lemma lookup_untouched own put cs Fn :
  (forall k, own (put k) = own k) ->
  (forall k, extends_ (put k) = extends_ k) ->
  forall d c, lookup own (update Fn put cs) d c = lookup own cs d c.
Proof.
  intros Hown Hext. induction d as [|d IH]; intros c; [reflexivity|].
  simpl. rewrite nth_error_update.
  destruct (Nat.eqb c Fn) eqn:Ec.
  - apply Nat.eqb_eq in Ec. subst c.
    destruct (nth_error cs Fn) as [k|]; [|reflexivity].
    simpl. rewrite Hown, Hext. destruct (own k); [reflexivity|].
    destruct (extends_ k); auto.
  - destruct (nth_error cs c) as [k|]; [|reflexivity].
    destruct (own k); [reflexivity|]. destruct (extends_ k); auto.
Qed.

Lemma get_instance_defined Fn o r :
  Fn < List.length (constructors r) ->
  get_instance Fn (define_instance Fn o r) = Some o.
Proof.
  intros Hlt. unfold get_instance, define_instance. simpl.
  rewrite length_update.
  destruct (List.length (constructors r)) as [|n] eqn:E; [lia|].
  apply lookup_given; [reflexivity | lia].
Qed.

Lemma get_instance_kept Fn o r c o' :
  Fn < List.length (constructors r) ->
  get_instance Fn r = None ->
  get_instance c r = Some o' ->
  get_instance c (define_instance Fn o r) = Some o'.
Proof.
  intros Hlt Hnone H. unfold get_instance, define_instance in *. simpl.
  rewrite length_update.
  eapply lookup_kept; eauto.
Qed.

Lemma get_eventHub_given target o r :
  target < List.length (constructors r) ->
  get_eventHub target (assign_eventHub target o r) = Some o.
Proof.
  intros Hlt. unfold get_eventHub, assign_eventHub. simpl.
  rewrite length_update.
  destruct (List.length (constructors r)) as [|n] eqn:E; [lia|].
  apply lookup_given; [reflexivity | lia].
Qed.

Lemma get_eventHub_kept target o r c o' :
  target < List.length (constructors r) ->
  get_eventHub target r = None ->
  get_eventHub c r = Some o' ->
  get_eventHub c (assign_eventHub target o r) = Some o'.
Proof.
  intros Hlt Hnone H. unfold get_eventHub, assign_eventHub in *. simpl.
  rewrite length_update.
  eapply lookup_kept; eauto.
Qed.

Lemma get_eventHub_define_instance Fn o r c :
  get_eventHub c (define_instance Fn o r) = get_eventHub c r.
Proof.
  unfold get_eventHub, define_instance. simpl. rewrite length_update.
  now apply lookup_untouched.
Qed.

Lemma get_instance_assign_eventHub target o r c :
  get_instance c (assign_eventHub target o r) = get_instance c r.
Proof.
  unfold get_instance, assign_eventHub. simpl. rewrite length_update.
  now apply lookup_untouched.
Qed.

(** X19: [Instance(Fn)] gives one object per constructor and for good.
    The object it returns is the one that every later call for [Fn]
    returns, and such a call changes nothing; the first call creates the
    object with [new Fn()] unless [Fn] inherits an [_instance] from a
    constructor it extends, which is then returned and nothing is created;
    the shared instance of every other constructor and the dispatchers that
    the decorator attached are left as they are. *)
Theorem Instance_returns_one_object :
  forall Fn r res r1,
    Instance Fn r = Some (res, r1) ->
    exists o,
      res = Some o /\
      Instance Fn r1 = Some (Some o, r1) /\
      (forall c o', get_instance c r = Some o' -> get_instance c r1 = Some o') /\
      (forall c, get_eventHub c r1 = get_eventHub c r) /\
      (get_instance Fn r = None ->
       o = mkObj Fn (next_obj r) /\ next_obj r1 = S (next_obj r)) /\
      (forall o', get_instance Fn r = Some o' -> o = o' /\ r1 = r).
Proof.
  intros Fn r res r1 H. unfold Instance in H.
  destruct (Nat.ltb Fn (List.length (constructors r))) eqn:Hlt; [|discriminate].
  apply Nat.ltb_lt in Hlt. cbv zeta in H.
  destruct (get_instance Fn r) as [o0|] eqn:Hg.
  - injection H as <- <-. rewrite Hg. exists o0.
    split; [reflexivity|]. split.
    + unfold Instance. apply Nat.ltb_lt in Hlt. rewrite Hlt. cbv zeta.
      now rewrite !Hg.
    + split; [auto|]. split; [auto|]. split; [discriminate|].
      intros o' [= ->]. auto.
  - simpl in H. injection H as <- <-.
    set (o := mkObj Fn (next_obj r)).
    set (r0 := mkRealm (constructors r) (S (next_obj r))).
    assert (Hd : get_instance Fn (define_instance Fn o r0) = Some o).
    { now apply get_instance_defined. }
    exists o. rewrite Hd. split; [reflexivity|]. split.
    + unfold Instance. simpl. rewrite length_update.
      apply Nat.ltb_lt in Hlt. rewrite Hlt. cbv zeta. now rewrite !Hd.
    + split; [|split; [|split]].
      * intros c o' Hc. apply get_instance_kept; auto.
      * intros c. apply (get_eventHub_define_instance Fn o r0 c).
      * intros _. split; reflexivity.
      * discriminate.
Qed.

(** X20: [decoratorEventHub(target)] attaches one dispatcher to the
    prototype of a class, once.  After it, [target.prototype.eventHub] is an
    object that a second decoration does not replace; it is a new
    [EventHub] unless the class inherits one from a decorated class it
    extends, and then nothing is created and the class shares the
    dispatcher of that class; the dispatchers of the other classes and the
    shared instances are left as they are. *)
Theorem decorator_attaches_one_dispatcher :
  forall target r r1,
    decoratorEventHub target r = Some r1 ->
    exists o,
      get_eventHub target r1 = Some o /\
      decoratorEventHub target r1 = Some r1 /\
      (forall c o', get_eventHub c r = Some o' -> get_eventHub c r1 = Some o') /\
      (forall c, get_instance c r1 = get_instance c r) /\
      (get_eventHub target r = None ->
       o = mkObj EventHub_ (next_obj r) /\ next_obj r1 = S (next_obj r)) /\
      (forall o', get_eventHub target r = Some o' -> o = o' /\ r1 = r).
Proof.
  intros target r r1 H. unfold decoratorEventHub in H.
  destruct (Nat.ltb target (List.length (constructors r))) eqn:Hlt;
    [|discriminate].
  apply Nat.ltb_lt in Hlt.
  destruct (get_eventHub target r) as [o0|] eqn:Hg.
  - injection H as <-. exists o0. split; [exact Hg|]. split.
    + unfold decoratorEventHub. apply Nat.ltb_lt in Hlt.
      now rewrite Hlt, Hg.
    + split; [auto|]. split; [auto|]. split; [discriminate|].
      intros o' [= ->]. auto.
  - simpl in H. injection H as <-.
    set (o := mkObj EventHub_ (next_obj r)).
    set (r0 := mkRealm (constructors r) (S (next_obj r))).
    assert (Hd : get_eventHub target (assign_eventHub target o r0) = Some o).
    { now apply get_eventHub_given. }
    exists o. split; [exact Hd|]. split.
    + unfold decoratorEventHub. rewrite Hd. simpl. rewrite length_update.
      apply Nat.ltb_lt in Hlt. now rewrite Hlt.
    + split; [|split; [|split]].
      * intros c o' Hc. apply get_eventHub_kept; auto.
      * intros c. apply (get_instance_assign_eventHub target o r0 c).
      * intros _. split; reflexivity.
      * discriminate.
Qed.

(** ** The classes that extend [EventHub] *)

Lemma descends_lt cs c a : descends cs c a -> c < List.length cs.
Proof.
  intros H. destruct H as [c k E|c k s a E _ _];
    apply nth_error_Some; congruence.
Qed.

Lemma descends_same_extends cs cs' :
  (forall c k, nth_error cs c = Some k ->
     exists k', nth_error cs' c = Some k' /\ extends_ k' = extends_ k) ->
  forall c a, descends cs c a -> descends cs' c a.
Proof.
  intros Hsame c a H. induction H as [c k E|c k s a E Hs _ IH].
  - destruct (Hsame c k E) as (k' & E' & _). econstructor; eauto.
  - destruct (Hsame c k E) as (k' & E' & Hx).
    eapply descends_extends; eauto. congruence.
Qed.

Lemma update_same_extends c f cs :
  (forall k, extends_ (f k) = extends_ k) ->
  forall c' k, nth_error cs c' = Some k ->
    exists k', nth_error (update c f cs) c' = Some k' /\
               extends_ k' = extends_ k.
Proof.
  intros Hf c' k E. rewrite nth_error_update.
  destruct (Nat.eqb c' c) eqn:Ec.
  - apply Nat.eqb_eq in Ec. subst c'. rewrite E. simpl. eauto.
  - eauto.
Qed.

Lemma updated_same_extends c f cs :
  (forall k, extends_ (f k) = extends_ k) ->
  forall c' k', nth_error (update c f cs) c' = Some k' ->
    exists k, nth_error cs c' = Some k /\ extends_ k = extends_ k'.
Proof.
  intros Hf c' k' E. rewrite nth_error_update in E.
  destruct (Nat.eqb c' c) eqn:Ec.
  - apply Nat.eqb_eq in Ec. subst c'.
    destruct (nth_error cs c) as [k|]; [|discriminate].
    injection E as <-. eauto.
  - eauto.
Qed.

Lemma well_formed_update c f cs :
  (forall k, extends_ (f k) = extends_ k) ->
  well_formed cs -> well_formed (update c f cs).
Proof.
  intros Hf Hwf c' k' s E Hs.
  destruct (updated_same_extends c f cs Hf c' E) as (k & Ek & Hx).
  apply (Hwf c' k s Ek). congruence.
Qed.

Lemma shared_loaded : shared loaded.
Proof.
  split; [|split].
  - intros [|[|c]] k s E Hs; simpl in E; try discriminate.
    injection E as <-. discriminate.
  - simpl. lia.
  - intros c H. apply descends_lt in H. simpl in H.
    assert (c = 0) by lia. subst c. reflexivity.
Qed.

Lemma shared_define_instance Fn o r :
  Fn < List.length (constructors r) ->
  get_instance Fn r = None ->
  shared r -> shared (define_instance Fn o r).
Proof.
  intros Hlt Hnone (Hwf & Hpos & Hsh). split; [|split].
  - now apply well_formed_update.
  - simpl. now rewrite length_update.
  - intros c Hc. apply get_instance_kept; auto. apply Hsh.
    eapply descends_same_extends; [|exact Hc].
    intros c' k' E. now apply updated_same_extends in E.
Qed.

Lemma shared_assign_eventHub target o r :
  shared r -> shared (assign_eventHub target o r).
Proof.
  intros (Hwf & Hpos & Hsh). split; [|split].
  - now apply well_formed_update.
  - simpl. now rewrite length_update.
  - intros c Hc. rewrite get_instance_assign_eventHub. apply Hsh.
    eapply descends_same_extends; [|exact Hc].
    intros c' k' E. now apply updated_same_extends in E.
Qed.

Lemma shared_declare parent r r' :
  declare parent r = Some r' -> shared r -> shared r'.
Proof.
  intros Hd (Hwf & Hpos & Hsh). unfold declare in Hd.
  set (n := List.length (constructors r)) in *.
  set (new := mkConstructor parent None None) in *.
  assert (Hr' : r' = mkRealm (constructors r ++ [new]) (next_obj r) /\
                forall p, parent = Some p -> p < n).
  { destruct parent as [p|].
    - destruct (Nat.ltb p n) eqn:E; [|discriminate]. injection Hd as <-.
      split; [reflexivity|]. intros p' [= <-]. now apply Nat.ltb_lt.
    - injection Hd as <-. split; [reflexivity | discriminate]. }
  destruct Hr' as [-> Hp]. clear Hd.
  assert (Hold : forall c k,
            nth_error (constructors r ++ [new]) c = Some k ->
            (c < n /\ nth_error (constructors r) c = Some k) \/
            (c = n /\ k = new)).
  { intros c k E. destruct (Nat.lt_ge_cases c n) as [Hc|Hc].
    - left. split; [exact Hc|]. now rewrite nth_error_app1 in E.
    - right. rewrite nth_error_app2 in E by exact Hc. fold n in E.
      destruct (c - n) as [|[|m]] eqn:Em; simpl in E; try discriminate.
      split; [lia | congruence]. }
  assert (Hwf' : well_formed (constructors r ++ [new])).
  { intros c k s E Hs. destruct (Hold c k E) as [[Hc Ek]|[-> ->]].
    - exact (Hwf c k s Ek Hs).
    - simpl in Hs. now apply Hp. }
  assert (Hall : forall c a,
            descends (constructors r ++ [new]) c a ->
            a = EventHub_ ->
            lookup own_instance (constructors r ++ [new]) (S n) c =
              Some (mkObj EventHub_ 0) /\
            (c < n -> descends (constructors r) c a)).
  { intros c a H. induction H as [c k E|c k s a E Hs Hdesc IH]; intros Ha.
    - subst c. unfold EventHub_ in *.
      destruct (Hold _ k E) as [[Hc Ek]|[Hc _]]; [|lia].
      split; [|intros _; econstructor; eauto].
      apply lookup_deeper with (d := n); [|lia]. apply lookup_app.
      apply Hsh. econstructor; eauto.
    - destruct (IH Ha) as [Hlook Hdown].
      destruct (Hold _ k E) as [[Hc Ek]|[Hc Hk]].
      + assert (Hsc : s < c) by (eapply Hwf; eauto).
        assert (Hd : descends (constructors r) c a).
        { eapply descends_extends; eauto. apply Hdown. lia. }
        split; [|intros _; exact Hd].
        apply lookup_deeper with (d := n); [|lia]. apply lookup_app.
        subst a. now apply Hsh.
      + split; [|lia]. subst c k. simpl in Hs.
        assert (Hsn : s < n) by now apply Hp.
        assert (Hds : descends (constructors r) s a) by now apply Hdown.
        change (lookup own_instance (constructors r ++ [new]) (S n) n)
          with (match nth_error (constructors r ++ [new]) n with
                | None => None
                | Some k =>
                    match own_instance k with
                    | Some v => Some v
                    | None =>
                        match extends_ k with
                        | Some s0 =>
                            lookup own_instance (constructors r ++ [new]) n s0
                        | None => None
                        end
                    end
                end).
        rewrite E. simpl. rewrite Hs.
        apply lookup_app. subst a. now apply Hsh. }
  split; [exact Hwf'|]. split.
  - simpl. rewrite length_app. simpl. lia.
  - intros c Hc. unfold get_instance. simpl. rewrite length_app. simpl.
    replace (List.length (constructors r) + 1) with (S n) by (subst n; lia).
    now apply (Hall c EventHub_ Hc).
Qed.

Lemma shared_step a r r' :
  realm_step a r = Some r' -> shared r -> shared r'.
Proof.
  intros Hs Hsh. destruct a as [parent|Fn|target]; simpl in Hs.
  - eapply shared_declare; eauto.
  - unfold Instance in Hs.
    destruct (Nat.ltb Fn (List.length (constructors r))) eqn:Hlt;
      [|discriminate].
    apply Nat.ltb_lt in Hlt. cbv zeta in Hs.
    destruct (get_instance Fn r) eqn:Hg.
    + now injection Hs as <-.
    + simpl in Hs. injection Hs as <-.
      apply shared_define_instance; auto.
  - unfold decoratorEventHub in Hs.
    destruct (Nat.ltb target (List.length (constructors r))); [|discriminate].
    destruct (get_eventHub target r).
    + now injection Hs as <-.
    + simpl in Hs. injection Hs as <-. now apply shared_assign_eventHub.
Qed.

Lemma reachable_shared r : realm_reachable r -> shared r.
Proof.
  induction 1 as [|r a r' _ IH Hs]; [apply shared_loaded|].
  eapply shared_step; eauto.
Qed.

Lemma realm_steps_reachable acts : forall r r',
  realm_reachable r -> realm_steps acts r = Some r' -> realm_reachable r'.
Proof.
  induction acts as [|a acts IH]; simpl; intros r r' Hr Hs.
  - now injection Hs as <-.
  - destruct (realm_step a r) as [r1|] eqn:E; [|discriminate].
    eapply IH; [|exact Hs]. econstructor; eauto.
Qed.

(** X21: the classes that extend [EventHub] have no instance of their
    own.  The module creates its shared instance [eventHub] when it is
    loaded; from then on, whatever classes are declared or decorated and
    whatever [Instance] is called with, [Instance(Sub)] for a class [Sub]
    that extends [EventHub], directly or not, returns that same [eventHub],
    which is an [EventHub] and not a [Sub], and creates nothing. *)
Theorem subclasses_share_the_instance :
  forall r c,
    realm_reachable r ->
    descends (constructors r) c EventHub_ ->
    eventHub = Some (mkObj EventHub_ 0) /\
    Instance c r = Some (eventHub, r).
Proof.
  intros r c Hr Hc. split; [reflexivity|].
  apply reachable_shared in Hr. destruct Hr as (_ & _ & Hsh).
  pose proof (descends_lt Hc) as Hlt. apply Nat.ltb_lt in Hlt.
  unfold Instance. rewrite Hlt. cbv zeta.
  rewrite (Hsh c Hc). rewrite (Hsh c Hc). reflexivity.
Qed.

End SingletonFacts.

Module Examples.

Import Demo.
Local Open Scope string_scope.
Local Open Scope Z_scope.

Lemma demo_reachable : reachable demo default_options demo_world.
Proof.
  apply (@steps_reachable demo default_options 2 script
           (construct default_options)).
  - constructor.
  - reflexivity.
Qed.

Lemma demo_started : In demo_start (started demo_world).
Proof. right. left. reflexivity. Qed.


Lemma registry_sorted_witness :
  registry_sorted demo_world /\ registry_sorted demo_next.
Proof.
  destruct (registry_sorted_invariant demo_reachable) as [H1 H2].
  split; [exact H1|].
  apply (H2 1%nat (Call (COn "x" watcher VUndefined (Some 5)))).
  reflexivity.
Defined.

Lemma handler_arguments_witness :
  exists e args,
    nth_error (emitted demo_world) (iv_emit watcher_call) = Some (e, args) /\
    iv_this watcher_call = VThis /\
    iv_args watcher_call = VStr e :: args.
Proof.
  apply (@handler_arguments_receiver demo default_options demo_world
           watcher_call demo_reachable).
  left. reflexivity.
Defined.

(** The context [0] was given to the wildcard listener, and the receiver of
    its call is the dispatcher, not the bound context: a context that is
    given but falsy is not the receiver. *)
Lemma falsy_context_receiver :
  exists iv,
    In iv (trace demo_world) /\
    context (iv_listener iv) = VNum 0 /\
    context (iv_listener iv) <> VUndefined /\
    iv_this iv = VThis /\
    iv_this iv <> context (iv_listener iv).
Proof.
  exists watcher_call.
  split; [left; reflexivity|]. simpl.
  repeat split; try reflexivity; intro H; discriminate H.
Qed.

(** ** One-shot listeners whose handler throws *)

(** C1, on the code: a one-shot listener whose handler throws is still
    registered after the dispatch, on a named event and on the wildcard
    list alike, and the next [emit] calls it again: the removal is the last
    statement of the [try] block, which the exception skips. *)
Theorem once_listener_survives_throw :
  exists w1 w2,
    emit demo 1 "x" [VNum 7] once_world = Some w1 /\
    listenerCount "x" w1 = 1%nat /\
    listenerCount "*" w1 = 1%nat /\
    emit demo 1 "x" [VNum 7] w1 = Some w2 /\
    map (fun iv => (iv_kind iv, handler (iv_listener iv), once (iv_listener iv)))
        (trace w2) =
      [(Wildcard, thrower, true); (Specific, thrower, true);
       (Wildcard, thrower, true); (Specific, thrower, true)] /\
    listenerCount "x" w2 = 1%nat /\
    listenerCount "*" w2 = 1%nat.
Proof.
  eexists. eexists.
  split; [vm_compute; reflexivity|].
  split; [reflexivity|]. split; [reflexivity|].
  split; [vm_compute; reflexivity|].
  split; [reflexivity|]. split; reflexivity.
Qed.

(** ** The error event after its last listener has gone *)

(** C5, on the code: no listener is registered for the error event, whose
    key [off('error', h)] left in [events]; the error of a handler is then
    dispatched as an error event all the same (the wildcard listener
    receives it) and, in debug mode, it is not printed either. *)
Theorem error_dispatched_without_listener :
  listenerCount "error" stale_world = 0%nat /\
  exists w',
    emit demo 2 "x" [VNum 7] stale_world = Some w' /\
    emitted w' = [("x", [VNum 7]); ("error", [boom; VStr "x"; VFun thrower])] /\
    map (fun iv => (iv_emit iv, handler (iv_listener iv), iv_args iv))
        (trace w') =
      [(0%nat, watcher, [VStr "x"; VNum 7]);
       (0%nat, thrower, [VNum 7]);
       (1%nat, watcher, [VStr "error"; boom; VStr "x"; VFun thrower])] /\
    console w' = [].
Proof.
  split; [reflexivity|]. eexists.
  split; [vm_compute; reflexivity|].
  split; [reflexivity|]. split; reflexivity.
Qed.

(** ** The registry *)

Lemma max_listeners_witness :
  listenerCount "x" (on "x" thrower VNull (Some 3) full_world) =
  S (listenerCount "x" full_world).
Proof.
  refine (proj2 (proj2 (proj2 (@max_listeners_never_blocks false "x" thrower
                                 VNull (Some 3) full_world _) _))).
  - vm_compute. intro H. discriminate H.
  - reflexivity.
Defined.

Lemma off_witness :
  sequence_of "x" (off (Some "x") (Some awaiter) demo_world) =
  [r_thrower; r_plain].
Proof.
  rewrite (proj1 (off_removes_exactly_handler "x" awaiter demo_world)).
  reflexivity.
Defined.

Lemma plain_reachable : reachable demo no_wildcard plain_world.
Proof.
  apply (@steps_reachable demo no_wildcard 2
           [ Call (COn "*" watcher VUndefined None);
             Call (COnce "x" plain VUndefined None);
             Call (CEmit "*" [VNum 1]) ]
           (construct no_wildcard)).
  - constructor.
  - reflexivity.
Qed.

Lemma wildcard_disabled_witness :
  hasEvent "*" plain_world = false /\
  on "*" watcher VUndefined None plain_world = plain_world.
Proof.
  destruct (@wildcard_disabled_noop demo no_wildcard plain_world eq_refl
              plain_reachable) as [H1 H2].
  split; [exact H1|]. exact (proj1 (H2 watcher VUndefined None)).
Defined.

(** [off('x', plain)] removes the only listener of ["x"], whose key stays. *)
Lemma emptied_key_witness :
  hasEvent "x" (off (Some "x") (Some plain) plain_world) = true /\
  In "x" (eventNames (off (Some "x") (Some plain) plain_world)) /\
  listenerCount "x" (off (Some "x") (Some plain) plain_world) = 0%nat.
Proof.
  refine (proj1 (proj1 (@emptied_event_key_remains demo no_wildcard
                          plain_world "x" plain_reachable) _) plain _ _).
  - reflexivity.
  - apply Nat.lt_0_1.
  - constructor; [reflexivity|constructor].
Defined.

(** With wildcard support the wildcard token has no key: [off('*', h)]
    takes [listenerCount('*')] from 1 to 0, and then [hasEvent('*')] is
    false and [eventNames()] does not list the token. *)
Lemma wildcard_token_has_no_key :
  listenerCount "*" star_world = 1%nat /\
  listenerCount "*" (off (Some "*") (Some watcher) star_world) = 0%nat /\
  hasEvent "*" (off (Some "*") (Some watcher) star_world) = false /\
  ~ In "*" (eventNames (off (Some "*") (Some watcher) star_world)).
Proof.
  split; [reflexivity|]. split; [reflexivity|]. split; [reflexivity|].
  intros H. exact H.
Qed.

(** ** A handler that throws a symbol *)

(** C4, on the code: the first listener of the event x throws a symbol
    while the registry has no key for the error event.  [handleError] then
    throws from the [catch] block while it builds the message for the
    console, in debug mode or not: the fan-out ends there, the second
    listener of the snapshot is never called, and the promise of the
    [emit] call is rejected with the [TypeError].  With a listener of the
    error event the same symbol is handed to that listener, both listeners
    of x are called and the promise is resolved to [true]. *)
Theorem symbol_error_stops_fanout :
  listenerCount "x" symbol_world = 2%nat /\
  debugMode (hub symbol_world) = false /\
  (exists w',
     emit symbolic 1 "x" [VNum 7] symbol_world = Some w' /\
     started w' = [mkStart 0 Specific [r_first; r_second]] /\
     map iv_listener (trace w') = [r_first] /\
     failed w' = [mkFailure 0 Specific VTypeError [r_second]] /\
     parked w' = [] /\
     console w' = [] /\
     emitPromise 0 w' = RejectedWith VTypeError) /\
  (exists w',
     emit symbolic 2 "x" [VNum 7]
          (on "error" watcher VUndefined None symbol_world) = Some w' /\
     invoked 0 Specific (trace w') = [r_first; r_second] /\
     map (fun iv => (iv_emit iv, handler (iv_listener iv), iv_args iv))
         (trace w') =
       [(0%nat, thrower, [VNum 7]);
        (1%nat, watcher, [VSymbol 0; VStr "x"; VFun thrower]);
        (0%nat, plain, [VNum 7])] /\
     failed w' = [] /\
     emitPromise 0 w' = Resolved true).
Proof.
  split; [reflexivity|]. split; [reflexivity|]. split.
  - eexists. split; [vm_compute; reflexivity|].
    repeat split; reflexivity.
  - eexists. split; [vm_compute; reflexivity|].
    repeat split; reflexivity.
Qed.

End Examples.

(* ================================================================== *)
(** * Further examples *)

Module MoreExamples.

Import Demo Scenes.
Local Open Scope string_scope.
Local Open Scope Z_scope.

Lemma ready_reachable : reachable demo default_options ready_world.
Proof.
  apply (@steps_reachable demo default_options 2 (firstn 4 script)
           (construct default_options)).
  - constructor.
  - reflexivity.
Qed.

Lemma waiting_reachable : reachable demo default_options waiting_world.
Proof.
  apply (@steps_reachable demo default_options 2 (firstn 5 script)
           (construct default_options)).
  - constructor.
  - reflexivity.
Qed.

Lemma sync_reachable : reachable demo sync_options sync_world.
Proof.
  apply (@steps_reachable demo sync_options 2 sync_script
           (construct sync_options)).
  - constructor.
  - reflexivity.
Qed.

Lemma child_reachable :
  reachable demo (namespace_options "child" parent_world) child_world.
Proof.
  apply (@steps_reachable demo (namespace_options "child" parent_world) 2
           child_script (createNamespace "child" parent_world)).
  - constructor.
  - reflexivity.
Qed.

Lemma mixed_reachable : reachable returns default_options mixed_world.
Proof.
  apply (@steps_reachable returns default_options 1 mixed_script
           (construct default_options)).
  - constructor.
  - reflexivity.
Qed.

Lemma returns_quiet : quiet returns.
Proof. intros h w this args. split; [reflexivity|]. intros err H. discriminate H. Qed.

(** The queries on the dispatcher of the run of [Demo.script]: a wildcard
    listener is registered, and [eventNames()] lists the event x only. *)
Lemma queries_agree_witness :
  NoDup (eventNames demo_world) /\
  ~ In wildcard_token (eventNames demo_world) /\
  (forall e, e <> wildcard_token ->
     (hasEvent e demo_world = true <-> In e (eventNames demo_world))) /\
  (hasEvent wildcard_token demo_world = true <->
   (0 < listenerCount wildcard_token demo_world)%nat) /\
  (forall e, (0 < listenerCount e demo_world)%nat ->
     hasEvent e demo_world = true).
Proof. exact (queries_agree Examples.demo_reachable). Defined.

Lemma total_is_sum_witness :
  getTotalListenerCount demo_world =
  (listenerCount wildcard_token demo_world +
   list_sum (map (fun e => listenerCount e demo_world)
                 (eventNames demo_world)))%nat.
Proof. exact (total_is_sum_of_counts Examples.demo_reachable). Defined.

(** A one-shot registration for a new event on the dispatcher of the run. *)
Lemma registration_witness :
  let w' := addListener "y" plain true VNull 4 demo_world in
  getTotalListenerCount w' = S (getTotalListenerCount demo_world) /\
  next_id w' = S (next_id demo_world) /\
  hasEvent "y" w' = true /\
  (forall e', e' <> "y" -> sequence_of e' w' = sequence_of e' demo_world) /\
  eventNames w' = ["x"; "y"] /\
  switches w' = switches demo_world /\
  maxListeners (hub w') = maxListeners (hub demo_world).
Proof.
  apply (@registration_adds_one_record "y" plain true VNull 4 demo_world).
  reflexivity.
Defined.

(** [watcher] listens to no event x of the run: to register it for x and
    remove it again changes no sequence. *)
Lemma round_trip_witness :
  let w' := off (Some "x") (Some watcher)
                (once_ "x" watcher VUndefined (Some 7) demo_world) in
  (forall e', sequence_of e' w' = sequence_of e' demo_world) /\
  eventNames w' = eventNames demo_world.
Proof.
  apply (@on_off_round_trip true "x" watcher VUndefined (Some 7) demo_world).
  intros l Hin. vm_compute in Hin.
  destruct Hin as [<-|[<-|[<-|[]]]]; intro H; discriminate H.
Defined.

(** Under the limit 1 the first of three registrations is silent and each
    of the two others prints the warning. *)
Lemma warnings_witness :
  console (run_client three_registrations (construct verbose_options)) =
    [ mkLine LWarn (Some "app") (MaxListenersExceededWarning 1);
      mkLine LWarn (Some "app") (MaxListenersExceededWarning 1) ] /\
  getTotalListenerCount
    (run_client three_registrations (construct verbose_options)) = 3%nat.
Proof.
  apply (@warnings_past_the_limit three_registrations
           (construct verbose_options)).
  - reflexivity.
  - repeat constructor.
Defined.

(** The run of [Demo.script], with its throwing listener, has printed
    nothing: the dispatcher is not in debug mode. *)
Lemma console_witness :
  console demo_world = [] /\
  (forall line, In line (console demo_world) -> line_namespace line = None).
Proof.
  destruct (console_only_in_debug_mode Examples.demo_reachable) as [H1 H2].
  split; [apply H1; reflexivity | exact H2].
Defined.

(** The child has the limit 3 of its parent and its debug mode, and it has
    printed the error of its listener under its own namespace. *)
Lemma namespace_witness :
  eventNames (createNamespace "child" parent_world) = [] /\
  getTotalListenerCount (createNamespace "child" parent_world) = 0%nat /\
  maxListeners (hub (createNamespace "child" parent_world)) = 3 /\
  switches child_world = (true, true, true, Some "child") /\
  (forall line, In line (console child_world) ->
     line_namespace line = Some "child").
Proof. exact (namespace_inherits_configuration child_reachable). Defined.


Lemma one_await_witness :
  (forall k kind,
     (List.length
        (filter (fun t => same_fanout k kind (t_emit t) (t_kind t))
                (parked waiting_world)) <= 1)%nat) /\
  (forall t, In t (parked waiting_world) ->
     nth_error (emitted waiting_world) (t_emit t) =
     Some (t_event t, t_args t)).
Proof. exact (one_await_per_fanout waiting_reachable). Defined.

(** [reset()] while the specific fan-out is parked: the fan-out stays
    parked and the promise of the [emit] call stays pending. *)
Lemma cancel_nothing_witness :
  (exists ts, parked (reset waiting_world) = (parked waiting_world ++ ts)%list) /\
  (forall k, emitPromise k waiting_world = Pending ->
             emitPromise k (reset waiting_world) = Pending).
Proof.
  apply (@client_calls_cancel_nothing demo default_options waiting_world
           CReset 1%nat (reset waiting_world) waiting_reachable).
  reflexivity.
Defined.

Lemma emit_without_listeners_witness :
  exists w',
    emit demo 1 "x" [VNum 7] (construct default_options) = Some w' /\
    hub w' = hub (construct default_options) /\
    next_id w' = 0%nat /\ console w' = [] /\ trace w' = [] /\
    parked w' = [] /\ emitted w' = [("x", [VNum 7])] /\
    emitPromise 0 w' = Resolved true.
Proof.
  apply (@emit_without_listeners demo default_options
           (construct default_options) "x" [VNum 7] 0%nat).
  - constructor.
  - reflexivity.
  - reflexivity.
Defined.

(** The wildcard fan-out of the run copies the list that holds [r_watcher]:
    after the rejection of the awaited promise it has called that record
    and no other. *)
Lemma snapshot_witness :
  (exists rest,
     [r_watcher] = (invoked 0 Wildcard (trace demo_world) ++ rest)%list) /\
  (emitPromise 0 demo_world = Resolved true ->
   invoked 0 Wildcard (trace demo_world) = [r_watcher]).
Proof.
  apply (@dispatch_iterates_snapshot demo default_options ready_world 2%nat
           "x" [VNum 7] waiting_world 2%nat [Settle 0 (Rejected boom)]
           demo_world Wildcard [r_watcher] ready_reachable).
  - split; [reflexivity | intro H; discriminate H].
  - reflexivity.
  - reflexivity.
Defined.

(** After [emit] the two one-shot records are gone and the lasting record
    of the event x, of priority 2, is left. *)
Lemma pruned_witness :
  wildcardListeners (hub mixed_after) = [] /\
  (forall e',
     JsMap.get e' (events (hub mixed_after)) =
     if String.eqb e' "x"
     then Some [mkListener 1 watcher false 2 VUndefined]
     else JsMap.get e' (events (hub mixed_world))) /\
  eventNames mixed_after = ["x"; "y"].
Proof.
  apply (@one_shot_records_pruned returns default_options mixed_world 1%nat
           "x" [VNum 7] mixed_after mixed_reachable returns_quiet).
  - reflexivity.
  - reflexivity.
Defined.

(** The run of [Demo.script] up to the [await] of the specific fan-out:
    the wildcard record was called first, then the records of the event x
    down to the one that returned a promise. *)
Lemma wildcard_first_witness :
  exists calledW calledS snapshot,
    of_call iv_emit 0 (trace waiting_world) =
      (map (invocation 0 Wildcard "x" [VNum 7]) calledW ++
       map (invocation 0 Specific "x" [VNum 7]) calledS)%list /\
    (calledW ++ waiting 0 Wildcard (parked waiting_world) ++
       abandoned 0 Wildcard (failed waiting_world))%list =
      wildcardListeners (hub ready_world) /\
    (calledS ++ waiting 0 Specific (parked waiting_world) ++
       abandoned 0 Specific (failed waiting_world))%list = snapshot /\
    (snapshot = [] \/
     In (mkStart 0 Specific snapshot) (started waiting_world)) /\
    (exists w1,
       (if wildcardEnabled (hub ready_world)
        then processWildcardListeners demo (emit demo 1) 0 "x" [VNum 7]
               (record_emit "x" [VNum 7] ready_world)
        else Some (record_emit "x" [VNum 7] ready_world)) = Some w1 /\
       snapshot = orElse (JsMap.get "x" (events (hub w1))) []) /\
    (wildcardListeners (hub ready_world) = [] ->
     snapshot = orElse (JsMap.get "x" (events (hub ready_world))) []) /\
    (asyncEnabled (hub ready_world) = false ->
     abandoned 0 Wildcard (failed waiting_world) = [] ->
     calledW = wildcardListeners (hub ready_world)).
Proof.
  apply (@wildcard_listeners_are_called_first demo default_options ready_world
           2%nat "x" [VNum 7] waiting_world ready_reachable).
  reflexivity.
Defined.

Lemma busy_reachable : reachable demo default_options busy_world.
Proof.
  apply (@steps_reachable demo default_options 1 busy_script
           (construct default_options)).
  - constructor.
  - reflexivity.
Qed.

(** The one-shot record of [busy_world] is called after a listener that
    throws and before one that returns a promise: it is out of the
    sequence of the event x when [emit] gives the control back, and stays
    out. *)
Lemma one_shot_removed_witness :
  ~ In one_shot_record (sequence_of "x" busy_after) /\
  forall fuel' acts w'',
    steps demo fuel' acts busy_after = Some w'' ->
    ~ In one_shot_record (sequence_of "x" w'').
Proof.
  apply (@one_shot_record_removed_by_its_call demo default_options busy_world
           1%nat "x" [VNum 7] busy_after Specific one_shot_record
           busy_reachable).
  - reflexivity.
  - right. left. reflexivity.
  - reflexivity.
  - intros w this args. reflexivity.
Defined.

Lemma doomed_reachable : reachable demo default_options doomed_world.
Proof.
  apply (@steps_reachable demo default_options 1
           [Call (COn "error" plain VUndefined None)]
           (construct default_options)).
  - constructor.
  - reflexivity.
Qed.

(** The listener of the error event is called with the error, the name of
    the event and the handler that threw. *)
Lemma caught_error_witness :
  (no_reentry demo -> calm demo -> (1 <= 1)%nat ->
   exists w',
     handleError (emit demo 1) boom "x" thrower doomed_world =
     Some (Returns w')) /\
  forall c,
    handleError (emit demo 1) boom "x" thrower doomed_world = Some c ->
    exists w' calledW calledS,
      c = Returns w' /\
      nth_error (emitted w') 0 =
        Some (error_event, [boom; VStr "x"; VFun thrower]) /\
      of_call iv_emit 0 (trace w') =
        (map (invocation 0 Wildcard error_event
                         [boom; VStr "x"; VFun thrower]) calledW ++
         map (invocation 0 Specific error_event
                         [boom; VStr "x"; VFun thrower]) calledS)%list /\
      (forall iv, In iv (of_call iv_emit 0 (trace w')) ->
         iv_args iv =
           match iv_kind iv with
           | Wildcard => [VStr error_event; boom; VStr "x"; VFun thrower]
           | Specific => [boom; VStr "x"; VFun thrower]
           end) /\
      (forall l rest, wildcardListeners (hub doomed_world) = l :: rest ->
                      exists called, calledW = l :: called) /\
      (wildcardListeners (hub doomed_world) = [] ->
       (forall l rest, [error_record] = l :: rest ->
                       exists called, calledS = l :: called) /\
       (calledS ++ waiting 0 Specific (parked w') ++
          abandoned 0 Specific (failed w'))%list = [error_record]).
Proof.
  apply (@caught_error_is_reported demo 1%nat boom "x" thrower doomed_world
           [error_record]).
  - exact (reachable_world_ok doomed_reachable).
  - repeat constructor.
  - reflexivity.
Defined.

Lemma demo_printable : throws_printable demo.
Proof.
  intros h w this args error. unfold demo.
  destruct (Nat.eqb h thrower).
  - destruct args as [|a1 [|a2 [|a3 args]]]; simpl; intros H;
      try discriminate H; now injection H as <-.
  - destruct (Nat.eqb h awaiter); discriminate.
Qed.


(** ** The shared instance *)

Lemma family_reachable : Singleton.realm_reachable family.
Proof.
  apply (@SingletonFacts.realm_steps_reachable family_script
           Singleton.loaded family).
  - constructor.
  - reflexivity.
Qed.

(** [Other] extends nothing: [Instance(Other)] creates its object, and
    returns it again afterwards. *)
Lemma Instance_witness :
  exists o,
    Some other_instance = Some o /\
    Singleton.Instance 3 family_with_other = Some (Some o, family_with_other) /\
    (forall c o', Singleton.get_instance c family = Some o' ->
                  Singleton.get_instance c family_with_other = Some o') /\
    (forall c, Singleton.get_eventHub c family_with_other =
               Singleton.get_eventHub c family) /\
    (Singleton.get_instance 3 family = None ->
     o = Singleton.mkObj 3 (Singleton.next_obj family) /\
     Singleton.next_obj family_with_other = S (Singleton.next_obj family)) /\
    (forall o', Singleton.get_instance 3 family = Some o' ->
                o = o' /\ family_with_other = family).
Proof.
  apply (@SingletonFacts.Instance_returns_one_object 3%nat family
           (Some other_instance) family_with_other).
  reflexivity.
Defined.

(** [Sub] is decorated: [Deep], which extends it, then finds the same
    dispatcher, and to decorate [Sub] again changes nothing. *)
Lemma decorator_witness :
  exists o,
    Singleton.get_eventHub 1 family_decorated = Some o /\
    Singleton.decoratorEventHub 1 family_decorated = Some family_decorated /\
    (forall c o', Singleton.get_eventHub c family = Some o' ->
                  Singleton.get_eventHub c family_decorated = Some o') /\
    (forall c, Singleton.get_instance c family_decorated =
               Singleton.get_instance c family) /\
    (Singleton.get_eventHub 1 family = None ->
     o = Singleton.mkObj Singleton.EventHub_ (Singleton.next_obj family) /\
     Singleton.next_obj family_decorated = S (Singleton.next_obj family)) /\
    (forall o', Singleton.get_eventHub 1 family = Some o' ->
                o = o' /\ family_decorated = family).
Proof.
  apply (@SingletonFacts.decorator_attaches_one_dispatcher 1%nat family
           family_decorated).
  reflexivity.
Defined.

(** [Deep] extends [Sub], which extends [EventHub]: [Instance(Deep)] is
    the shared [eventHub]. *)
Lemma subclass_witness :
  Singleton.eventHub = Some (Singleton.mkObj Singleton.EventHub_ 0) /\
  Singleton.Instance 2 family = Some (Singleton.eventHub, family).
Proof.
  apply (@SingletonFacts.subclasses_share_the_instance family 2%nat
           family_reachable).
  apply Singleton.descends_extends
    with (k := Singleton.mkConstructor (Some 1%nat) None None) (s := 1%nat);
    try reflexivity.
  apply Singleton.descends_extends
    with (k := Singleton.mkConstructor (Some 0%nat) None None) (s := 0%nat);
    try reflexivity.
  apply Singleton.descends_self
    with (k := Singleton.mkConstructor None
                 (Some (Singleton.mkObj 0 0)) None).
  reflexivity.
Defined.

End MoreExamples.
